(** * Spectrogram generation and rendering: a shallow embedding

    This development embeds the numerical core of the spectrogram library
    (src/spectrogram.ts, src/window-functions.ts, src/renderer.ts,
    src/frequency-mapping.ts, src/color-scales.ts) and proves the properties
    its specification states about frame counting, hop-size capping,
    normalisation, reassignment, resampling and frequency-scale mapping,
    followed by further facts about the same code: the cells of the standard
    generator, the frequency-range analysis, the colour lookup table and the
    pixels of the rendered image.

    Numbers.  Sizes, counts and indices are JavaScript numbers holding
    integers and are read as [Z]; [Math.floor (a / b)] with [b > 0] is
    [Z.div].  Sample and intensity values are read as exact rationals [Q]:
    every finite double is a rational, rounding error is not modelled and
    the non-finite values (NaN, Infinity) are not represented, so a call on
    which the code divides by 0 (a hop size of 0, a window of one sample)
    is outside the embedding.  The transcendental platform functions
    ([Math.log], [Math.sqrt], ...) are parameters of the embedding.  The
    frequency-scale conversions are generic in the number type, so that
    they can also be read over the real numbers, where [log10], [pow] and
    [atan] are the mathematical functions.

    Timing diagnostics ([now]/[elapsed], which are constant 0 in production
    builds) are left out. *)

From Stdlib Require Import ZArith QArith Qround Qabs Qreals Lia Psatz Reals String.
From stdpp Require Import list.

(** ** JavaScript numbers and typed arrays *)

Module JS.

Local Open Scope Z_scope.

(** [a < b] on numbers. *)
Definition Qltb (a b : Q) : bool := negb (Qle_bool b a).

Lemma Qltb_lt a b : Qltb a b = true <-> (a < b)%Q.
Proof.
  unfold Qltb. rewrite negb_true_iff, <- not_true_iff_false, Qle_bool_iff.
  split; [apply Qnot_le_lt | apply Qlt_not_le].
Qed.

Lemma Qltb_ge a b : Qltb a b = false <-> (b <= a)%Q.
Proof. unfold Qltb. rewrite negb_false_iff. apply Qle_bool_iff. Qed.

(** Truncation toward zero, the integer part that [ToInt32] keeps. *)
Definition Qtrunc (q : Q) : Z := Z.quot (Qnum q) (Z.pos (Qden q)).

(** [x | 0]: ECMAScript [ToInt32], truncate and wrap into the signed 32-bit
    range. *)
Definition ToInt32 (q : Q) : Z := (Qtrunc q + 2 ^ 31) mod 2 ^ 32 - 2 ^ 31.

(** [Math.round]: nearest integer, ties toward plus infinity. *)
Definition Math_round (q : Q) : Z := Qfloor (q + 0.5)%Q.

Definition Math_max (a b : Q) : Q := if Qltb a b then b else a.
Definition Math_min (a b : Q) : Q := if Qltb b a then b else a.

(** [Math.PI] and [Math.LN10], the exact values of the two doubles. *)
Definition Math_PI : Q := 884279719003555 # 281474976710656.
Definition Math_LN10 : Q := 2592480341699211 # 1125899906842624.

(** [new Float32Array (n)]: [n] zeros. *)
Definition f32_new (n : Z) : list Q := replicate (Z.to_nat n) 0%Q.

(** [a[i]] as a value. An index outside the array reads [undefined] in
    JavaScript; the embedding reads 0 there, which is also what
    [a[i] || 0] gives. *)
Definition f32_get (a : list Q) (i : Z) : Q :=
  if i <? 0 then 0%Q else default 0%Q (a !! Z.to_nat i).

(** [a[i] = v]: a store outside the array is ignored by typed arrays. *)
Definition f32_set (a : list Q) (i : Z) (v : Q) : list Q :=
  if i <? 0 then a else <[Z.to_nat i := v]> a.

(** Relative index of [subarray] and [fill]: negative counts from the end,
    the result is clamped to the array. *)
Definition rel_index (len i : Z) : Z :=
  if i <? 0 then Z.max (len + i) 0 else Z.min i len.

(** [a.subarray (b, e)] *)
Definition subarray (a : list Q) (b e : Z) : list Q :=
  let len := Z.of_nat (length a) in
  let b' := rel_index len b in
  let e' := rel_index len e in
  take (Z.to_nat (e' - b')) (drop (Z.to_nat b') a).

(** [dst.set (src)]: overwrite the front of [dst]. (JavaScript raises a
    RangeError when [src] is longer than [dst]; the callers below always
    pass a source that fits.) *)
Definition typed_set (dst src : list Q) : list Q :=
  take (length dst) src ++ drop (length src) dst.

(** [a.fill (v, start)] *)
Definition typed_fill (a : list Q) (v : Q) (start : Z) : list Q :=
  let k := Z.to_nat (rel_index (Z.of_nat (length a)) start) in
  take k a ++ replicate (length a - k) v.

(** [for (let i = lo; i < hi; i++) s = body (i, s)] *)
Definition for_range {S : Type} (lo hi : Z) (body : Z -> S -> S) (s : S) : S :=
  fold_left (fun s k => body (lo + Z.of_nat k) s) (seq 0 (Z.to_nat (hi - lo))) s.

Inductive result (A : Type) : Type :=
| Ok (a : A)
| Throw (message : string).
Arguments Ok {A} a.
Arguments Throw {A} message.

End JS.
Export JS.

(** The transcendental functions of the platform, on doubles. *)
Class MathLib : Type := {
  Math_log : Q -> Q;
  Math_sqrt : Q -> Q;
  Math_cos : Q -> Q;
  Math_sin : Q -> Q;
  Math_log10 : Q -> Q;
  Math_pow : Q -> Q -> Q;
  Math_atan : Q -> Q
}.

(** ** Window coefficients (src/window-functions.ts) *)

Module Window.

Local Open Scope Q_scope.

Inductive WindowType : Type :=
| hann | hamming | blackman | blackmanHarris | rectangular.

Inductive WindowVariant : Type :=
| standard | derivative | timeRamped.

(** Coherent gain (DC gain) for each window type. *)
Definition WINDOW_COHERENT_GAIN (type : WindowType) : Q :=
  match type with
  | hann => 0.5
  | hamming => 0.54
  | blackman => 0.42
  | blackmanHarris => 0.35875
  | rectangular => 1
  end.

Section WithMath.
Context {M : MathLib}.

(** The phase [(k * Math.PI * i) / (N - 1)] all windows are built from.
    For a window of one sample, [N = 1], JavaScript divides 0 by 0 and the
    phase is NaN; the rational quotient is 0 there, so the embedding of the
    windows is the code's only for [N <> 1]. *)
Definition phase (k : Q) (i N : Z) : Q :=
  (k * Math_PI * inject_Z i) / (inject_Z N - 1).

Definition WINDOW_FUNCTIONS (type : WindowType) (i N : Z) : Q :=
  match type with
  | hann => 0.5 * (1 - Math_cos (phase 2 i N))
  | hamming => 0.54 - 0.46 * Math_cos (phase 2 i N)
  | blackman =>
      0.42 - 0.5 * Math_cos (phase 2 i N) + 0.08 * Math_cos (phase 4 i N)
  | blackmanHarris =>
      let a0 := 0.35875 in
      let a1 := 0.48829 in
      let a2 := 0.14128 in
      let a3 := 0.01168 in
      a0 - a1 * Math_cos (phase 2 i N) + a2 * Math_cos (phase 4 i N)
      - a3 * Math_cos (phase 6 i N)
  | rectangular => 1
  end.

(** [(k * Math.PI) / (N - 1)], the factor the derivative brings down; as
    for [phase], the code's value only for [N <> 1]. *)
Definition rate (k : Q) (N : Z) : Q := (k * Math_PI) / (inject_Z N - 1).

Definition WINDOW_DERIVATIVES (type : WindowType) (i N : Z) : Q :=
  match type with
  | hann => rate 1 N * Math_sin (phase 2 i N)
  | hamming => 0.46 * rate 2 N * Math_sin (phase 2 i N)
  | blackman =>
      0.5 * rate 2 N * Math_sin (phase 2 i N)
      - 0.08 * rate 4 N * Math_sin (phase 4 i N)
  | blackmanHarris =>
      let a1 := 0.48829 in
      let a2 := 0.14128 in
      let a3 := 0.01168 in
      a1 * rate 2 N * Math_sin (phase 2 i N)
      - a2 * rate 4 N * Math_sin (phase 4 i N)
      + a3 * rate 6 N * Math_sin (phase 6 i N)
  | rectangular => 0
  end.

Definition WINDOW_TIME_RAMPED (type : WindowType) (i N : Z) : Q :=
  let ramp := inject_Z i - (inject_Z N - 1) / 2 in
  match type with
  | rectangular => ramp
  | _ => ramp * WINDOW_FUNCTIONS type i N
  end.

(** [getWindowCoefficients]: the table is computed once per key and cached;
    the cache only saves recomputation, so the embedding recomputes. *)
Definition getWindowCoefficients
  (type : WindowType) (size : Z) (variant : WindowVariant) : list Q :=
  let fn :=
    match variant with
    | derivative => WINDOW_DERIVATIVES type
    | timeRamped => WINDOW_TIME_RAMPED type
    | standard => WINDOW_FUNCTIONS type
    end in
  for_range 0 size (fun i coefficients => f32_set coefficients i (fn i size))
    (f32_new size).

(** [applyWindowCoefficients (frame, coefficients, output)], writing into
    the caller's buffer. *)
Definition applyWindowCoefficients
  (frame coefficients output : list Q) : list Q :=
  let N := Z.of_nat (length frame) in
  for_range 0 N
    (fun i result => f32_set result i (f32_get frame i * f32_get coefficients i))
    output.

End WithMath.
End Window.
Export Window.

(** ** Spectrogram generation (src/spectrogram.ts) *)

Module Spectrogram.

Local Open Scope Z_scope.

(** The FFT context of the caller: a transform of fixed size with an input
    and an output buffer that [run] connects.  [ctx_transform] is what the
    library behind the interface computes from the input buffer. *)
Record FFTContext : Type := {
  ctx_size : Z;
  ctx_isReal : bool;
  ctx_inputBuffer : list Q;
  ctx_outputBuffer : list Q;
  ctx_transform : list Q -> list Q
}.

Definition ctx_write (ctx : FFTContext) (inputBuffer : list Q) : FFTContext :=
  {| ctx_size := ctx_size ctx; ctx_isReal := ctx_isReal ctx;
     ctx_inputBuffer := inputBuffer;
     ctx_outputBuffer := ctx_outputBuffer ctx;
     ctx_transform := ctx_transform ctx |}.

Definition ctx_run (ctx : FFTContext) : FFTContext :=
  {| ctx_size := ctx_size ctx; ctx_isReal := ctx_isReal ctx;
     ctx_inputBuffer := ctx_inputBuffer ctx;
     ctx_outputBuffer := ctx_transform ctx (ctx_inputBuffer ctx);
     ctx_transform := ctx_transform ctx |}.

Inductive SpectrogramAlgorithm : Type :=
| alg_standard | alg_reassignment.

Record SpectrogramOptions : Type := {
  opt_samples : list Q;
  opt_sampleRate : Q;
  opt_fftContext : FFTContext;
  opt_hopSize : option Z;
  opt_windowType : option WindowType;
  opt_zeroPadding : option Z;
  opt_gain : option Q;
  opt_range : option Q;
  opt_algorithm : option SpectrogramAlgorithm;
  opt_targetWidth : option Z
}.

Record SpectrogramData : Type := {
  data : list Q;
  numFrames : Z;
  numBins : Z;
  fftSize : Z;
  windowSize : Z;
  hopSize : Z;
  sampleRate : Q;
  duration : Q
}.

Definition too_short : string := "Audio too short for the given FFT size".

(** [Math.floor ((samples.length - windowSize) / hopSize) + 1].  With
    [hopSize = 0] JavaScript gets Infinity or NaN where [Z.div] gives 0:
    the count is the code's only for [hopSize <> 0]. *)
Definition frame_count (numSamples windowSize hopSize : Z) : Z :=
  (numSamples - windowSize) / hopSize + 1.

(** The hop size [generateSpectrogram] passes on, capped by [targetWidth]. *)
Definition effective_hopSize
  (numSamples windowSize hopSize : Z) (targetWidth : option Z) : Z :=
  match targetWidth with
  | Some targetWidth =>
      if (negb (targetWidth =? 0)) && (0 <? targetWidth) then
        let framesWithUserHop := frame_count numSamples windowSize hopSize in
        if targetWidth <? framesWithUserHop then
          let minHopSize :=
            (numSamples - windowSize) / Z.max 1 (targetWidth - 1) in
          Z.max hopSize minHopSize
        else hopSize
      else hopSize
  | None => hopSize
  end.

(** [(x + 0.5) | 0], the "fast round" of the reassigned coordinates. *)
Definition fast_round (x : Q) : Z := ToInt32 (x + 0.5)%Q.

(** [normalized < 0 ? 0 : normalized > 1 ? 1 : normalized] *)
Definition clamp01 (normalized : Q) : Q :=
  if Qltb normalized 0 then 0%Q
  else if Qltb 1 normalized then 1%Q
  else normalized.

Section WithMath.
Context {M : MathLib}.

Local Open Scope Q_scope.

Definition DB_SCALE_FACTOR : Q := 20 / Math_LN10.

Definition magnitudeToDb (magnitude : Q) : Q :=
  DB_SCALE_FACTOR * Math_log (magnitude + (1 # 10000000000)).

(** Magnitude to display value: coherent-gain normalisation, dB, rescaling
    by gain and range, clamp. *)
Definition normalizeMagnitude (normFactor gainOffset range mag : Q) : Q :=
  let normalizedMag := mag / normFactor in
  let db := magnitudeToDb normalizedMag in
  let normalized := (db - gainOffset) / range in
  clamp01 normalized.

Definition computeMagnitudeInPlace
  (complexOutput : list Q) (numBins : Z) (magnitudes : list Q) : list Q :=
  for_range 0 numBins
    (fun i magnitudes =>
       let re := f32_get complexOutput (i * 2) in
       let im := f32_get complexOutput (i * 2 + 1) in
       f32_set magnitudes i (Math_sqrt (re * re + im * im)))
    magnitudes.

(** [runFFT]: load the input buffer, run, copy [numBins] complex outputs. *)
Definition runFFT (fftContext : FFTContext) (data : list Q) (fftSize : Z)
  : list Q * FFTContext :=
  let inputBuffer :=
    if ctx_isReal fftContext then typed_set (ctx_inputBuffer fftContext) data
    else
      for_range 0 fftSize
        (fun i inputBuffer =>
           f32_set (f32_set inputBuffer (i * 2) (f32_get data i)) (i * 2 + 1) 0)
        (ctx_inputBuffer fftContext) in
  let fftContext := ctx_run (ctx_write fftContext inputBuffer) in
  let outputBuffer := ctx_outputBuffer fftContext in
  let numBins := (fftSize / 2 + 1)%Z in
  let result :=
    for_range 0 (numBins * 2)
      (fun i result => f32_set result i (f32_get outputBuffer i))
      (f32_new (numBins * 2)) in
  (result, fftContext).

(** Zero padding into the reusable buffer, when there is one. *)
Definition zero_pad (padded : option (list Q)) (windowed : list Q)
  (windowSize : Z) : option (list Q) * list Q :=
  match padded with
  | Some paddedBuffer =>
      let paddedBuffer := typed_fill (typed_set paddedBuffer windowed) 0 windowSize in
      (Some paddedBuffer, paddedBuffer)
  | None => (None, windowed)
  end.

(** *** Standard algorithm *)

Record StandardLoop : Type := {
  std_fftContext : FFTContext;
  std_spectrogram : list Q;
  std_windowedBuffer : list Q;
  std_paddedBuffer : option (list Q);
  std_magnitudeBuffer : list Q
}.

(** The two normalisation loops of one frame. *)
Definition standard_normalize (numBins : Z) (normFactor gainOffset range : Q)
  (magnitudeBuffer : list Q) (frame : Z) (spectrogram : list Q) : list Q :=
  let dcBinsToSkip := 3%Z in
  let frameOffset := (frame * numBins)%Z in
  let spectrogram :=
    for_range 0 dcBinsToSkip
      (fun bin spectrogram => f32_set spectrogram (frameOffset + bin) 0)
      spectrogram in
  for_range dcBinsToSkip numBins
    (fun bin spectrogram =>
       f32_set spectrogram (frameOffset + bin)
         (normalizeMagnitude normFactor gainOffset range
            (f32_get magnitudeBuffer bin)))
    spectrogram.

(** The body of the per-frame loop. *)
Definition standard_frame (samples windowCoeffs : list Q)
  (fftSize windowSize numBins hopSize : Z) (normFactor gainOffset range : Q)
  (frame : Z) (st : StandardLoop) : StandardLoop :=
  let offset := (frame * hopSize)%Z in
  let frameData := subarray samples offset (offset + windowSize) in
  let windowedBuffer :=
    applyWindowCoefficients frameData windowCoeffs (std_windowedBuffer st) in
  let '(paddedBuffer, fftInput) :=
    zero_pad (std_paddedBuffer st) windowedBuffer windowSize in
  let '(fftOutput, fftContext) := runFFT (std_fftContext st) fftInput fftSize in
  let magnitudeBuffer :=
    computeMagnitudeInPlace fftOutput numBins (std_magnitudeBuffer st) in
  {| std_fftContext := fftContext;
     std_spectrogram :=
       standard_normalize numBins normFactor gainOffset range magnitudeBuffer
         frame (std_spectrogram st);
     std_windowedBuffer := windowedBuffer;
     std_paddedBuffer := paddedBuffer;
     std_magnitudeBuffer := magnitudeBuffer |}.

Definition generateStandardSpectrogram
  (samples : list Q) (sampleRate : Q) (fftContext : FFTContext) (hopSize : Z)
  (windowType : WindowType) (zeroPadding : Z) (gain range : Q)
  : result (list Q * Z) :=
  let fftSize := ctx_size fftContext in
  let windowSize := (fftSize / zeroPadding)%Z in
  let numBins := (fftSize / 2 + 1)%Z in
  let numFrames := frame_count (Z.of_nat (length samples)) windowSize hopSize in
  if (numFrames <=? 0)%Z then Throw too_short
  else
    let windowCoeffs := getWindowCoefficients windowType windowSize standard in
    let coherentGain := WINDOW_COHERENT_GAIN windowType in
    let normFactor := (inject_Z fftSize * coherentGain) / 2 in
    let gainOffset := gain - range in
    let st :=
      for_range 0 numFrames
        (standard_frame samples windowCoeffs fftSize windowSize numBins hopSize
           normFactor gainOffset range)
        {| std_fftContext := fftContext;
           std_spectrogram := f32_new (numFrames * numBins);
           std_windowedBuffer := f32_new windowSize;
           std_paddedBuffer :=
             if (1 <? zeroPadding)%Z then Some (f32_new fftSize) else None;
           std_magnitudeBuffer := f32_new numBins |} in
    Ok (std_spectrogram st, numFrames).

(** *** Reassignment algorithm *)

(** The reusable buffers of the frame loop; the loop state is these and
    the accumulator [energyAccum]. *)
Record ReassignedBuffers : Type := {
  re_fftContext : FFTContext;
  re_windowedH : list Q;
  re_windowedDh : list Q;
  re_windowedTh : list Q;
  re_paddedH : option (list Q);
  re_paddedDh : option (list Q);
  re_paddedTh : option (list Q)
}.

(** [|X_h|^2] at a bin. *)
Definition mag_h_sq (X_h : list Q) (bin : Z) : Q :=
  let re_h := f32_get X_h (bin * 2) in
  let im_h := f32_get X_h (bin * 2 + 1) in
  re_h * re_h + im_h * im_h.

(** Instantaneous frequency correction (in bins): minus the imaginary part
    of [X_Dh / X_h], times [fftSize / (2 * Math.PI)]. *)
Definition freqCorrection (freqCorrectionFactor : Q) (X_h X_Dh : list Q)
  (bin : Z) : Q :=
  let re_h := f32_get X_h (bin * 2) in
  let im_h := f32_get X_h (bin * 2 + 1) in
  let re_Dh := f32_get X_Dh (bin * 2) in
  let im_Dh := f32_get X_Dh (bin * 2 + 1) in
  let ratio_Dh_im := (im_Dh * re_h - re_Dh * im_h) / mag_h_sq X_h bin in
  - ratio_Dh_im * freqCorrectionFactor.

(** Group delay / time correction (in frames): the real part of
    [X_Th / X_h], over the hop size. *)
Definition timeCorrection (hopSize : Z) (X_h X_Th : list Q) (bin : Z) : Q :=
  let re_h := f32_get X_h (bin * 2) in
  let im_h := f32_get X_h (bin * 2 + 1) in
  let re_Th := f32_get X_Th (bin * 2) in
  let im_Th := f32_get X_Th (bin * 2 + 1) in
  let ratio_Th_re := (re_Th * re_h + im_Th * im_h) / mag_h_sq X_h bin in
  ratio_Th_re / inject_Z hopSize.

Definition reassignedBin (freqCorrectionFactor : Q) (X_h X_Dh : list Q)
  (bin : Z) : Z :=
  fast_round (inject_Z bin + freqCorrection freqCorrectionFactor X_h X_Dh bin).

Definition reassignedFrame (hopSize : Z) (X_h X_Th : list Q)
  (frame bin : Z) : Z :=
  fast_round (inject_Z frame + timeCorrection hopSize X_h X_Th bin).

(** "Use max instead of sum": keep the larger of the cell and the value. *)
Definition accumulate_max (energyAccum : list Q) (idx : Z) (value : Q) : list Q :=
  if Qltb (f32_get energyAccum idx) value then f32_set energyAccum idx value
  else energyAccum.

(** The first part of the body of the per-bin loop: the cell a bin is
    reassigned to and the value it brings, or nothing when the bin is
    skipped ([continue]) or its coordinates fall outside the matrix. *)
Definition contribution (numBins numFrames hopSize : Z)
  (normFactor gainOffset range freqCorrectionFactor : Q)
  (X_h X_Dh X_Th : list Q) (frame bin : Z) : option (Z * Q) :=
  let dcBinsToSkip := 3%Z in
  if Qltb (mag_h_sq X_h bin) (1 # 100000000000000000000) then None
  else
    let mag_h := Math_sqrt (mag_h_sq X_h bin) in
    let reassignedBin := reassignedBin freqCorrectionFactor X_h X_Dh bin in
    let reassignedFrame := reassignedFrame hopSize X_h X_Th frame bin in
    if ((dcBinsToSkip <=? reassignedBin)%Z && (reassignedBin <? numBins)%Z
        && (0 <=? reassignedFrame)%Z && (reassignedFrame <? numFrames)%Z)%bool
    then
      let idx := (reassignedFrame * numBins + reassignedBin)%Z in
      let value := normalizeMagnitude normFactor gainOffset range mag_h in
      Some (idx, value)
    else None.

(** The body of the per-bin loop of one frame. *)
Definition reassign_bin (numBins numFrames hopSize : Z)
  (normFactor gainOffset range freqCorrectionFactor : Q)
  (X_h X_Dh X_Th : list Q) (frame bin : Z) (energyAccum : list Q) : list Q :=
  match contribution numBins numFrames hopSize normFactor gainOffset range
          freqCorrectionFactor X_h X_Dh X_Th frame bin with
  | Some (idx, value) => accumulate_max energyAccum idx value
  | None => energyAccum
  end.

(** The first part of the body of the per-frame loop: windowing, zero
    padding and the three transforms, in the order the code runs them. *)
Definition frame_transforms
  (samples windowCoeffsH windowCoeffsDh windowCoeffsTh : list Q)
  (fftSize windowSize hopSize : Z) (frame : Z) (buffers : ReassignedBuffers)
  : list Q * list Q * list Q * ReassignedBuffers :=
  let offset := (frame * hopSize)%Z in
  let frameData := subarray samples offset (offset + windowSize) in
  let windowedH :=
    applyWindowCoefficients frameData windowCoeffsH (re_windowedH buffers) in
  let windowedDh :=
    applyWindowCoefficients frameData windowCoeffsDh (re_windowedDh buffers) in
  let windowedTh :=
    applyWindowCoefficients frameData windowCoeffsTh (re_windowedTh buffers) in
  let '(paddedH, fftInputH) := zero_pad (re_paddedH buffers) windowedH windowSize in
  let '(paddedDh, fftInputDh) := zero_pad (re_paddedDh buffers) windowedDh windowSize in
  let '(paddedTh, fftInputTh) := zero_pad (re_paddedTh buffers) windowedTh windowSize in
  let '(X_h, fftContext) := runFFT (re_fftContext buffers) fftInputH fftSize in
  let '(X_Dh, fftContext) := runFFT fftContext fftInputDh fftSize in
  let '(X_Th, fftContext) := runFFT fftContext fftInputTh fftSize in
  (X_h, X_Dh, X_Th,
   {| re_fftContext := fftContext;
      re_windowedH := windowedH;
      re_windowedDh := windowedDh;
      re_windowedTh := windowedTh;
      re_paddedH := paddedH;
      re_paddedDh := paddedDh;
      re_paddedTh := paddedTh |}).

(** The body of the per-frame loop. *)
Definition reassigned_frame
  (samples windowCoeffsH windowCoeffsDh windowCoeffsTh : list Q)
  (fftSize windowSize numBins numFrames hopSize : Z)
  (normFactor gainOffset range freqCorrectionFactor : Q)
  (frame : Z) (st : ReassignedBuffers * list Q) : ReassignedBuffers * list Q :=
  let dcBinsToSkip := 3%Z in
  let '(X_h, X_Dh, X_Th, buffers) :=
    frame_transforms samples windowCoeffsH windowCoeffsDh windowCoeffsTh
      fftSize windowSize hopSize frame (fst st) in
  (buffers,
   for_range dcBinsToSkip numBins
     (reassign_bin numBins numFrames hopSize normFactor gainOffset range
        freqCorrectionFactor X_h X_Dh X_Th frame)
     (snd st)).

(** The buffers the frame loop starts from. *)
Definition reassigned_buffers (fftContext : FFTContext)
  (fftSize windowSize zeroPadding : Z) : ReassignedBuffers :=
  let padded := if (1 <? zeroPadding)%Z then Some (f32_new fftSize) else None in
  {| re_fftContext := fftContext;
     re_windowedH := f32_new windowSize;
     re_windowedDh := f32_new windowSize;
     re_windowedTh := f32_new windowSize;
     re_paddedH := padded;
     re_paddedDh := padded;
     re_paddedTh := padded |}.

Definition generateReassignedSpectrogram
  (samples : list Q) (sampleRate : Q) (fftContext : FFTContext) (hopSize : Z)
  (windowType : WindowType) (zeroPadding : Z) (gain range : Q)
  : result (list Q * Z) :=
  let fftSize := ctx_size fftContext in
  let windowSize := (fftSize / zeroPadding)%Z in
  let numBins := (fftSize / 2 + 1)%Z in
  let numFrames := frame_count (Z.of_nat (length samples)) windowSize hopSize in
  if (numFrames <=? 0)%Z then Throw too_short
  else
    let spectrogram := f32_new (numFrames * numBins) in
    let energyAccum := f32_new (numFrames * numBins) in
    let windowCoeffsH := getWindowCoefficients windowType windowSize standard in
    let windowCoeffsDh := getWindowCoefficients windowType windowSize derivative in
    let windowCoeffsTh := getWindowCoefficients windowType windowSize timeRamped in
    let coherentGain := WINDOW_COHERENT_GAIN windowType in
    let normFactor := (inject_Z fftSize * coherentGain) / 2 in
    let gainOffset := gain - range in
    let freqCorrectionFactor := inject_Z fftSize / (2 * Math_PI) in
    let st :=
      for_range 0 numFrames
        (reassigned_frame samples windowCoeffsH windowCoeffsDh windowCoeffsTh
           fftSize windowSize numBins numFrames hopSize
           normFactor gainOffset range freqCorrectionFactor)
        (reassigned_buffers fftContext fftSize windowSize zeroPadding,
         energyAccum) in
    (* spectrogram.set (energyAccum) *)
    Ok (typed_set spectrogram (snd st), numFrames).

(** *** Entry point *)

Definition generateSpectrogram (options : SpectrogramOptions)
  : result SpectrogramData :=
  let samples := opt_samples options in
  let sampleRate := opt_sampleRate options in
  let fftContext := opt_fftContext options in
  let zeroPadding := default 1%Z (opt_zeroPadding options) in
  let gain := default 0 (opt_gain options) in
  let range := default 80 (opt_range options) in
  let algorithm := default alg_standard (opt_algorithm options) in
  let windowType := default hann (opt_windowType options) in
  let fftSize := ctx_size fftContext in
  let windowSize := (fftSize / zeroPadding)%Z in
  let numBins := (fftSize / 2 + 1)%Z in
  let hopSize := default (fftSize / 4)%Z (opt_hopSize options) in
  let hopSize :=
    effective_hopSize (Z.of_nat (length samples)) windowSize hopSize
      (opt_targetWidth options) in
  let generate :=
    match algorithm with
    | alg_reassignment => generateReassignedSpectrogram
    | alg_standard => generateStandardSpectrogram
    end in
  match generate samples sampleRate fftContext hopSize windowType zeroPadding
          gain range with
  | Throw message => Throw message
  | Ok (spectrogram, numFrames) =>
      Ok {| data := spectrogram;
            numFrames := numFrames;
            numBins := numBins;
            fftSize := fftSize;
            windowSize := windowSize;
            hopSize := hopSize;
            sampleRate := sampleRate;
            duration := inject_Z (Z.of_nat (length samples)) / sampleRate |}
  end.

End WithMath.
End Spectrogram.

(** ** Facts about typed arrays and loops *)

Module JSFacts.

Local Open Scope Z_scope.

Lemma for_range_ind {S : Type} (P : S -> Prop) (lo hi : Z)
  (body : Z -> S -> S) (s : S) :
  P s ->
  (forall i s, lo <= i < hi -> P s -> P (body i s)) ->
  P (for_range lo hi body s).
Proof.
  intros Hs Hbody. unfold for_range.
  assert (Hall : forall k, In k (seq 0 (Z.to_nat (hi - lo))) ->
                           lo <= lo + Z.of_nat k < hi).
  { intros k Hk. apply in_seq in Hk. lia. }
  revert s Hs Hall. generalize (seq 0 (Z.to_nat (hi - lo))) as ks.
  induction ks as [|k ks IH]; intros s Hs Hall; simpl; [exact Hs|].
  apply IH.
  - apply Hbody; [apply Hall; left; reflexivity | exact Hs].
  - intros k' Hk'. apply Hall. right. exact Hk'.
Qed.

Lemma for_range_empty {S : Type} (lo hi : Z) (body : Z -> S -> S) (s : S) :
  hi <= lo -> for_range lo hi body s = s.
Proof.
  intros H. unfold for_range. replace (Z.to_nat (hi - lo)) with 0%nat by lia.
  reflexivity.
Qed.

Lemma f32_new_length n : length (f32_new n) = Z.to_nat n.
Proof. apply length_replicate. Qed.

Lemma f32_set_length a i v : length (f32_set a i v) = length a.
Proof. unfold f32_set. destruct (i <? 0); [reflexivity | apply length_insert]. Qed.

Lemma f32_set_lookup a i v (k : nat) :
  f32_set a i v !! k = a !! k \/
  (i = Z.of_nat k /\ f32_set a i v !! k = Some v).
Proof.
  unfold f32_set. destruct (i <? 0) eqn:Hi; [left; reflexivity|].
  apply Z.ltb_ge in Hi.
  destruct (decide (Z.to_nat i = k)) as [<-|Hne].
  - destruct (decide (Z.to_nat i < length a)%nat) as [Hlt|Hge].
    + right. split; [lia | apply list_lookup_insert_eq; exact Hlt].
    + left. rewrite list_insert_ge by lia. reflexivity.
  - left. apply list_lookup_insert_ne. exact Hne.
Qed.

Lemma f32_get_lookup a (k : nat) v :
  a !! k = Some v -> f32_get a (Z.of_nat k) = v.
Proof.
  intros H. unfold f32_get.
  destruct (Z.of_nat k <? 0) eqn:Hk; [apply Z.ltb_lt in Hk; lia|].
  rewrite Nat2Z.id, H. reflexivity.
Qed.

Lemma f32_get_set_eq a i v :
  0 <= i < Z.of_nat (length a) -> f32_get (f32_set a i v) i = v.
Proof.
  intros Hi. unfold f32_get, f32_set.
  destruct (i <? 0) eqn:H0; [apply Z.ltb_lt in H0; lia|].
  rewrite list_lookup_insert_eq by lia. reflexivity.
Qed.

Lemma f32_get_set_ne a i j v :
  i <> j -> f32_get (f32_set a i v) j = f32_get a j.
Proof.
  intros Hne. unfold f32_get, f32_set.
  destruct (j <? 0) eqn:Hj; [reflexivity|].
  destruct (i <? 0) eqn:Hi; [reflexivity|].
  apply Z.ltb_ge in Hi, Hj.
  rewrite list_lookup_insert_ne by lia. reflexivity.
Qed.

Lemma typed_set_length dst src : length (typed_set dst src) = length dst.
Proof.
  unfold typed_set. rewrite length_app, length_take, length_drop. lia.
Qed.

(** A window that lies inside the array is a full window of its samples. *)
Lemma subarray_inside (a : list Q) (b e : Z) :
  0 <= b <= e -> e <= Z.of_nat (length a) ->
  length (subarray a b e) = Z.to_nat (e - b) /\
  forall i : nat, (i < Z.to_nat (e - b))%nat ->
             subarray a b e !! i = a !! (Z.to_nat b + i)%nat.
Proof.
  intros Hbe He. unfold subarray, rel_index.
  destruct (b <? 0) eqn:Hb; [apply Z.ltb_lt in Hb; lia|].
  destruct (e <? 0) eqn:He0; [apply Z.ltb_lt in He0; lia|].
  rewrite !Z.min_l by lia. split.
  - rewrite length_take, length_drop. lia.
  - intros i Hi. rewrite lookup_take_lt by exact Hi. apply lookup_drop.
Qed.

Lemma Qtrunc_nonneg q : (0 <= q)%Q -> Qtrunc q = Qfloor q.
Proof.
  intros H. unfold Qtrunc, Qfloor. destruct q as [n d]. simpl.
  apply Z.quot_div_nonneg; [|lia].
  unfold Qle in H. simpl in H. lia.
Qed.

Lemma ToInt32_small t : - 2 ^ 31 <= t < 2 ^ 31 ->
  (t + 2 ^ 31) mod 2 ^ 32 - 2 ^ 31 = t.
Proof. intros H. rewrite Z.mod_small; lia. Qed.

(** On a number in [0, 2^31) the idiom [x | 0] is [Math.floor]. *)
Lemma ToInt32_floor q :
  (0 <= q)%Q -> (q < inject_Z (2 ^ 31))%Q -> ToInt32 q = Qfloor q.
Proof.
  intros H0 Hhi. unfold ToInt32. rewrite Qtrunc_nonneg by exact H0.
  apply ToInt32_small.
  assert (0 <= Qfloor q).
  { change 0 with (Qfloor 0). apply Qfloor_resp_le. exact H0. }
  assert (Qfloor q < 2 ^ 31); [|lia].
  rewrite Zlt_Qlt. pose proof (Qfloor_le q). lra.
Qed.

(** One more turn of a loop. *)
Lemma for_range_succ {S : Type} (lo hi : Z) (body : Z -> S -> S) (s : S) :
  lo <= hi ->
  for_range lo (hi + 1) body s = body hi (for_range lo hi body s).
Proof.
  intros H. unfold for_range.
  replace (Z.to_nat (hi + 1 - lo)) with (Datatypes.S (Z.to_nat (hi - lo))) by lia.
  rewrite seq_S, fold_left_app. simpl. f_equal. lia.
Qed.

(** A loop that stores [F i] at index [i] leaves [F i] there. *)
Lemma for_range_fill (F : Z -> Q) (n : Z) (a : list Q) (i : Z) :
  0 <= i < n -> i < Z.of_nat (length a) ->
  f32_get (for_range 0 n (fun i a => f32_set a i (F i)) a) i = F i.
Proof.
  intros Hi Hlen.
  assert (Hgen : forall k : nat,
    length (for_range 0 (Z.of_nat k) (fun i a => f32_set a i (F i)) a)
    = length a /\
    (i < Z.of_nat k ->
     f32_get (for_range 0 (Z.of_nat k) (fun i a => f32_set a i (F i)) a) i
     = F i)).
  { induction k as [|k [IHlen IH]].
    - split; [reflexivity | lia].
    - rewrite Nat2Z.inj_succ, <- Z.add_1_r, for_range_succ by lia.
      split; [rewrite f32_set_length; exact IHlen|].
      intros Hk.
      destruct (decide (i = Z.of_nat k)) as [->|Hne].
      + apply f32_get_set_eq. rewrite IHlen. lia.
      + rewrite f32_get_set_ne by lia. apply IH. lia. }
  destruct (Hgen (Z.to_nat n)) as [_ H]. rewrite Z2Nat.id in H by lia.
  apply H. lia.
Qed.

End JSFacts.

(** ** Frame counting and hop-size capping *)

Module Frames.

Import Spectrogram JSFacts.
Local Open Scope Z_scope.

(** The window size and the frame count as the specification words them:
    a quotient of numbers and [floor]. *)
Definition spec_windowSize (fftSize zeroPadding : Z) : Z :=
  Qfloor (inject_Z fftSize / inject_Z zeroPadding).

Definition spec_numFrames (numSamples windowSize hopSize : Z) : Z :=
  Qfloor (inject_Z (numSamples - windowSize) / inject_Z hopSize) + 1.

(** The hop size before capping: the caller's, or [Math.floor (fftSize / 4)]. *)
Definition requested_hopSize (options : SpectrogramOptions) : Z :=
  default (ctx_size (opt_fftContext options) / 4) (opt_hopSize options).

(** The hop size the generator runs with. *)
Definition used_hopSize (options : SpectrogramOptions) : Z :=
  let fftSize := ctx_size (opt_fftContext options) in
  let zeroPadding := default 1 (opt_zeroPadding options) in
  effective_hopSize (Z.of_nat (length (opt_samples options)))
    (fftSize / zeroPadding) (requested_hopSize options)
    (opt_targetWidth options).

(** The calls on which the integer and rational reading of the arithmetic
    is the JavaScript one: an even positive transform size (the interface
    asks for a power of two), a zero-padding factor and a hop size of at
    least one sample, and a dynamic range that is not 0. *)
Definition valid_options (options : SpectrogramOptions) : bool :=
  let fftSize := ctx_size (opt_fftContext options) in
  (0 <? fftSize) && Z.even fftSize
  && (1 <=? default 1 (opt_zeroPadding options))
  && (1 <=? requested_hopSize options)
  && negb (Qeq_bool (default 80%Q (opt_range options)) 0).

(** A stand-in for the platform's functions, to run the embedding on
    concrete inputs.  No theorem depends on it: they hold for every
    [MathLib]. *)
Definition stub_math : MathLib :=
  {| Math_log := fun x => (x - 1)%Q;
     Math_sqrt := fun x => x;
     Math_cos := fun x => (1 - x)%Q;
     Math_sin := fun x => x;
     Math_log10 := fun x => (x - 1)%Q;
     Math_pow := fun x y => (x * y)%Q;
     Math_atan := fun x => x |}.

(** A real transform context of size 8 whose transform copies its input
    and appends one more complex bin. *)
Definition stub_fft : FFTContext :=
  {| ctx_size := 8;
     ctx_isReal := true;
     ctx_inputBuffer := f32_new 8;
     ctx_outputBuffer := f32_new 16;
     ctx_transform := fun input => input ++ [1%Q; 2%Q] |}.

Definition ramp (n : nat) : list Q := map (fun k => inject_Z (Z.of_nat k)) (seq 0 n).

Definition stub_options (numSamples : nat) (hopSize targetWidth : option Z)
  (algorithm : option SpectrogramAlgorithm) : SpectrogramOptions :=
  {| opt_samples := ramp numSamples;
     opt_sampleRate := 8%Q;
     opt_fftContext := stub_fft;
     opt_hopSize := hopSize;
     opt_windowType := None;
     opt_zeroPadding := None;
     opt_gain := None;
     opt_range := None;
     opt_algorithm := algorithm;
     opt_targetWidth := targetWidth |}.

Lemma Qfloor_div (a b : Z) : 0 < b -> Qfloor (inject_Z a / inject_Z b) = a / b.
Proof.
  intros Hb.
  assert (Hq : (inject_Z a / inject_Z b == a # Z.to_pos b)%Q).
  { unfold Qdiv, Qinv, Qmult, Qeq, inject_Z; simpl.
    destruct b as [|p|p]; try lia. simpl. lia. }
  rewrite Hq. unfold Qfloor. simpl. rewrite Z2Pos.id by lia. reflexivity.
Qed.

Lemma spec_windowSize_div fftSize zeroPadding :
  1 <= zeroPadding -> spec_windowSize fftSize zeroPadding = fftSize / zeroPadding.
Proof. intros H. apply Qfloor_div. lia. Qed.

Lemma spec_numFrames_frame_count numSamples windowSize hopSize :
  1 <= hopSize ->
  spec_numFrames numSamples windowSize hopSize
  = frame_count numSamples windowSize hopSize.
Proof.
  intros H. unfold spec_numFrames, frame_count. rewrite Qfloor_div by lia.
  reflexivity.
Qed.

(** The cap never lowers the hop size. *)
Lemma effective_hopSize_ge numSamples windowSize hopSize targetWidth :
  hopSize <= effective_hopSize numSamples windowSize hopSize targetWidth.
Proof.
  unfold effective_hopSize. destruct targetWidth as [t|]; [|lia].
  destruct (negb (t =? 0) && (0 <? t)); [|lia].
  destruct (t <? frame_count numSamples windowSize hopSize); lia.
Qed.

Lemma valid_options_spec options :
  valid_options options = true ->
  0 < ctx_size (opt_fftContext options) /\
  1 <= default 1 (opt_zeroPadding options) /\
  1 <= requested_hopSize options /\
  1 <= used_hopSize options.
Proof.
  unfold valid_options. rewrite !andb_true_iff.
  intros [[[[H1 _] H3] H4] _].
  apply Z.ltb_lt in H1. apply Z.leb_le in H3, H4.
  repeat split; try assumption.
  unfold used_hopSize.
  pose proof (effective_hopSize_ge
    (Z.of_nat (length (opt_samples options)))
    (ctx_size (opt_fftContext options) / default 1 (opt_zeroPadding options))
    (requested_hopSize options) (opt_targetWidth options)).
  lia.
Qed.

Section WithMath.
Context {M : MathLib}.

(** What [generateSpectrogram] returns, in terms of the frame count. *)
Lemma generateSpectrogram_cases options :
  let fftSize := ctx_size (opt_fftContext options) in
  let windowSize := fftSize / default 1 (opt_zeroPadding options) in
  let n := frame_count (Z.of_nat (length (opt_samples options))) windowSize
             (used_hopSize options) in
  (n <= 0 /\ generateSpectrogram options = Throw too_short) \/
  (0 < n /\ exists d, generateSpectrogram options = Ok d /\
      numFrames d = n /\ hopSize d = used_hopSize options /\
      Spectrogram.windowSize d = windowSize /\
      numBins d = fftSize / 2 + 1).
Proof.
  intros fftSize windowSize n.
  unfold generateSpectrogram.
  fold fftSize. fold (requested_hopSize options).
  change (effective_hopSize _ _ _ _) with (used_hopSize options).
  destruct (default alg_standard (opt_algorithm options));
    [unfold generateStandardSpectrogram | unfold generateReassignedSpectrogram];
    fold fftSize; fold windowSize; fold n;
    (destruct (n <=? 0) eqn:Hn;
     [ left; apply Z.leb_le in Hn; split; [exact Hn | reflexivity]
     | right; apply Z.leb_gt in Hn; split; [exact Hn|];
       eexists; split; [reflexivity|]; simpl; repeat split; reflexivity ]).
Qed.

(** C3. The number of frames is [floor ((numSamples - windowSize) / hopSize)
    + 1] with [windowSize = floor (fftSize / zeroPadding)] and the hop size
    the generator runs with; the call fails with the "audio too short"
    error exactly when this number is at most 0, and otherwise it returns,
    with this number as [numFrames]. *)
Theorem C3_frame_count (options : SpectrogramOptions) :
  valid_options options = true ->
  let numSamples := Z.of_nat (length (opt_samples options)) in
  let windowSize :=
    spec_windowSize (ctx_size (opt_fftContext options))
      (default 1 (opt_zeroPadding options)) in
  let n := spec_numFrames numSamples windowSize (used_hopSize options) in
  (generateSpectrogram options = Throw too_short <-> n <= 0) /\
  (0 < n ->
   exists d, generateSpectrogram options = Ok d /\ numFrames d = n /\
             hopSize d = used_hopSize options /\
             Spectrogram.windowSize d = windowSize).
Proof.
  intros Hvalid numSamples windowSize n.
  destruct (valid_options_spec options Hvalid) as (_ & Hzp & _ & Hhop).
  subst n windowSize numSamples.
  rewrite spec_windowSize_div by exact Hzp.
  rewrite spec_numFrames_frame_count by exact Hhop.
  destruct (generateSpectrogram_cases options)
    as [[Hn Hgen] | [Hn (d & Hgen & HnF & Hh & Hw & _)]].
  - split; [split; intros; [exact Hn | exact Hgen] | intros; lia].
  - split.
    + split; [intros Hthrow; rewrite Hgen in Hthrow; discriminate | intros; lia].
    + intros _. exists d. repeat split; assumption.
Qed.

End WithMath.

(** C3 on a run: 12 samples, size 8, hop 2 give 3 frames. *)
Lemma C3_frame_count_witness :
  (generateSpectrogram (M := stub_math)
     (stub_options 12 (Some 2) None None) = Throw too_short <-> 3 <= 0) /\
  (0 < 3 ->
   exists d, generateSpectrogram (M := stub_math)
               (stub_options 12 (Some 2) None None) = Ok d /\
             numFrames d = 3 /\ hopSize d = 2 /\
             Spectrogram.windowSize d = 8).
Proof.
  exact (C3_frame_count (M := stub_math) (stub_options 12 (Some 2) None None)
           eq_refl).
Defined.

(** C10. With a hop size of at least one sample, every frame the loop
    visits lies inside the input: its window ends at or before the last
    sample, so the extracted window has exactly [windowSize] elements and
    each of them is the input sample at [frame * hopSize + i].  (The frame
    loop itself is a fold over the indices [0 .. numFrames - 1], hence
    finite.) *)
Theorem C10_frame_reads_in_bounds
  (samples : list Q) (windowSize hopSize frame : Z) :
  1 <= hopSize -> 0 <= windowSize ->
  let numSamples := Z.of_nat (length samples) in
  let numFrames := frame_count numSamples windowSize hopSize in
  0 < numFrames -> 0 <= frame < numFrames ->
  let offset := frame * hopSize in
  offset + windowSize <= numSamples /\
  length (subarray samples offset (offset + windowSize)) = Z.to_nat windowSize /\
  forall i, 0 <= i < windowSize ->
    is_Some (samples !! Z.to_nat (offset + i)) /\
    subarray samples offset (offset + windowSize) !! Z.to_nat i
    = samples !! Z.to_nat (offset + i).
Proof.
  intros Hhop Hw numSamples numFrames Hn Hframe offset.
  assert (Hbound : offset + windowSize <= numSamples).
  { unfold numFrames, frame_count in Hframe. subst offset.
    assert (frame <= (numSamples - windowSize) / hopSize) by lia.
    assert (hopSize * ((numSamples - windowSize) / hopSize)
            <= numSamples - windowSize)
      by (apply Z.mul_div_le; lia).
    nia. }
  assert (Hoff : 0 <= offset) by (subst offset; nia).
  destruct (subarray_inside samples offset (offset + windowSize))
    as [Hlen Hget]; [lia | exact Hbound |].
  replace (offset + windowSize - offset) with windowSize in * by lia.
  split; [exact Hbound|]. split; [exact Hlen|].
  intros i Hi. split.
  - apply lookup_lt_is_Some. subst numSamples. lia.
  - rewrite Hget by lia. f_equal. lia.
Qed.

(** C10 at frame 2 of 12 samples with window 8 and hop 2. *)
Lemma C10_frame_reads_in_bounds_witness :
  2 * 2 + 8 <= Z.of_nat (length (ramp 12)) /\
  length (subarray (ramp 12) (2 * 2) (2 * 2 + 8)) = Z.to_nat 8 /\
  forall i, 0 <= i < 8 ->
    is_Some (ramp 12 !! Z.to_nat (2 * 2 + i)) /\
    subarray (ramp 12) (2 * 2) (2 * 2 + 8) !! Z.to_nat i
    = ramp 12 !! Z.to_nat (2 * 2 + i).
Proof.
  apply (C10_frame_reads_in_bounds (ramp 12) 8 2 2);
    vm_compute; try split; congruence.
Defined.

(** With a cap of at least two frames on an input that is long for it
    ([(targetWidth - 1)^2 <= numSamples - windowSize]), the capped hop size
    does bring the frame count down to the target. *)
Lemma cap_reaches_target_when_long numSamples windowSize hopSize targetWidth :
  1 <= hopSize -> 2 <= targetWidth ->
  (targetWidth - 1) * (targetWidth - 1) <= numSamples - windowSize ->
  targetWidth < frame_count numSamples windowSize hopSize ->
  frame_count numSamples windowSize
    (effective_hopSize numSamples windowSize hopSize (Some targetWidth))
  <= targetWidth.
Proof.
  intros Hhop Ht Hlong Hmany.
  unfold effective_hopSize.
  replace (negb (targetWidth =? 0) && (0 <? targetWidth)) with true
    by (symmetry; apply andb_true_iff; split;
        [apply negb_true_iff, Z.eqb_neq | apply Z.ltb_lt]; lia).
  apply Z.ltb_lt in Hmany. rewrite Hmany.
  rewrite (Z.max_r 1 (targetWidth - 1)) by lia.
  set (L := numSamples - windowSize) in *.
  set (k := L / (targetWidth - 1)).
  assert (Hk : targetWidth - 1 <= k).
  { subst k. apply Z.div_le_lower_bound; lia. }
  assert (HL : L < (targetWidth - 1) * (k + 1)).
  { subst k. pose proof (Z.mul_succ_div_gt L (targetWidth - 1)). lia. }
  set (h := Z.max hopSize k).
  assert (Hh : k <= h) by (subst h; lia).
  unfold frame_count. fold L.
  assert (L / h < targetWidth); [|lia].
  apply Z.div_lt_upper_bound; [lia|]. nia.
Qed.

Lemma cap_reaches_target_when_long_witness :
  frame_count 301024 1024
    (effective_hopSize 301024 1024 256 (Some 100))
  <= 100.
Proof.
  apply (cap_reaches_target_when_long 301024 1024 256 100);
    [lia | lia | lia | vm_compute; reflexivity].
Defined.

(** A run never uses a hop size below the requested one: the cap on the
    frame count only raises it. *)
Theorem hop_size_never_lowered (M : MathLib) (options : SpectrogramOptions)
  (d : SpectrogramData) :
  generateSpectrogram options = Ok d ->
  requested_hopSize options <= hopSize d.
Proof.
  intros Hrun.
  destruct (generateSpectrogram_cases options)
    as [[_ Hthrow] | [_ (d' & Hok & _ & Hhop & _)]].
  - rewrite Hrun in Hthrow. discriminate Hthrow.
  - rewrite Hrun in Hok. injection Hok as <-. rewrite Hhop.
    apply effective_hopSize_ge.
Qed.

Lemma hop_size_never_lowered_witness :
  match generateSpectrogram (M := stub_math)
          (stub_options 58 None (Some 10) None) with
  | Ok d => requested_hopSize (stub_options 58 None (Some 10) None) <= hopSize d
  | Throw _ => False
  end.
Proof.
  destruct (generateSpectrogram (M := stub_math)
              (stub_options 58 None (Some 10) None)) as [d|e] eqn:Hrun.
  - exact (hop_size_never_lowered stub_math _ d Hrun).
  - vm_compute in Hrun. discriminate Hrun.
Defined.

(** C2, evaluated where the cap misses its target.  An input of 301024
    samples with a transform of size 1024, the default hop size 256 and
    [targetWidth = 1000] would give 1172 frames; the hop size is raised to
    [floor (300000 / 999) = 300], which gives 1001 frames.  The same happens
    on a run of the generator: 58 samples, size 8, the default hop size 2
    and [targetWidth = 10] end with hop size 5 and 11 frames. *)
Theorem C2_cap_overshoots_target :
  frame_count 301024 1024 256 = 1172 /\
  effective_hopSize 301024 1024 256 (Some 1000) = 300 /\
  frame_count 301024 1024 300 = 1001 /\
  exists d,
    generateSpectrogram (M := stub_math) (stub_options 58 None (Some 10) None)
    = Ok d /\ hopSize d = 5 /\ numFrames d = 11.
Proof.
  repeat split; try reflexivity.
  eexists. split; [vm_compute; reflexivity|]. split; reflexivity.
Qed.


End Frames.

(** ** The generated matrix: values in [0,1], suppressed DC bins *)

Module Matrix.

Import Spectrogram JSFacts Frames.
Local Open Scope Z_scope.

(** What every store into the matrix respects: the value lies in [0,1],
    and it is 0 at the first three bins of a frame. *)
Definition cell_ok (numBins : Z) (k : nat) (v : Q) : Prop :=
  (0 <= v <= 1)%Q /\ (Z.of_nat k mod numBins < 3 -> v = 0%Q).

Definition matrix_ok (numBins : Z) (m : list Q) : Prop :=
  forall k v, m !! k = Some v -> cell_ok numBins k v.

Lemma clamp01_bounds x : (0 <= clamp01 x <= 1)%Q.
Proof.
  unfold clamp01.
  destruct (Qltb x 0) eqn:H0; [split; [apply Qle_refl | discriminate]|].
  destruct (Qltb 1 x) eqn:H1; [split; [discriminate | apply Qle_refl]|].
  apply Qltb_ge in H0, H1. split; assumption.
Qed.

Lemma matrix_ok_new numBins n : matrix_ok numBins (f32_new n).
Proof.
  intros k v Hk. apply lookup_replicate in Hk as [-> _].
  split; [split; [apply Qle_refl | discriminate] | reflexivity].
Qed.

Lemma matrix_ok_set_zero numBins m i :
  matrix_ok numBins m -> matrix_ok numBins (f32_set m i 0).
Proof.
  intros Hm k v Hk.
  destruct (f32_set_lookup m i 0 k) as [Heq | [_ Heq]]; rewrite Heq in Hk.
  - apply Hm. exact Hk.
  - injection Hk as <-.
    split; [split; [apply Qle_refl | discriminate] | reflexivity].
Qed.

Lemma matrix_ok_set_bin numBins m frame bin v :
  matrix_ok numBins m -> (0 <= v <= 1)%Q -> 3 <= bin < numBins ->
  matrix_ok numBins (f32_set m (frame * numBins + bin) v).
Proof.
  intros Hm Hv Hbin k w Hk.
  destruct (f32_set_lookup m (frame * numBins + bin) v k)
    as [Heq | [Hidx Heq]]; rewrite Heq in Hk.
  - apply Hm. exact Hk.
  - injection Hk as <-. split; [exact Hv|].
    rewrite <- Hidx, Z.add_comm, Z.mod_add, Z.mod_small by lia. lia.
Qed.

Section WithMath.
Context {M : MathLib}.

Lemma normalizeMagnitude_bounds normFactor gainOffset range mag :
  (0 <= normalizeMagnitude normFactor gainOffset range mag <= 1)%Q.
Proof. apply clamp01_bounds. Qed.

(** The invariant of both frame loops. *)
Definition spectrogram_ok (numBins : Z) (n : nat) (m : list Q) : Prop :=
  matrix_ok numBins m /\ length m = n.

Lemma standard_normalize_ok numBins n normFactor gainOffset range mags frame m :
  spectrogram_ok numBins n m ->
  spectrogram_ok numBins n
    (standard_normalize numBins normFactor gainOffset range mags frame m).
Proof.
  intros Hm. unfold standard_normalize.
  apply for_range_ind.
  - apply for_range_ind; [exact Hm|].
    intros bin m' _ [Hok Hlen]. split.
    + apply matrix_ok_set_zero. exact Hok.
    + rewrite f32_set_length. exact Hlen.
  - intros bin m' Hbin [Hok Hlen]. split.
    + apply matrix_ok_set_bin;
        [exact Hok | apply normalizeMagnitude_bounds | exact Hbin].
    + rewrite f32_set_length. exact Hlen.
Qed.

Lemma standard_frame_ok samples coeffs fftSize windowSize numBins hopSize
  normFactor gainOffset range n frame st :
  spectrogram_ok numBins n (std_spectrogram st) ->
  spectrogram_ok numBins n
    (std_spectrogram
       (standard_frame samples coeffs fftSize windowSize numBins hopSize
          normFactor gainOffset range frame st)).
Proof.
  intros Hst. unfold standard_frame.
  destruct (zero_pad _ _ _) as [paddedBuffer fftInput].
  destruct (runFFT _ _ _) as [fftOutput fftContext]. simpl.
  apply standard_normalize_ok. exact Hst.
Qed.

Lemma contribution_inv numBins numFrames hopSize normFactor gainOffset range
  factor X_h X_Dh X_Th frame bin idx value :
  contribution numBins numFrames hopSize normFactor gainOffset range factor
    X_h X_Dh X_Th frame bin = Some (idx, value) ->
  exists rframe rbin,
    idx = rframe * numBins + rbin /\ 3 <= rbin < numBins /\
    0 <= rframe < numFrames /\ (0 <= value <= 1)%Q /\
    exists mag, value = normalizeMagnitude normFactor gainOffset range mag.
Proof.
  unfold contribution.
  destruct (Qltb _ _); [discriminate|].
  destruct (_ && _ && _ && _)%bool eqn:Hb; [|discriminate].
  intros [= <- <-].
  apply andb_true_iff in Hb as [Hb H4]. apply andb_true_iff in Hb as [Hb H3].
  apply andb_true_iff in Hb as [H1 H2].
  apply Z.leb_le in H1, H3. apply Z.ltb_lt in H2, H4.
  eexists _, _. split; [reflexivity|].
  repeat split; try assumption; try apply normalizeMagnitude_bounds.
  eexists. reflexivity.
Qed.

Lemma accumulate_max_length m idx value :
  length (accumulate_max m idx value) = length m.
Proof.
  unfold accumulate_max. destruct (Qltb _ _); [apply f32_set_length | reflexivity].
Qed.

Lemma reassign_bin_ok numBins numFrames hopSize normFactor gainOffset range
  factor X_h X_Dh X_Th frame bin n m :
  spectrogram_ok numBins n m ->
  spectrogram_ok numBins n
    (reassign_bin numBins numFrames hopSize normFactor gainOffset range factor
       X_h X_Dh X_Th frame bin m).
Proof.
  intros [Hok Hlen]. unfold reassign_bin.
  destruct (contribution _ _ _ _ _ _ _ _ _ _ _ _) as [[idx value]|] eqn:Hc;
    [|split; assumption].
  apply contribution_inv in Hc
    as (rframe & rbin & -> & Hbin & _ & Hv & _).
  split; [|rewrite accumulate_max_length; exact Hlen].
  unfold accumulate_max. destruct (Qltb _ _); [|exact Hok].
  apply matrix_ok_set_bin; assumption.
Qed.

Lemma reassigned_frame_ok samples cH cDh cTh fftSize windowSize numBins
  numFrames hopSize normFactor gainOffset range factor n frame st :
  spectrogram_ok numBins n (snd st) ->
  spectrogram_ok numBins n
    (snd (reassigned_frame samples cH cDh cTh fftSize windowSize numBins
            numFrames hopSize normFactor gainOffset range factor frame st)).
Proof.
  intros Hst. unfold reassigned_frame.
  destruct (frame_transforms _ _ _ _ _ _ _ _ _) as [[[X_h X_Dh] X_Th] buffers].
  simpl. apply for_range_ind; [exact Hst|].
  intros bin m _ Hm. apply reassign_bin_ok. exact Hm.
Qed.

Lemma typed_set_same_length dst src :
  length src = length dst -> typed_set dst src = src.
Proof.
  intros H. unfold typed_set.
  rewrite <- H, firstn_all, drop_ge, app_nil_r by lia. reflexivity.
Qed.

Lemma generateStandardSpectrogram_ok samples sampleRate fftContext hopSize
  windowType zeroPadding gain range m n :
  generateStandardSpectrogram samples sampleRate fftContext hopSize windowType
    zeroPadding gain range = Ok (m, n) ->
  spectrogram_ok (ctx_size fftContext / 2 + 1)
    (Z.to_nat (n * (ctx_size fftContext / 2 + 1))) m.
Proof.
  unfold generateStandardSpectrogram.
  destruct (_ <=? 0); [discriminate|]. intros [= <- <-].
  apply (for_range_ind
           (fun st => spectrogram_ok _ _ (std_spectrogram st))).
  - simpl. split; [apply matrix_ok_new | apply f32_new_length].
  - intros frame st _ Hst. apply standard_frame_ok. exact Hst.
Qed.

Lemma generateReassignedSpectrogram_ok samples sampleRate fftContext hopSize
  windowType zeroPadding gain range m n :
  generateReassignedSpectrogram samples sampleRate fftContext hopSize
    windowType zeroPadding gain range = Ok (m, n) ->
  spectrogram_ok (ctx_size fftContext / 2 + 1)
    (Z.to_nat (n * (ctx_size fftContext / 2 + 1))) m.
Proof.
  unfold generateReassignedSpectrogram.
  destruct (_ <=? 0); [discriminate|]. intros [= <- <-].
  match goal with
  | |- spectrogram_ok ?b ?k (typed_set _ (snd ?st)) =>
      assert (Hst : spectrogram_ok b k (snd st))
  end.
  { apply (for_range_ind (fun st => spectrogram_ok _ _ (snd st))).
    - simpl. split; [apply matrix_ok_new | apply f32_new_length].
    - intros frame st _ Hst. apply reassigned_frame_ok. exact Hst. }
  rewrite typed_set_same_length; [exact Hst|].
  destruct Hst as [_ ->]. rewrite f32_new_length. reflexivity.
Qed.

(** Whenever a generation call succeeds, with either algorithm, on a window
    that has not exactly one sample, every entry of the returned matrix lies
    in [0,1], and in every frame the entries at bins 0, 1 and 2 are exactly
    0.  A window of one sample ([zeroPadding = fftSize]) is left out: there
    the code's window coefficient is NaN, which the standard algorithm
    stores (both tests of the clamp are false on NaN), and which the
    rational numbers of the embedding do not represent. *)
Theorem matrix_in_unit_interval_dc_zero
  (options : SpectrogramOptions) (d : SpectrogramData) :
  valid_options options = true ->
  ctx_size (opt_fftContext options) / default 1 (opt_zeroPadding options) <> 1 ->
  generateSpectrogram options = Ok d ->
  0 < numFrames d /\
  Forall (fun v => 0 <= v <= 1)%Q (data d) /\
  forall frame bin,
    0 <= frame < numFrames d -> 0 <= bin < 3 -> bin < numBins d ->
    data d !! Z.to_nat (frame * numBins d + bin) = Some 0%Q.
Proof.
  intros _ _ Hgen.
  assert (Hok : spectrogram_ok (numBins d)
                  (Z.to_nat (numFrames d * numBins d)) (data d)
                /\ 0 < numFrames d).
  { destruct (generateSpectrogram_cases options)
      as [[_ Hthrow] | [Hpos (d' & Hgen' & HnF & _)]];
      [rewrite Hthrow in Hgen; discriminate|].
    rewrite Hgen in Hgen'. injection Hgen' as <-. split; [|lia].
    clear Hpos HnF. revert Hgen. unfold generateSpectrogram.
    destruct (default alg_standard (opt_algorithm options));
      match goal with
      | |- context [match ?g with Ok _ => _ | Throw _ => _ end] =>
          destruct g as [[m n]|] eqn:Hg; [|discriminate]
      end; intros [= <-]; simpl.
    - apply generateStandardSpectrogram_ok in Hg. exact Hg.
    - apply generateReassignedSpectrogram_ok in Hg. exact Hg. }
  destruct Hok as [[Hok Hlen] Hpos].
  split; [exact Hpos|]. split.
  - apply Forall_lookup. intros k v Hk. apply (Hok k v Hk).
  - intros frame bin Hframe Hbin HnB.
    assert (Hlt : (Z.to_nat (frame * numBins d + bin) < length (data d))%nat).
    { rewrite Hlen. nia. }
    apply lookup_lt_is_Some in Hlt as [v Hv].
    rewrite Hv. f_equal.
    apply (Hok _ _ Hv).
    rewrite Z2Nat.id by nia.
    rewrite Z.add_comm, Z.mod_add, Z.mod_small by lia. lia.
Qed.

End WithMath.

(** The invariant on two runs of 12 samples with a window of 8 samples, one
    per algorithm. *)
Lemma matrix_in_unit_interval_dc_zero_witness :
  (exists d,
     generateSpectrogram (M := stub_math) (stub_options 12 (Some 2) None None)
     = Ok d /\
     Forall (fun v => 0 <= v <= 1)%Q (data d) /\
     data d !! Z.to_nat (1 * numBins d + 2) = Some 0%Q) /\
  (exists d,
     generateSpectrogram (M := stub_math)
       (stub_options 12 (Some 2) None (Some alg_reassignment))
     = Ok d /\
     Forall (fun v => 0 <= v <= 1)%Q (data d) /\
     data d !! Z.to_nat (1 * numBins d + 2) = Some 0%Q).
Proof.
  split.
  - destruct (generateSpectrogram (M := stub_math)
                (stub_options 12 (Some 2) None None)) as [d|] eqn:Hd;
      [|vm_compute in Hd; discriminate].
    destruct (matrix_in_unit_interval_dc_zero (M := stub_math)
                (stub_options 12 (Some 2) None None) d eq_refl
                ltac:(vm_compute; discriminate) Hd)
      as (_ & Hall & Hdc).
    exists d. split; [reflexivity|]. split; [exact Hall|].
    apply Hdc; [|lia|];
      vm_compute in Hd; injection Hd as <-; vm_compute; split; congruence.
  - destruct (generateSpectrogram (M := stub_math)
                (stub_options 12 (Some 2) None (Some alg_reassignment)))
      as [d|] eqn:Hd; [|vm_compute in Hd; discriminate].
    destruct (matrix_in_unit_interval_dc_zero (M := stub_math)
                (stub_options 12 (Some 2) None (Some alg_reassignment)) d
                eq_refl ltac:(vm_compute; discriminate) Hd)
      as (_ & Hall & Hdc).
    exists d. split; [reflexivity|]. split; [exact Hall|].
    apply Hdc; [|lia|];
      vm_compute in Hd; injection Hd as <-; vm_compute; split; congruence.
Defined.

End Matrix.

(** ** Reassignment: coordinates and max accumulation *)

Module Reassignment.

Import Spectrogram JSFacts Frames Matrix.
Local Open Scope Z_scope.

(** All contributions of a list, in order. *)
Definition accumulate_all (cs : list (Z * Q)) (energyAccum : list Q) : list Q :=
  fold_left (fun acc c => accumulate_max acc (fst c) (snd c)) cs energyAccum.

(** No cell decreases from [m] to [m']. *)
Definition cells_le (m m' : list Q) : Prop :=
  length m = length m' /\
  forall k v, m !! k = Some v -> exists v', m' !! k = Some v' /\ (v <= v')%Q.


(** Below [-0.5] the fast round is one above rounding to nearest unless
    [x + 0.5] is an integer: truncation goes toward zero. *)
Lemma fast_round_negative x :
  (x + 0.5 < 0)%Q -> (inject_Z (- 2 ^ 31) < x + 0.5)%Q ->
  (~ inject_Z (Qfloor (x + 0.5)) == x + 0.5)%Q ->
  fast_round x = Math_round x + 1.
Proof.
  intros Hneg Hlo Hfrac. unfold fast_round, Math_round, ToInt32.
  set (y := (x + 0.5)%Q) in *.
  assert (Ht : Qtrunc y = Qfloor y + 1).
  { unfold Qtrunc, Qfloor. destruct y as [a d]. simpl.
    assert (Ha : a < 0) by (unfold Qlt in Hneg; simpl in Hneg; lia).
    assert (Hr : a mod Z.pos d <> 0).
    { intros Hr. apply Hfrac. unfold Qfloor, Qeq, inject_Z. simpl.
      pose proof (Z.div_mod a (Z.pos d)). lia. }
    assert (Hr' : (- a) mod Z.pos d <> 0).
    { intros Hr'. apply Hr. rewrite <- (Z.opp_involutive a).
      apply Z.mod_opp_l_z; [lia | exact Hr']. }
    rewrite <- (Z.opp_involutive a) at 1 2.
    rewrite Z.quot_opp_l by lia.
    rewrite Z.quot_div_nonneg by lia.
    rewrite (Z.div_opp_l_nz (- a)) by (lia || exact Hr'). lia. }
  rewrite Ht. apply ToInt32_small.
  pose proof (Qfloor_le y) as Hle. pose proof (Qlt_floor y) as Hlt.
  assert (Qfloor y < 0).
  { rewrite Zlt_Qlt. apply Qle_lt_trans with y; [exact Hle | exact Hneg]. }
  assert (- 2 ^ 31 < Qfloor y + 1); [|lia].
  rewrite Zlt_Qlt. apply Qlt_trans with y; [exact Hlo | exact Hlt].
Qed.


Lemma fast_round_negative_witness : fast_round (-1.2) = Math_round (-1.2) + 1.
Proof.
  apply (fast_round_negative (-1.2)).
  - unfold Qlt. simpl. lia.
  - unfold Qlt. simpl. lia.
  - unfold Qeq. simpl. lia.
Defined.

(** C4, evaluated where the fast round is not round-half-up.  In frame 0
    with hop size 1, a bin with [X_h = 1] and [X_Th = -1.2] has time
    correction [-1.2]: rounding [0 + (-1.2)] to nearest, ties up, gives
    frame [-1], outside the matrix; [(0 - 1.2 + 0.5) | 0] gives frame 0,
    and the bin is accumulated into cell (frame 0, bin 3). *)
Theorem C4_fast_round_truncates_toward_zero (M : MathLib) :
  let X_h := [0; 0; 0; 0; 0; 0; 1; 0]%Q in
  let X_Dh := [0; 0; 0; 0; 0; 0; 0; 0]%Q in
  let X_Th := [0; 0; 0; 0; 0; 0; - (6 # 5); 0]%Q in
  let factor := (inject_Z 8 / (2 * Math_PI))%Q in
  (inject_Z 0 + timeCorrection 1 X_h X_Th 3 == - (6 # 5))%Q /\
  Math_round (inject_Z 0 + timeCorrection 1 X_h X_Th 3) = -1 /\
  reassignedFrame 1 X_h X_Th 0 3 = 0 /\
  reassignedBin factor X_h X_Dh 3 = 3 /\
  contribution 5 3 1 2 (-80) 80 factor X_h X_Dh X_Th 0 3
  = Some (0 * 5 + 3,
          normalizeMagnitude 2 (-80) 80 (Math_sqrt (mag_h_sq X_h 3))).
Proof.
  intros X_h X_Dh X_Th factor.
  split; [reflexivity|]. split; [reflexivity|]. split; [reflexivity|].
  split; reflexivity.
Qed.


Lemma for_range_rel {S T : Type} (R : S -> T -> Prop) (lo hi : Z)
  (f : Z -> S -> S) (g : Z -> T -> T) (s : S) (t : T) :
  R s t ->
  (forall i s t, lo <= i < hi -> R s t -> R (f i s) (g i t)) ->
  R (for_range lo hi f s) (for_range lo hi g t).
Proof.
  intros Hst Hstep. unfold for_range.
  assert (Hall : forall k, In k (seq 0 (Z.to_nat (hi - lo))) ->
                           lo <= lo + Z.of_nat k < hi).
  { intros k Hk. apply in_seq in Hk. lia. }
  revert s t Hst Hall. generalize (seq 0 (Z.to_nat (hi - lo))) as ks.
  induction ks as [|k ks IH]; intros s t Hst Hall; simpl; [exact Hst|].
  apply IH.
  - apply Hstep; [apply Hall; left; reflexivity | exact Hst].
  - intros k' Hk'. apply Hall. right. exact Hk'.
Qed.

(** One accumulation step, cell by cell: the cell [idx] becomes the larger
    of its value and the contribution, every other cell is kept. *)
Lemma accumulate_max_lookup m idx value (k : nat) v :
  m !! k = Some v ->
  accumulate_max m idx value !! k
  = Some (if decide (idx = Z.of_nat k) then Math_max v value else v).
Proof.
  intros Hk. unfold accumulate_max, Math_max.
  destruct (decide (idx = Z.of_nat k)) as [->|Hne].
  - rewrite (f32_get_lookup m k v Hk).
    destruct (Qltb v value); [|exact Hk].
    unfold f32_set.
    destruct (Z.of_nat k <? 0) eqn:Hneg; [apply Z.ltb_lt in Hneg; lia|].
    rewrite Nat2Z.id. apply list_lookup_insert_eq.
    apply lookup_lt_Some in Hk. exact Hk.
  - destruct (Qltb _ value); [|exact Hk].
    destruct (f32_set_lookup m idx value k) as [-> | [Hidx _]];
      [exact Hk | contradiction].
Qed.

Lemma Math_max_ge_l a b : (a <= Math_max a b)%Q.
Proof.
  unfold Math_max. destruct (Qltb a b) eqn:H; [|apply Qle_refl].
  apply Qltb_lt in H. apply Qlt_le_weak. exact H.
Qed.

Lemma Math_max_ge_r a b : (b <= Math_max a b)%Q.
Proof.
  unfold Math_max. destruct (Qltb a b) eqn:H; [apply Qle_refl|].
  apply Qltb_ge in H. exact H.
Qed.

Lemma Math_max_cases a b : Math_max a b = a \/ Math_max a b = b.
Proof. unfold Math_max. destruct (Qltb a b); [right | left]; reflexivity. Qed.

(** Adding a contribution never decreases a cell. *)
Lemma accumulate_max_cells_le m idx value :
  cells_le m (accumulate_max m idx value).
Proof.
  split; [symmetry; apply accumulate_max_length|].
  intros k v Hk. rewrite (accumulate_max_lookup m idx value k v Hk).
  eexists. split; [reflexivity|].
  destruct (decide _); [apply Math_max_ge_l | apply Qle_refl].
Qed.

(** What a sequence of contributions leaves in a cell: a value that is at
    least the initial one and every contribution to the cell, and that is
    the initial value or one of these contributions. *)
Lemma accumulate_all_cell cs : forall acc (k : nat) v,
  accumulate_all cs acc !! k = Some v ->
  exists a, acc !! k = Some a /\ (a <= v)%Q /\
    (forall c, In (Z.of_nat k, c) cs -> (c <= v)%Q) /\
    (v = a \/ In (Z.of_nat k, v) cs).
Proof.
  induction cs as [|[idx value] cs IH]; intros acc k v Hk; simpl in Hk.
  - exists v. repeat split; [exact Hk | apply Qle_refl | intros c [] | left; reflexivity].
  - apply IH in Hk as (a' & Ha' & Hle & Hub & Hfrom).
    assert (Hlen : (k < length acc)%nat).
    { apply lookup_lt_Some in Ha'. rewrite accumulate_max_length in Ha'.
      exact Ha'. }
    apply lookup_lt_is_Some in Hlen as [a Ha].
    rewrite (accumulate_max_lookup acc idx value k a Ha) in Ha'.
    injection Ha' as Ha'. exists a. split; [exact Ha|].
    destruct (decide (idx = Z.of_nat k)) as [->|Hne].
    + split; [apply Qle_trans with a'; [subst a'; apply Math_max_ge_l | exact Hle]|].
      split.
      * intros c [[= <-] | Hc]; [|apply Hub; exact Hc].
        apply Qle_trans with a'; [subst a'; apply Math_max_ge_r | exact Hle].
      * destruct Hfrom as [-> | Hin]; [|right; right; exact Hin].
        destruct (Math_max_cases a value) as [Hm | Hm]; rewrite Hm in Ha'.
        -- left. symmetry. exact Ha'.
        -- right. left. rewrite Ha'. reflexivity.
    + subst a'. split; [exact Hle|]. split.
      * intros c [[= Hidx _] | Hc]; [contradiction | apply Hub; exact Hc].
      * destruct Hfrom as [-> | Hin]; [left; reflexivity | right; right; exact Hin].
Qed.

Section WithMath.
Context {M : MathLib}.

(** The contributions of one frame, in bin order. *)
Definition frame_contributions (numBins numFrames hopSize : Z)
  (normFactor gainOffset range freqCorrectionFactor : Q)
  (X_h X_Dh X_Th : list Q) (frame : Z) : list (Z * Q) :=
  omap
    (fun k =>
       contribution numBins numFrames hopSize normFactor gainOffset range
         freqCorrectionFactor X_h X_Dh X_Th frame (3 + Z.of_nat k))
    (seq 0 (Z.to_nat (numBins - 3))).

(** The frame loop with the contributions recorded instead of accumulated. *)
Definition traced_frame
  (samples windowCoeffsH windowCoeffsDh windowCoeffsTh : list Q)
  (fftSize windowSize numBins numFrames hopSize : Z)
  (normFactor gainOffset range freqCorrectionFactor : Q)
  (frame : Z) (st : ReassignedBuffers * list (Z * Q))
  : ReassignedBuffers * list (Z * Q) :=
  let '(X_h, X_Dh, X_Th, buffers) :=
    frame_transforms samples windowCoeffsH windowCoeffsDh windowCoeffsTh
      fftSize windowSize hopSize frame (fst st) in
  (buffers,
   snd st ++ frame_contributions numBins numFrames hopSize normFactor
               gainOffset range freqCorrectionFactor X_h X_Dh X_Th frame).

(** All contributions of a run of [generateReassignedSpectrogram], as
    pairs of the cell index and the dB-normalised value, in the order the
    code produces them. *)
Definition reassigned_contributions
  (samples : list Q) (fftContext : FFTContext) (hopSize : Z)
  (windowType : WindowType) (zeroPadding : Z) (gain range : Q)
  : list (Z * Q) :=
  let fftSize := ctx_size fftContext in
  let windowSize := fftSize / zeroPadding in
  let numBins := fftSize / 2 + 1 in
  let numFrames := frame_count (Z.of_nat (length samples)) windowSize hopSize in
  let windowCoeffsH := getWindowCoefficients windowType windowSize standard in
  let windowCoeffsDh := getWindowCoefficients windowType windowSize derivative in
  let windowCoeffsTh := getWindowCoefficients windowType windowSize timeRamped in
  let coherentGain := WINDOW_COHERENT_GAIN windowType in
  let normFactor := (inject_Z fftSize * coherentGain / 2)%Q in
  let gainOffset := (gain - range)%Q in
  let freqCorrectionFactor := (inject_Z fftSize / (2 * Math_PI))%Q in
  snd (for_range 0 numFrames
         (traced_frame samples windowCoeffsH windowCoeffsDh windowCoeffsTh
            fftSize windowSize numBins numFrames hopSize
            normFactor gainOffset range freqCorrectionFactor)
         (reassigned_buffers fftContext fftSize windowSize zeroPadding, [])).

Lemma bin_loop_accumulates numBins numFrames hopSize normFactor gainOffset
  range factor X_h X_Dh X_Th frame acc :
  for_range 3 numBins
    (reassign_bin numBins numFrames hopSize normFactor gainOffset range factor
       X_h X_Dh X_Th frame) acc
  = accumulate_all
      (frame_contributions numBins numFrames hopSize normFactor gainOffset
         range factor X_h X_Dh X_Th frame) acc.
Proof.
  unfold for_range, frame_contributions, accumulate_all.
  generalize (seq 0 (Z.to_nat (numBins - 3))) as ks. intros ks. revert acc.
  induction ks as [|k ks IH]; intros acc; simpl; [reflexivity|].
  rewrite IH. unfold reassign_bin.
  destruct (contribution _ _ _ _ _ _ _ _ _ _ _ _) as [[idx value]|];
    reflexivity.
Qed.

Lemma frame_contributions_bounds numBins numFrames hopSize normFactor
  gainOffset range factor X_h X_Dh X_Th frame :
  Forall (fun c => 0 <= snd c <= 1)%Q
    (frame_contributions numBins numFrames hopSize normFactor gainOffset
       range factor X_h X_Dh X_Th frame).
Proof.
  apply Forall_forall. intros [idx value] Hin.
  unfold frame_contributions in Hin.
  apply list_elem_of_omap in Hin as (k & _ & Hc).
  apply contribution_inv in Hc as (_ & _ & _ & _ & _ & Hv & _). exact Hv.
Qed.

(** The matrix of a run is what accumulating its contributions into the
    zero matrix gives. *)
Lemma generateReassignedSpectrogram_accumulates samples sampleRate fftContext
  hopSize windowType zeroPadding gain range m n :
  generateReassignedSpectrogram samples sampleRate fftContext hopSize
    windowType zeroPadding gain range = Ok (m, n) ->
  m = accumulate_all
        (reassigned_contributions samples fftContext hopSize windowType
           zeroPadding gain range)
        (f32_new (n * (ctx_size fftContext / 2 + 1))) /\
  Forall (fun c => 0 <= snd c <= 1)%Q
    (reassigned_contributions samples fftContext hopSize windowType
       zeroPadding gain range).
Proof.
  intros Hgen.
  pose proof (generateReassignedSpectrogram_ok _ _ _ _ _ _ _ _ _ _ Hgen)
    as [_ Hlen].
  revert Hgen Hlen.
  unfold generateReassignedSpectrogram, reassigned_contributions.
  destruct (_ <=? 0); [discriminate|]. intros [= <- <-] Hlen.
  rewrite typed_set_length, f32_new_length in Hlen.
  match goal with
  | |- context [for_range 0 ?n (reassigned_frame ?s ?a ?b ?c ?d ?e ?f ?g ?h ?i ?j ?k ?l)
                  (?b0, ?acc0)] =>
      pose proof (for_range_rel
        (fun st tr => fst st = fst tr /\
                      snd st = accumulate_all (snd tr) acc0 /\
                      Forall (fun p => 0 <= snd p <= 1)%Q (snd tr))
        0 n (reassigned_frame s a b c d e f g h i j k l)
        (traced_frame s a b c d e f g h i j k l)
        (b0, acc0) (b0, [])) as Hrel
  end.
  destruct Hrel as (_ & Hacc & Hall).
  - simpl. repeat split. constructor.
  - intros frame [bufs acc] [bufs' tr] _ (Hb & Hacc & Hall).
    simpl in Hb, Hacc, Hall. subst bufs'.
    unfold reassigned_frame, traced_frame. simpl.
    destruct (frame_transforms _ _ _ _ _ _ _ _ _) as [[[X_h X_Dh] X_Th] buffers].
    simpl. split; [reflexivity|]. split.
    + rewrite bin_loop_accumulates, Hacc. unfold accumulate_all.
      rewrite fold_left_app. reflexivity.
    + apply Forall_app. split; [exact Hall | apply frame_contributions_bounds].
  - split; [|exact Hall].
    rewrite typed_set_same_length; [exact Hacc|].
    rewrite Hacc. clear.
    unfold accumulate_all.
    match goal with |- length (fold_left _ ?cs ?a) = _ =>
      generalize cs as l; generalize a as acc end.
    intros acc l. revert acc.
    induction l as [|c l IH]; intros acc; simpl; [reflexivity|].
    rewrite IH. apply accumulate_max_length.
Qed.

(** C5. In the reassignment algorithm every cell of the output matrix
    holds the maximum of the contributions reassigned to it, 0 if there is
    none: the cell is at least every contribution mapped to it, it is 0 or
    one of these contributions (so it never exceeds the largest single
    one, nothing is added up), and accumulating one more contribution
    never decreases a cell and puts the larger of the two in its cell. *)
Theorem C5_max_accumulation
  (samples : list Q) (sampleRate : Q) (fftContext : FFTContext) (hopSize : Z)
  (windowType : WindowType) (zeroPadding : Z) (gain range : Q)
  (m : list Q) (n : Z) :
  generateReassignedSpectrogram samples sampleRate fftContext hopSize
    windowType zeroPadding gain range = Ok (m, n) ->
  let cs := reassigned_contributions samples fftContext hopSize windowType
              zeroPadding gain range in
  m = accumulate_all cs (f32_new (n * (ctx_size fftContext / 2 + 1))) /\
  (forall (k : nat) v, m !! k = Some v ->
     (forall c, In (Z.of_nat k, c) cs -> (0 <= c <= v)%Q) /\
     (v = 0%Q \/ In (Z.of_nat k, v) cs)) /\
  (forall idx value,
     cells_le m (accumulate_max m idx value) /\
     forall (k : nat) v, m !! k = Some v -> idx = Z.of_nat k ->
       accumulate_max m idx value !! k = Some (Math_max v value)).
Proof.
  intros Hgen cs.
  destruct (generateReassignedSpectrogram_accumulates _ _ _ _ _ _ _ _ _ _ Hgen)
    as [Hm Hall].
  fold cs in Hm, Hall.
  split; [exact Hm|]. split.
  - intros k v Hk. rewrite Hm in Hk.
    apply accumulate_all_cell in Hk as (a & Ha & _ & Hub & Hfrom).
    apply lookup_replicate in Ha as [-> _].
    split; [|exact Hfrom].
    intros c Hc. split; [|apply Hub; exact Hc].
    rewrite Forall_forall in Hall.
    apply (Hall (Z.of_nat k, c)), list_elem_of_In. exact Hc.
  - intros idx value. split; [apply accumulate_max_cells_le|].
    intros k v Hk ->. rewrite (accumulate_max_lookup m _ value k v Hk).
    destruct (decide _); [reflexivity | contradiction].
Qed.

End WithMath.


(** C5 on a run: 12 samples, size 8, hop 2, reassignment. *)
Lemma C5_max_accumulation_witness :
  exists m n,
    generateReassignedSpectrogram (M := stub_math) (ramp 12) 8 stub_fft 2 hann
      1 0 80 = Ok (m, n) /\
    m = accumulate_all
          (reassigned_contributions (M := stub_math) (ramp 12) stub_fft 2 hann
             1 0 80)
          (f32_new (n * (ctx_size stub_fft / 2 + 1))) /\
    forall (k : nat) v, m !! k = Some v ->
      v = 0%Q \/
      In (Z.of_nat k, v)
        (reassigned_contributions (M := stub_math) (ramp 12) stub_fft 2 hann
           1 0 80).
Proof.
  destruct (generateReassignedSpectrogram (M := stub_math) (ramp 12) 8
              stub_fft 2 hann 1 0 80) as [[m n]|] eqn:Hgen;
    [|vm_compute in Hgen; discriminate].
  exists m, n. split; [reflexivity|].
  destruct (C5_max_accumulation (M := stub_math) (ramp 12) 8 stub_fft 2 hann
              1 0 80 m n Hgen) as (Hm & Hcell & _).
  split; [exact Hm|].
  intros k v Hk. apply (Hcell k v Hk).
Defined.


End Reassignment.

(** ** Frequency scales (src/frequency-mapping.ts) *)

Module FrequencyMapping.

(** The arithmetic the conversions use, so that one definition can be read
    over the doubles (rationals, with the platform's [Math] functions) and
    over the real numbers. *)
Class JSNumber (T : Type) : Type := {
  num : Q -> T;
  add : T -> T -> T;
  sub : T -> T -> T;
  mul : T -> T -> T;
  div : T -> T -> T;
  ltb : T -> T -> bool;
  log10 : T -> T;
  pow : T -> T -> T;
  atan : T -> T
}.

Declare Scope js_scope.
Delimit Scope js_scope with js.
Infix "+" := add : js_scope.
Infix "-" := sub : js_scope.
Infix "*" := mul : js_scope.
Infix "/" := div : js_scope.
Local Open Scope js_scope.

Inductive FrequencyScale : Type :=
| scale_linear | scale_log | scale_mel | scale_bark | scale_erb.

Section Conversions.
Context {T : Type} {N : JSNumber T}.

Definition max_num (a b : T) : T := if ltb a b then b else a.
Definition min_num (a b : T) : T := if ltb b a then b else a.
Definition abs_num (a : T) : T := if ltb a (num 0) then num 0 - a else a.

(** Convert Hz to Mel scale *)
Definition hzToMel (hz : T) : T :=
  num 2595 * log10 (num 1 + hz / num 700).

(** Convert Mel scale to Hz *)
Definition melToHz (mel : T) : T :=
  num 700 * (pow (num 10) (mel / num 2595) - num 1).

(** Convert Hz to Bark scale *)
Definition hzToBark (hz : T) : T :=
  num 13 * atan (num 0.00076 * hz)
  + num 3.5 * atan (pow (hz / num 7500) (num 2)).

(** The analytic derivative of [hzToBark] that the Newton step divides by. *)
Definition barkDerivative (hz : T) : T :=
  (num 13 * num 0.00076) / (num 1 + pow (num 0.00076 * hz) (num 2))
  + (num 3.5 * num 2 * (hz / num 7500))
    / (num 7500 * (num 1 + pow (hz / num 7500) (num 4))).

(** The Newton-Raphson loop of [barkToHz]: at most [i] more iterations,
    stopping as soon as the error is below 0.001. *)
Fixpoint barkNewton (i : nat) (bark hz : T) : T :=
  match i with
  | O => hz
  | S i' =>
      let currentBark := hzToBark hz in
      let error := bark - currentBark in
      if ltb (abs_num error) (num 0.001) then hz
      else barkNewton i' bark (hz + error / barkDerivative hz)
  end.

(** Convert Bark scale to Hz *)
Definition barkToHz (bark : T) : T :=
  max_num (num 1) (barkNewton 10 bark (bark * num 100)).

(** Convert Hz to ERB scale *)
Definition hzToErb (hz : T) : T :=
  num 21.4 * log10 (num 1 + num 0.00437 * hz).

(** Convert ERB scale to Hz *)
Definition erbToHz (erb : T) : T :=
  (pow (num 10) (erb / num 21.4) - num 1) / num 0.00437.

(** The frequency of display bin [i] of [displayBins] on a scale. *)
Definition mappedHz (scale : FrequencyScale) (displayBins : Z)
  (effectiveMinFreq effectiveMaxFreq : T) (i : Z) : T :=
  let t := num (inject_Z i) / (num (inject_Z displayBins) - num 1) in
  match scale with
  | scale_linear =>
      effectiveMinFreq + t * (effectiveMaxFreq - effectiveMinFreq)
  | scale_log =>
      let logMin := log10 effectiveMinFreq in
      let logMax := log10 effectiveMaxFreq in
      let logHz := logMin + t * (logMax - logMin) in
      pow (num 10) logHz
  | scale_mel =>
      let minMel := hzToMel effectiveMinFreq in
      let maxMel := hzToMel effectiveMaxFreq in
      melToHz (minMel + t * (maxMel - minMel))
  | scale_bark =>
      let minBark := hzToBark effectiveMinFreq in
      let maxBark := hzToBark effectiveMaxFreq in
      barkToHz (minBark + t * (maxBark - minBark))
  | scale_erb =>
      let minErb := hzToErb effectiveMinFreq in
      let maxErb := hzToErb effectiveMaxFreq in
      erbToHz (minErb + t * (maxErb - minErb))
  end.

Definition effectiveMinFreq (minFreq : option T) : T :=
  max_num (default (num 20) minFreq) (num 1).

Definition effectiveMaxFreq (sampleRate : T) (maxFreq : option T) : T :=
  let nyquist := sampleRate / num 2 in
  min_num (default nyquist maxFreq) nyquist.

(** Create frequency bin mapping for different scales: entry [i] is the
    fractional source bin of display bin [i]. *)
Definition createFrequencyMapping (numBins : Z) (sampleRate : T)
  (scale : FrequencyScale) (displayBins : Z) (minFreq maxFreq : option T)
  : list T :=
  let nyquist := sampleRate / num 2 in
  let effectiveMinFreq := effectiveMinFreq minFreq in
  let effectiveMaxFreq := effectiveMaxFreq sampleRate maxFreq in
  map
    (fun k =>
       let hz :=
         mappedHz scale displayBins effectiveMinFreq effectiveMaxFreq
           (Z.of_nat k) in
       (hz / nyquist) * (num (inject_Z numBins) - num 1))
    (seq 0 (Z.to_nat displayBins)).

End Conversions.

(** The doubles: rationals with the platform's functions. *)
Definition double_number {M : MathLib} : JSNumber Q :=
  {| num := fun q => q;
     add := Qplus; sub := Qminus; mul := Qmult; div := Qdiv;
     ltb := Qltb;
     log10 := Math_log10; pow := Math_pow; atan := Math_atan |}.

(** The real numbers.  [Math.pow] is [exp (y * ln x)] on a positive base;
    on the other bases the code only raises to the powers 2 and 4. *)
Definition Rpow (x y : R) : R :=
  if Rlt_dec 0 x then Rpower x y
  else if Req_dec_T y 2 then (x * x)%R
  else if Req_dec_T y 4 then (x * x * (x * x))%R
  else 0%R.

Definition real_number : JSNumber R :=
  {| num := Q2R;
     add := Rplus; sub := Rminus; mul := Rmult; div := Rdiv;
     ltb := fun a b => if Rlt_dec a b then true else false;
     log10 := fun x => (ln x / ln 10)%R;
     pow := Rpow;
     atan := Ratan.atan |}.

End FrequencyMapping.

(** ** Frequency scales over the real numbers *)

Module FrequencyFacts.

Import FrequencyMapping.
Local Open Scope R_scope.
#[local] Existing Instance real_number.

(** Literals and integers as real numbers. *)
Lemma Q2R_inject_Z (z : Z) : Q2R (inject_Z z) = IZR z.
Proof. unfold Q2R. simpl. rewrite Rinv_1. apply Rmult_1_r. Qed.

Ltac real_literals :=
  unfold Q2R; simpl Qnum; simpl Qden; rewrite ?Rinv_1, ?Rmult_1_r.

Lemma max_num_real (a b : R) : max_num (N := real_number) a b = Rmax a b.
Proof.
  unfold max_num, Rmax. simpl.
  destruct (Rlt_dec a b), (Rle_dec a b); try reflexivity; lra.
Qed.

Lemma min_num_real (a b : R) : min_num (N := real_number) a b = Rmin a b.
Proof.
  unfold min_num, Rmin. simpl.
  destruct (Rlt_dec b a), (Rle_dec a b); try reflexivity; lra.
Qed.

Lemma Rpow_pos (x y : R) : 0 < x -> Rpow x y = Rpower x y.
Proof. intros H. unfold Rpow. destruct (Rlt_dec 0 x); [reflexivity | lra]. Qed.

Lemma ln_10_pos : 0 < ln 10.
Proof. rewrite <- ln_1. apply ln_increasing; lra. Qed.

Lemma ln_le (x y : R) : 0 < x -> x <= y -> ln x <= ln y.
Proof.
  intros Hx [Hlt | ->]; [left; apply ln_increasing; assumption | right; reflexivity].
Qed.

(** [10 ^ log10 x = x] *)
Lemma pow10_log10 (x : R) : 0 < x -> Rpow 10 (ln x / ln 10) = x.
Proof.
  intros Hx. rewrite Rpow_pos by lra. unfold Rpower.
  replace (ln x / ln 10 * ln 10) with (ln x)
    by (field; apply Rgt_not_eq, ln_10_pos).
  apply exp_ln. exact Hx.
Qed.

Lemma pow10_mono (x y : R) : x <= y -> Rpow 10 x <= Rpow 10 y.
Proof. intros H. rewrite !Rpow_pos by lra. apply Rle_Rpower; lra. Qed.

Lemma log10_mono (x y : R) : 0 < x -> x <= y -> ln x / ln 10 <= ln y / ln 10.
Proof.
  intros Hx Hxy. apply Rmult_le_compat_r.
  - left. apply Rinv_0_lt_compat, ln_10_pos.
  - apply ln_le; assumption.
Qed.

(** *** Round trips of the closed-form scales *)

Lemma melToHz_hzToMel (x : R) :
  -700 < x -> melToHz (N := real_number) (hzToMel x) = x.
Proof.
  intros Hx. unfold melToHz, hzToMel. simpl. real_literals.
  replace (2595 * (ln (1 + x / 700) / ln 10) / 2595)
    with (ln (1 + x / 700) / ln 10) by (field; apply Rgt_not_eq, ln_10_pos).
  rewrite pow10_log10 by lra. field.
Qed.

Lemma erbToHz_hzToErb (x : R) :
  0 <= x -> erbToHz (N := real_number) (hzToErb x) = x.
Proof.
  intros Hx. unfold erbToHz, hzToErb. simpl. real_literals.
  replace (214 * / 10 * (ln (1 + 437 * / 100000 * x) / ln 10) / (214 * / 10))
    with (ln (1 + 437 * / 100000 * x) / ln 10)
    by (field; apply Rgt_not_eq, ln_10_pos).
  rewrite pow10_log10 by lra. field.
Qed.

(** *** Monotonicity of the mapping *)

Lemma affine_mono (a b t1 t2 : R) :
  a <= b -> t1 <= t2 -> a + t1 * (b - a) <= a + t2 * (b - a).
Proof. intros. nra. Qed.

Lemma hzToMel_mono (x y : R) : 0 < x -> x <= y -> hzToMel x <= hzToMel y.
Proof.
  intros Hx Hxy. unfold hzToMel. simpl. real_literals.
  apply Rmult_le_compat_l; [lra|]. apply log10_mono; lra.
Qed.

Lemma melToHz_mono (x y : R) : x <= y -> melToHz x <= melToHz y.
Proof.
  intros Hxy. unfold melToHz. simpl. real_literals.
  apply Rmult_le_compat_l; [lra|]. apply Rplus_le_compat_r.
  apply pow10_mono. lra.
Qed.

Lemma hzToErb_mono (x y : R) : 0 < x -> x <= y -> hzToErb x <= hzToErb y.
Proof.
  intros Hx Hxy. unfold hzToErb. simpl. real_literals.
  apply Rmult_le_compat_l; [lra|]. apply log10_mono; lra.
Qed.

Lemma erbToHz_mono (x y : R) : x <= y -> erbToHz x <= erbToHz y.
Proof.
  intros Hxy. unfold erbToHz. simpl. real_literals.
  apply Rmult_le_compat_r; [lra|]. apply Rplus_le_compat_r.
  apply pow10_mono. lra.
Qed.

(** The position [i / (displayBins - 1)] grows with [i]. *)
Lemma position_mono (displayBins i j : Z) :
  (2 <= displayBins)%Z -> (i <= j)%Z ->
  IZR i / (IZR displayBins - 1) <= IZR j / (IZR displayBins - 1).
Proof.
  intros HD Hij.
  apply Rmult_le_compat_r.
  - left. apply Rinv_0_lt_compat. apply IZR_le in HD. lra.
  - apply IZR_le. exact Hij.
Qed.

Lemma mappedHz_mono (scale : FrequencyScale) (displayBins : Z)
  (lo hi : R) (i j : Z) :
  scale <> scale_bark -> (2 <= displayBins)%Z -> 0 < lo -> lo <= hi ->
  (i <= j)%Z ->
  mappedHz scale displayBins lo hi i <= mappedHz scale displayBins lo hi j.
Proof.
  intros Hscale HD Hlo Hhi Hij.
  pose proof (position_mono displayBins i j HD Hij) as Ht.
  unfold mappedHz. destruct scale; try contradiction;
    cbn [real_number add sub mul div num log10 pow];
    rewrite !Q2R_inject_Z; replace (Q2R 1) with 1 by (real_literals; reflexivity).
  - apply affine_mono; assumption.
  - replace (Q2R 10) with 10 by (real_literals; reflexivity).
    apply pow10_mono, affine_mono; [apply log10_mono|]; assumption.
  - apply melToHz_mono, affine_mono; [apply hzToMel_mono|]; assumption.
  - apply erbToHz_mono, affine_mono; [apply hzToErb_mono|]; assumption.
Qed.

Lemma effectiveMinFreq_ge_1 (minFreq : option R) : 1 <= effectiveMinFreq minFreq.
Proof.
  unfold effectiveMinFreq. rewrite max_num_real. simpl.
  replace (Q2R 1) with 1 by (real_literals; reflexivity). apply Rmax_r.
Qed.

(** The limits the mapping interpolates between are the clamped ones,
    [max (minFreq, 1)] and [min (maxFreq, nyquist)].  When these are in
    order (and the sample rate is positive, with at least one source bin and
    two display bins), the mapping of the linear, log, mel and erb scales
    has [displayBins] entries and is nondecreasing.  The Bark scale is not
    covered: the order of the values its Newton inverse returns, with its
    early exit, is neither proved nor refuted here. *)
Theorem closed_form_mapping_nondecreasing
  (numBins : Z) (sampleRate : R) (scale : FrequencyScale) (displayBins : Z)
  (minFreq maxFreq : option R) :
  scale <> scale_bark ->
  (2 <= displayBins)%Z -> (1 <= numBins)%Z -> 0 < sampleRate ->
  effectiveMinFreq minFreq <= effectiveMaxFreq sampleRate maxFreq ->
  let mapping :=
    createFrequencyMapping numBins sampleRate scale displayBins minFreq maxFreq in
  length mapping = Z.to_nat displayBins /\
  forall (i j : nat) (x y : R),
    (i <= j)%nat -> mapping !! i = Some x -> mapping !! j = Some y -> x <= y.
Proof.
  intros Hscale HD HB Hrate Hrange mapping. subst mapping.
  unfold createFrequencyMapping. split.
  - rewrite length_map, length_seq. reflexivity.
  - intros i j x y Hij Hi Hj.
    rewrite list_lookup_fmap in Hi, Hj.
    destruct (seq 0 (Z.to_nat displayBins) !! i) as [i'|] eqn:Hsi; [|discriminate].
    destruct (seq 0 (Z.to_nat displayBins) !! j) as [j'|] eqn:Hsj; [|discriminate].
    apply lookup_seq in Hsi as [-> _]. apply lookup_seq in Hsj as [-> _].
    simpl in Hi, Hj. injection Hi as <-. injection Hj as <-.
    rewrite Q2R_inject_Z. real_literals.
    apply Rmult_le_compat_r; [apply IZR_le in HB; lra|].
    apply Rmult_le_compat_r; [left; apply Rinv_0_lt_compat; lra|].
    apply mappedHz_mono; try assumption; [|lia].
    pose proof (effectiveMinFreq_ge_1 minFreq). lra.
Qed.


(** The log scale on the default limits of a 44.1 kHz spectrogram: 20 Hz to
    the Nyquist frequency, five source bins, three display bins. *)
Lemma closed_form_mapping_nondecreasing_witness :
  let mapping :=
    createFrequencyMapping 5 44100 scale_log 3 None None in
  length mapping = Z.to_nat 3 /\
  forall (i j : nat) (x y : R),
    (i <= j)%nat -> mapping !! i = Some x -> mapping !! j = Some y -> x <= y.
Proof.
  apply (closed_form_mapping_nondecreasing 5 44100 scale_log 3 None None).
  - discriminate.
  - lia.
  - lia.
  - lra.
  - unfold effectiveMinFreq, effectiveMaxFreq.
    rewrite max_num_real, min_num_real. simpl. real_literals.
    unfold Rmax, Rmin.
    destruct (Rle_dec 20 1), (Rle_dec (44100 / 2) (44100 / 2)); lra.
Defined.

(** [minFreq <= maxFreq] alone does not keep the mapping nondecreasing,
    because the clamping can reverse the limits: with
    [minFreq = 30000 <= maxFreq = 40000] at 44.1 kHz the mapping runs from
    30000 Hz down to the Nyquist frequency 22050 Hz. *)
Lemma clamped_limits_reversed :
  let mapping :=
    createFrequencyMapping 5 44100 scale_linear 2 (Some 30000) (Some 40000) in
  30000 <= 40000 /\
  exists x y, mapping !! 0%nat = Some x /\ mapping !! 1%nat = Some y /\ y < x.
Proof.
  split; [lra|].
  eexists _, _. split; [reflexivity|]. split; [reflexivity|].
  unfold mappedHz, effectiveMinFreq, effectiveMaxFreq.
  rewrite max_num_real, min_num_real. simpl. real_literals.
  unfold Rmax, Rmin.
  change (Z.of_nat 1) with 1%Z. change (Z.of_nat 0) with 0%Z.
  destruct (Rle_dec 30000 1), (Rle_dec 40000 (44100 / 2)); lra.
Qed.


End FrequencyFacts.

(** ** The Bark scale and its Newton inverse over the real numbers

    [hzToBark] has no closed-form inverse; [barkToHz] runs at most ten
    Newton steps from the guess [100 * bark] and stops early once the
    residual is below 0.001.  On [49, 15000] the Bark curve is increasing
    and concave, so the iteration climbs towards the root from the left.
    The distance to the root is bounded step by step over a grid of
    frequency intervals, with rational arithmetic that is evaluated. *)

Module BarkFacts.

Import FrequencyMapping FrequencyFacts.
Local Open Scope R_scope.
#[local] Existing Instance real_number.

(** [hzToBark] and the derivative expression of [barkToHz], with the
    powers written as products. *)
Definition bark (x : R) : R :=
  13 * Ratan.atan (76 / 100000 * x) + 7 / 2 * Ratan.atan (x / 7500 * (x / 7500)).

Definition dbark (x : R) : R :=
  13 * (76 / 100000) / (1 + 76 / 100000 * x * (76 / 100000 * x))
  + 7 / 2 * 2 * (x / 7500) / (7500 * (1 + x / 7500 * (x / 7500) * (x / 7500 * (x / 7500)))).

Lemma Rpow_2 (x : R) : Rpow x (Q2R 2) = x * x.
Proof.
  replace (Q2R 2) with 2 by (real_literals; reflexivity).
  unfold Rpow. destruct (Rlt_dec 0 x) as [Hx|Hx].
  - replace 2 with (INR 2) by (simpl; lra). rewrite Rpower_pow by exact Hx. simpl. ring.
  - destruct (Req_dec_T 2 2); [reflexivity | lra].
Qed.

Lemma Rpow_4 (x : R) : Rpow x (Q2R 4) = x * x * (x * x).
Proof.
  replace (Q2R 4) with 4 by (real_literals; reflexivity).
  unfold Rpow. destruct (Rlt_dec 0 x) as [Hx|Hx].
  - replace 4 with (INR 4) by (simpl; lra). rewrite Rpower_pow by exact Hx. simpl. ring.
  - destruct (Req_dec_T 4 2); [lra|]. destruct (Req_dec_T 4 4); [reflexivity | lra].
Qed.

Lemma hzToBark_bark (x : R) : hzToBark x = bark x.
Proof.
  unfold hzToBark, bark. cbn [real_number add sub mul div num log10 pow FrequencyMapping.atan].
  rewrite Rpow_2. real_literals. unfold Rdiv.
  replace (35 * / 10) with (7 * / 2) by lra. reflexivity.
Qed.

Lemma barkDerivative_dbark (x : R) : barkDerivative x = dbark x.
Proof.
  unfold barkDerivative, dbark. cbn [real_number add sub mul div num log10 pow FrequencyMapping.atan].
  rewrite Rpow_2, Rpow_4. real_literals. unfold Rdiv.
  replace (35 * / 10) with (7 * / 2) by lra. reflexivity.
Qed.

(** The derivative expression is the derivative of the Bark curve. *)
Lemma dbark_pos (x : R) : 0 <= x -> 0 < dbark x.
Proof.
  intros Hx. unfold dbark.
  apply Rplus_lt_le_0_compat.
  - apply Rdiv_lt_0_compat; [lra|]. nra.
  - apply Rmult_le_pos; [|left; apply Rinv_0_lt_compat].
    + apply Rmult_le_pos; [lra|]. apply Rmult_le_pos; [lra|]. left. apply Rinv_0_lt_compat. lra.
    + assert (0 <= x / 7500 * (x / 7500) * (x / 7500 * (x / 7500))) by nra. lra.
Qed.

Lemma dlim_ext (f g : R -> R) (x l l' : R) :
  (forall t, f t = g t) -> l = l' ->
  derivable_pt_lim f x l -> derivable_pt_lim g x l'.
Proof.
  intros Hfg <- H eps Heps. destruct (H eps Heps) as [delta Hd].
  exists delta. intros h Hh0 Hh. rewrite <- !Hfg. apply Hd; assumption.
Qed.

Lemma derivable_pt_lim_bark (x : R) : derivable_pt_lim bark x (dbark x).
Proof.
  unfold bark, dbark.
  assert (H1 : derivable_pt_lim (fun x => 76 / 100000 * x) x (76 / 100000)).
  { apply (dlim_ext (mult_real_fct (76 / 100000) id) _ x (76 / 100000 * 1));
      [reflexivity | lra |].
    apply derivable_pt_lim_scal, derivable_pt_lim_id. }
  assert (Hl : derivable_pt_lim (fun x => x / 7500) x (/ 7500)).
  { apply (dlim_ext (mult_real_fct (/ 7500) id) _ x (/ 7500 * 1));
      [intros t; unfold mult_real_fct, id; lra | lra |].
    apply derivable_pt_lim_scal, derivable_pt_lim_id. }
  assert (H2 : derivable_pt_lim (fun x => x / 7500 * (x / 7500)) x
                 (2 * (x / 7500) / 7500)).
  { apply (dlim_ext (mult_fct (fun x => x / 7500) (fun x => x / 7500)) _ x
             (/ 7500 * (x / 7500) + x / 7500 * / 7500));
      [reflexivity | lra |].
    exact (derivable_pt_lim_mult (fun x => x / 7500) (fun x => x / 7500) x
             (/ 7500) (/ 7500) Hl Hl). }
  pose proof (derivable_pt_lim_comp _ atan x _ _ H1 (derivable_pt_lim_atan _)) as H3.
  pose proof (derivable_pt_lim_comp _ atan x _ _ H2 (derivable_pt_lim_atan _)) as H4.
  pose proof (derivable_pt_lim_scal _ 13 x _ H3) as H5.
  pose proof (derivable_pt_lim_scal _ (7 / 2) x _ H4) as H6.
  pose proof (derivable_pt_lim_plus _ _ x _ _ H5 H6) as H7.
  eapply dlim_ext; [| |exact H7].
  - intros t. reflexivity.
  - unfold Rsqr. field. split; nra.
Qed.

(** The derivative is the sum of a decreasing part [barkP] and a part
    [barkS] whose growth is bounded; together they decrease from 49 Hz on. *)
Definition barkP (x : R) : R := 13 * (76 / 100000) / (1 + 76 / 100000 * x * (76 / 100000 * x)).
Definition barkS (x : R) : R :=
  7 * (x / 7500) / (7500 * (1 + x / 7500 * (x / 7500) * (x / 7500 * (x / 7500)))).

Lemma dbark_split (x : R) : dbark x = barkP x + barkS x.
Proof. unfold dbark, barkP, barkS. f_equal. f_equal. lra. Qed.

Lemma decreasing_chain (f : R -> R) (a b c : R) :
  (forall h h', a <= h <= h' -> h' <= b -> f h' <= f h) ->
  (forall h h', b <= h <= h' -> h' <= c -> f h' <= f h) ->
  forall h h', a <= h <= h' -> h' <= c -> f h' <= f h.
Proof.
  intros Hab Hbc h h' Hh Hh'.
  destruct (Rle_dec h' b) as [H1|H1]; [apply Hab; lra|].
  destruct (Rle_dec b h) as [H2|H2]; [apply Hbc; lra|].
  apply Rle_trans with (f b); [apply Hbc; lra | apply Hab; lra].
Qed.

Lemma barkP_diff (h h' : R) :
  barkP h - barkP h'
  = 13 * (76 / 100000) * (76 / 100000) * (76 / 100000) * (h' - h) * (h' + h)
    / ((1 + 76 / 100000 * h * (76 / 100000 * h)) * (1 + 76 / 100000 * h' * (76 / 100000 * h'))).
Proof. unfold barkP. field. split; nra. Qed.

Lemma barkS_step (h h' : R) :
  0 <= h <= h' -> barkS h' - barkS h <= 7 / (7500 * 7500) * (h' - h).
Proof.
  intros Hh. unfold barkS.
  set (w := h / 7500 * (h / 7500) * (h / 7500 * (h / 7500))).
  set (w' := h' / 7500 * (h' / 7500) * (h' / 7500 * (h' / 7500))).
  assert (Hw : 0 <= w) by (subst w; nra).
  assert (Hww : w <= w').
  { subst w w'. assert (0 <= h / 7500 <= h' / 7500) by lra.
    assert (h / 7500 * (h / 7500) <= h' / 7500 * (h' / 7500)) by nra. nra. }
  assert (Hq : w / (1 + w) <= w' / (1 + w')).
  { apply (Rmult_le_reg_r ((1 + w) * (1 + w'))); [nra|].
    replace (w / (1 + w) * ((1 + w) * (1 + w'))) with (w * (1 + w')) by (field; lra).
    replace (w' / (1 + w') * ((1 + w) * (1 + w'))) with (w' * (1 + w)) by (field; lra).
    nra. }
  assert (Hq0 : 0 <= w / (1 + w)) by (apply Rmult_le_pos; [lra | left; apply Rinv_0_lt_compat; lra]).
  assert (Hm : h * (w / (1 + w)) <= h' * (w' / (1 + w'))) by (apply Rmult_le_compat; lra).
  replace (7 * (h' / 7500) / (7500 * (1 + w')) - 7 * (h / 7500) / (7500 * (1 + w)))
    with (7 / (7500 * 7500) * (h' - h) - 7 / (7500 * 7500) * (h' * (w' / (1 + w')) - h * (w / (1 + w))))
    by (field; lra).
  lra.
Qed.

Lemma barkP_step (A B h h' : R) :
  0 <= A -> A <= h <= h' -> h' <= B ->
  13 * (76 / 100000) * (76 / 100000) * (76 / 100000) * (2 * A)
  / ((1 + 76 / 100000 * B * (76 / 100000 * B)) * (1 + 76 / 100000 * B * (76 / 100000 * B)))
  * (h' - h) <= barkP h - barkP h'.
Proof.
  intros HA Hh HB. rewrite barkP_diff.
  set (a := 76 / 100000).
  assert (Ha : 0 < a) by (subst a; lra).
  set (dB := 1 + a * B * (a * B)).
  set (d := 1 + a * h * (a * h)). set (d' := 1 + a * h' * (a * h')).
  assert (0 <= a * h <= a * h') by (split; [apply Rmult_le_pos | apply Rmult_le_compat_l]; lra).
  assert (a * h' <= a * B) by (apply Rmult_le_compat_l; lra).
  assert (0 < d <= dB) by (subst d dB; split; nra).
  assert (0 < d' <= dB) by (subst d' dB; split; nra).
  assert (Hinv : / (dB * dB) <= / (d * d')).
  { apply Rinv_le_contravar; nra. }
  assert (0 < / (dB * dB)) by (apply Rinv_0_lt_compat; nra).
  unfold Rdiv.
  replace (13 * a * a * a * (2 * A) * / (dB * dB) * (h' - h))
    with (13 * a * a * a * ((h' - h) * (2 * A)) * / (dB * dB)) by ring.
  replace (13 * a * a * a * (h' - h) * (h' + h) * / (d * d'))
    with (13 * a * a * a * ((h' - h) * (h' + h)) * / (d * d')) by ring.
  assert (0 <= (h' - h) * (2 * A)) by (apply Rmult_le_pos; lra).
  assert ((h' - h) * (2 * A) <= (h' - h) * (h' + h)) by (apply Rmult_le_compat_l; lra).
  assert (0 <= 13 * a * a * a) by nra.
  apply Rmult_le_compat; [ apply Rmult_le_pos; assumption | lra
                         | apply Rmult_le_compat_l; assumption | assumption ].
Qed.

Lemma dbark_decreasing_piece (A B : R) :
  0 <= A ->
  7 / (7500 * 7500)
  <= 13 * (76 / 100000) * (76 / 100000) * (76 / 100000) * (2 * A)
     / ((1 + 76 / 100000 * B * (76 / 100000 * B)) * (1 + 76 / 100000 * B * (76 / 100000 * B))) ->
  forall h h', A <= h <= h' -> h' <= B -> dbark h' <= dbark h.
Proof.
  intros HA Hnum h h' Hh HB. rewrite !dbark_split.
  pose proof (barkS_step h h' ltac:(lra)) as HS.
  pose proof (barkP_step A B h h' HA Hh HB) as HP.
  assert ((7 / (7500 * 7500)) * (h' - h) <=
          13 * (76 / 100000) * (76 / 100000) * (76 / 100000) * (2 * A)
     / ((1 + 76 / 100000 * B * (76 / 100000 * B)) * (1 + 76 / 100000 * B * (76 / 100000 * B))) * (h' - h)).
  { apply Rmult_le_compat_r; lra. }
  lra.
Qed.

Lemma barkS_decreasing_high (h h' : R) : 5700 <= h <= h' -> barkS h' <= barkS h.
Proof.
  intros Hh. unfold barkS.
  apply (Rmult_le_reg_r (7500 * (1 + h / 7500 * (h / 7500) * (h / 7500 * (h / 7500))) *
                         (7500 * (1 + h' / 7500 * (h' / 7500) * (h' / 7500 * (h' / 7500)))))).
  { apply Rmult_lt_0_compat; nra. }
  match goal with |- ?l * ?m <= ?r * ?m =>
    replace (l * m) with (7 * (h' / 7500) * (7500 * (1 + h / 7500 * (h / 7500) * (h / 7500 * (h / 7500))))) by (field; nra);
    replace (r * m) with (7 * (h / 7500) * (7500 * (1 + h' / 7500 * (h' / 7500) * (h' / 7500 * (h' / 7500))))) by (field; nra)
  end.
  set (u := h / 7500). set (u' := h' / 7500).
  assert (Hu : 76 / 100 <= u <= u') by (subst u u'; lra).
  assert (H3 : 1 <= 3 * (u * u * (u * u))).
  { assert (57 / 100 <= u * u) by nra. nra. }
  assert (Hprod : u' - u <= u * u' * (u' * u' * u' - u * u * u)).
  { assert (0 <= u' - u) by lra.
    assert (u' * u' * u' - u * u * u = (u' - u) * (u' * u' + u' * u + u * u)) by ring.
    assert (u * u <= u' * u) by nra. assert (u * u <= u' * u') by nra.
    assert (1 <= u * u' * (u' * u' + u' * u + u * u)).
    { assert (u * u * (3 * (u * u)) <= u * u' * (u' * u' + u' * u + u * u)).
      { apply Rmult_le_compat; nra. }
      nra. }
    rewrite H0. nra. }
  nra.
Qed.

Lemma barkP_decreasing (h h' : R) : 0 <= h <= h' -> barkP h' <= barkP h.
Proof.
  intros Hh. pose proof (barkP_diff h h') as Hd.
  assert (0 <= barkP h - barkP h'); [|lra].
  rewrite Hd. apply Rmult_le_pos.
  - apply Rmult_le_pos; nra.
  - left. apply Rinv_0_lt_compat. nra.
Qed.

Lemma dbark_decreasing (h h' : R) :
  49 <= h <= h' -> h' <= 15000 -> dbark h' <= dbark h.
Proof.
  revert h h'.
  apply (decreasing_chain dbark 49 100 15000); [apply dbark_decreasing_piece; lra|].
  apply (decreasing_chain dbark 100 1000 15000); [apply dbark_decreasing_piece; lra|].
  apply (decreasing_chain dbark 1000 3000 15000); [apply dbark_decreasing_piece; lra|].
  apply (decreasing_chain dbark 3000 5000 15000); [apply dbark_decreasing_piece; lra|].
  apply (decreasing_chain dbark 5000 5700 15000); [apply dbark_decreasing_piece; lra|].
  intros h h' Hh _. rewrite !dbark_split.
  pose proof (barkS_decreasing_high h h' Hh). pose proof (barkP_decreasing h h' ltac:(lra)). lra.
Qed.

(** Mean-value bounds for the Bark curve. *)
Lemma bark_0 : bark 0 = 0.
Proof.
  unfold bark. replace (76 / 100000 * 0) with 0 by lra.
  replace (0 / 7500 * (0 / 7500)) with 0 by lra. rewrite atan_0. lra.
Qed.

Lemma bark_mvt (h x : R) :
  h < x -> exists c, h < c < x /\ bark x - bark h = dbark c * (x - h).
Proof.
  intros Hlt.
  destruct (MVT_cor2 bark dbark h x Hlt) as [c [Hc Hin]].
  - intros t _. apply derivable_pt_lim_bark.
  - exists c. split; assumption.
Qed.

Lemma bark_increasing (h x : R) : 0 <= h <= x -> bark h <= bark x.
Proof.
  intros [H0 [Hlt | ->]]; [|lra].
  destruct (bark_mvt h x Hlt) as [c [Hc Heq]].
  pose proof (dbark_pos c ltac:(lra)). nra.
Qed.

Lemma bark_diff_lower (h x : R) :
  49 <= h <= x -> x <= 15000 -> dbark x * (x - h) <= bark x - bark h.
Proof.
  intros [H0 [Hlt | ->]] Hx; [|lra].
  destruct (bark_mvt h x Hlt) as [c [Hc ->]].
  apply Rmult_le_compat_r; [lra|]. apply dbark_decreasing; lra.
Qed.

Lemma bark_diff_upper (h x : R) :
  49 <= h <= x -> x <= 15000 -> bark x - bark h <= dbark h * (x - h).
Proof.
  intros [H0 [Hlt | ->]] Hx; [|lra].
  destruct (bark_mvt h x Hlt) as [c [Hc ->]].
  apply Rmult_le_compat_r; [lra|]. apply dbark_decreasing; lra.
Qed.

Lemma barkS_nonneg (x : R) : 0 <= x -> 0 <= barkS x.
Proof.
  intros Hx. unfold barkS. apply Rmult_le_pos; [nra|].
  left. apply Rinv_0_lt_compat.
  assert (0 <= x / 7500 * (x / 7500) * (x / 7500 * (x / 7500))) by nra. lra.
Qed.

Lemma barkS_le_line (x : R) : 0 <= x -> barkS x <= 7 / (7500 * 7500) * x.
Proof.
  intros Hx. pose proof (barkS_step 0 x ltac:(lra)) as H.
  replace (barkS 0) with 0 in H by (unfold barkS; field). lra.
Qed.

Lemma barkP_le (x : R) : barkP x <= 13 * (76 / 100000).
Proof.
  unfold barkP. apply (Rmult_le_reg_r (1 + 76 / 100000 * x * (76 / 100000 * x))); [nra|].
  replace (13 * (76 / 100000) / (1 + 76 / 100000 * x * (76 / 100000 * x)) *
           (1 + 76 / 100000 * x * (76 / 100000 * x))) with (13 * (76 / 100000)) by (field; nra).
  nra.
Qed.

Lemma barkS_le (x : R) : 0 <= x -> barkS x <= 7 / 7500.
Proof.
  intros Hx. unfold barkS.
  set (u := x / 7500). assert (Hu : 0 <= u) by (subst u; lra).
  set (w := u * u * (u * u)). assert (Hw : 0 <= w) by (subst w; nra).
  assert (Huw : u <= 1 + w).
  { subst w. destruct (Rle_dec u 1); [nra|]. assert (1 <= u * u) by nra. nra. }
  apply (Rmult_le_reg_r (7500 * (1 + w))); [lra|].
  replace (7 * u / (7500 * (1 + w)) * (7500 * (1 + w))) with (7 * u) by (field; lra).
  replace (7 / 7500 * (7500 * (1 + w))) with (7 * (1 + w)) by field.
  lra.
Qed.

Lemma dbark_le_cent (x : R) : 0 <= x -> dbark x <= 1 / 100.
Proof.
  intros Hx. rewrite dbark_split.
  destruct (Rle_dec x 900) as [Hs|Hs].
  - pose proof (barkP_le x). pose proof (barkS_le_line x Hx).
    assert (7 / (7500 * 7500) * x <= 7 / (7500 * 7500) * 900) by (apply Rmult_le_compat_l; lra).
    lra.
  - pose proof (barkP_decreasing 900 x ltac:(lra)) as HP.
    pose proof (barkS_le x Hx).
    assert (barkP 900 <= 7 / 1000); [|lra].
    unfold barkP. apply (Rmult_le_reg_r (1 + 76 / 100000 * 900 * (76 / 100000 * 900))); [lra|].
    replace (13 * (76 / 100000) / (1 + 76 / 100000 * 900 * (76 / 100000 * 900)) *
             (1 + 76 / 100000 * 900 * (76 / 100000 * 900))) with (13 * (76 / 100000)) by (field; lra).
    lra.
Qed.

Lemma bark_le_line (x : R) : 0 <= x -> bark x <= x / 100.
Proof.
  intros [Hlt | <-]; [|rewrite bark_0; lra].
  destruct (bark_mvt 0 x Hlt) as [c [Hc Heq]]. rewrite bark_0 in Heq.
  pose proof (dbark_le_cent c ltac:(lra)). nra.
Qed.

Lemma bark_lower_P (B x : R) : 0 <= x <= B -> barkP B * x <= bark x.
Proof.
  intros [[Hlt | <-] HB]; [|rewrite bark_0; lra].
  destruct (bark_mvt 0 x Hlt) as [c [Hc Heq]]. rewrite bark_0 in Heq.
  assert (barkP B <= dbark c).
  { rewrite dbark_split. pose proof (barkP_decreasing c B ltac:(lra)).
    pose proof (barkS_nonneg c ltac:(lra)). lra. }
  nra.
Qed.

(** One Newton step towards [x] from the left. *)
Definition newton (x h : R) : R := h + (bark x - bark h) / dbark h.

Lemma newton_bounds (x h : R) :
  49 <= h <= x -> x <= 15000 ->
  h <= newton x h <= x /\ x - newton x h <= (x - h) * (1 - dbark x / dbark h).
Proof.
  intros Hh Hx. unfold newton.
  pose proof (dbark_pos h ltac:(lra)) as Hg.
  pose proof (bark_diff_lower h x Hh Hx) as Hlo.
  pose proof (bark_diff_upper h x Hh Hx) as Hup.
  pose proof (bark_increasing h x ltac:(lra)) as Hinc.
  assert (Hq0 : 0 <= (bark x - bark h) / dbark h).
  { apply Rmult_le_pos; [lra | left; apply Rinv_0_lt_compat; exact Hg]. }
  assert (Hq1 : (bark x - bark h) / dbark h <= x - h).
  { apply (Rmult_le_reg_r (dbark h)); [exact Hg|].
    replace ((bark x - bark h) / dbark h * dbark h) with (bark x - bark h) by (field; lra). lra. }
  assert (Hq2 : dbark x / dbark h * (x - h) <= (bark x - bark h) / dbark h).
  { apply (Rmult_le_reg_r (dbark h)); [exact Hg|].
    replace ((bark x - bark h) / dbark h * dbark h) with (bark x - bark h) by (field; lra).
    replace (dbark x / dbark h * (x - h) * dbark h) with (dbark x * (x - h)) by (field; lra). lra. }
  split; [lra|]. lra.
Qed.

Lemma abs_num_real (a : R) : abs_num (N := real_number) a = Rabs a.
Proof.
  unfold abs_num, Rabs. simpl. replace (Q2R 0) with 0 by (real_literals; lra).
  destruct (Rlt_dec a 0), (Rcase_abs a); try reflexivity; lra.
Qed.

Lemma barkNewton_S (n : nat) (b h : R) :
  barkNewton (S n) b h
  = if Rlt_dec (Rabs (b - bark h)) (1 / 1000) then h
    else barkNewton n b (h + (b - bark h) / dbark h).
Proof.
  cbn [barkNewton]. rewrite abs_num_real, hzToBark_bark, barkDerivative_dbark.
  cbn [real_number add sub mul div num ltb].
  replace (Q2R 0.001) with (1 / 1000) by (real_literals; lra).
  destruct (Rlt_dec (Rabs (b - bark h)) (1 / 1000)); reflexivity.
Qed.

(** The loop of [barkToHz] started left of the root stays left of it. *)
Lemma newton_loop_between (x : R) (n : nat) :
  x <= 15000 -> forall h, 49 <= h <= x ->
  h <= barkNewton n (bark x) h <= x.
Proof.
  intros Hx. induction n as [|n IH]; intros h Hh; [simpl; lra|].
  rewrite barkNewton_S.
  destruct (Rlt_dec (Rabs (bark x - bark h)) (1 / 1000)); [lra|].
  destruct (newton_bounds x h Hh Hx) as [Hb _]. unfold newton in Hb.
  pose proof (IH (h + (bark x - bark h) / dbark h) ltac:(lra)). lra.
Qed.

Lemma barkP_times (x : R) : 102 <= x <= 15000 -> 1 <= x * barkP x.
Proof.
  intros Hx. unfold barkP.
  set (t := 76 / 100000 * x).
  assert (Ht : 7752 / 100000 <= t <= 114 / 10) by (subst t; lra).
  replace (x * (13 * (76 / 100000) / (1 + t * t))) with (13 * t / (1 + t * t))
    by (subst t; field; nra).
  apply (Rmult_le_reg_r (1 + t * t)); [nra|].
  replace (13 * t / (1 + t * t) * (1 + t * t)) with (13 * t) by (field; nra).
  nra.
Qed.

Lemma break_close (x h : R) :
  102 <= x <= 15000 -> 49 <= h <= x ->
  Rabs (bark x - bark h) < 1 / 1000 -> x - h <= x / 1000.
Proof.
  intros Hx Hh Hb.
  pose proof (bark_diff_lower h x Hh ltac:(lra)) as Hlo.
  pose proof (barkP_times x Hx) as HP.
  pose proof (barkS_nonneg x ltac:(lra)) as HS.
  rewrite dbark_split in Hlo.
  assert (Hb' : bark x - bark h < 1 / 1000).
  { eapply Rle_lt_trans; [apply Rle_abs | exact Hb]. }
  assert (0 <= barkP x).
  { unfold barkP. apply Rmult_le_pos; [lra | left; apply Rinv_0_lt_compat; nra]. }
  assert (barkP x * (x - h) <= 1 / 1000) by nra.
  assert ((x - h) * 1 <= (x - h) * (x * barkP x)) by (apply Rmult_le_compat_l; lra).
  nra.
Qed.

Lemma step_bound (xl xu D x h : R) :
  xl <= x <= xu -> xu <= 15000 -> 49 <= xl - D ->
  49 <= h <= x -> x - h <= D ->
  x - newton x h <= D * (1 - dbark xu / dbark (xl - D)).
Proof.
  intros Hx Hxu HD Hh HhD.
  destruct (newton_bounds x h Hh ltac:(lra)) as [_ Hstep].
  pose proof (dbark_pos h ltac:(lra)) as Hgh.
  pose proof (dbark_pos xu ltac:(lra)) as Hgu.
  pose proof (dbark_pos (xl - D) ltac:(lra)) as Hgl.
  pose proof (dbark_decreasing x xu ltac:(lra) Hxu) as H1.
  pose proof (dbark_decreasing (xl - D) h ltac:(lra) ltac:(lra)) as H2.
  pose proof (dbark_decreasing h x Hh ltac:(lra)) as H3.
  assert (Hr : dbark xu / dbark (xl - D) <= dbark x / dbark h).
  { apply (Rmult_le_reg_r (dbark (xl - D) * dbark h)); [apply Rmult_lt_0_compat; lra|].
    replace (dbark xu / dbark (xl - D) * (dbark (xl - D) * dbark h)) with (dbark xu * dbark h)
      by (field; lra).
    replace (dbark x / dbark h * (dbark (xl - D) * dbark h)) with (dbark x * dbark (xl - D))
      by (field; lra).
    apply Rmult_le_compat; lra. }
  assert (Hr1 : dbark x / dbark h <= 1).
  { apply (Rmult_le_reg_r (dbark h)); [lra|].
    replace (dbark x / dbark h * dbark h) with (dbark x) by (field; lra). lra. }
  eapply Rle_trans; [exact Hstep|].
  apply Rmult_le_compat; lra.
Qed.

(** Rational arithmetic: rounding to multiples of 1/4096, the derivative on
    rationals, and the bound on the distance to the root after each step. *)
Definition upQ (q : Q) : Q := Qceiling (q * 4096) # 4096.
Definition dnQ (q : Q) : Q := Qfloor (q * 4096) # 4096.

Definition gQ (x : Q) : Q :=
  (13 * (76 # 100000) / (1 + (76 # 100000) * x * ((76 # 100000) * x))
   + 7 * (x / 7500) / (7500 * (1 + x / 7500 * (x / 7500) * (x / 7500 * (x / 7500)))))%Q.

Lemma upQ_ge (q : Q) : Q2R q <= Q2R (upQ q).
Proof.
  apply Qle_Rle. unfold upQ. rewrite Qmake_Qdiv.
  apply Qle_shift_div_l; [reflexivity|]. apply Qle_ceiling.
Qed.

Lemma dnQ_le (q : Q) : Q2R (dnQ q) <= Q2R q.
Proof.
  apply Qle_Rle. unfold dnQ. rewrite Qmake_Qdiv.
  apply Qle_shift_div_r; [reflexivity|]. apply Qfloor_le.
Qed.

Lemma Q2R_nonzero (q : Q) : Q2R q <> 0 -> ~ (q == 0)%Q.
Proof. intros H Hq. apply H. rewrite (Qeq_eqR _ _ Hq). apply RMicromega.Q2R_0. Qed.

Lemma Q2R_gQ (q : Q) : Q2R (gQ q) = dbark (Q2R q).
Proof.
  unfold gQ, dbark.
  assert (Hlit : Q2R (76 # 100000) = 76 / 100000) by (real_literals; lra).
  assert (H7500 : Q2R 7500 = 7500) by (real_literals; lra).
  assert (Hu : Q2R (q / 7500) = Q2R q / 7500).
  { rewrite Q2R_div by (intros H; discriminate H). rewrite H7500. reflexivity. }
  assert (Hd1 : Q2R (1 + (76 # 100000) * q * ((76 # 100000) * q))
                = 1 + 76 / 100000 * Q2R q * (76 / 100000 * Q2R q)).
  { rewrite Q2R_plus, !Q2R_mult, Hlit. real_literals. lra. }
  assert (Hd2 : Q2R (7500 * (1 + q / 7500 * (q / 7500) * (q / 7500 * (q / 7500))))
                = 7500 * (1 + Q2R q / 7500 * (Q2R q / 7500) * (Q2R q / 7500 * (Q2R q / 7500)))).
  { rewrite Q2R_mult, Q2R_plus, !Q2R_mult, Hu, H7500. real_literals. lra. }
  rewrite Q2R_plus, Q2R_div, Q2R_div.
  - rewrite Hd1, Hd2, !Q2R_mult, Hu, Hlit. real_literals. lra.
  - apply Q2R_nonzero. rewrite Hd2.
    assert (0 <= Q2R q / 7500 * (Q2R q / 7500) * (Q2R q / 7500 * (Q2R q / 7500))) by nra. lra.
  - apply Q2R_nonzero. rewrite Hd1. nra.
Qed.

Definition Dstep (xl xu D : Q) : Q := upQ (D * (1 - gQ xu / gQ (xl - D))).

Fixpoint newton_cert (n : nat) (xl xu D : Q) : bool :=
  Qle_bool D (xl / 1000)
  || match n with
     | O => false
     | S n' => Qle_bool 49 (xl - D) && newton_cert n' xl xu (Dstep xl xu D)
     end.

Definition interval_cert (xl xu : Z) (L : Q) : bool :=
  Qle_bool 49 (100 * L)
  && newton_cert 10 (inject_Z xl) (inject_Z xu) (upQ (inject_Z xu - 100 * L)).

Fixpoint bark_cert (fuel : nat) (xl : Z) (L : Q) : bool :=
  match fuel with
  | O => false
  | S fuel' =>
      let xu := Z.min 15000 (xl + xl / 64) in
      interval_cert xl xu L
      && (if (15000 <=? xu)%Z then true
          else bark_cert fuel' xu (dnQ (L + gQ (inject_Z xu) * inject_Z (xu - xl))))
  end.

Lemma Dstep_sound (xl xu D : Q) (x h : R) :
  Q2R xl <= x <= Q2R xu -> Q2R xu <= 15000 -> 49 <= Q2R xl - Q2R D ->
  49 <= h <= x -> x - h <= Q2R D ->
  x - newton x h <= Q2R (Dstep xl xu D).
Proof.
  intros Hx Hxu HD Hh HhD.
  pose proof (step_bound (Q2R xl) (Q2R xu) (Q2R D) x h Hx Hxu HD Hh HhD) as Hs.
  eapply Rle_trans; [exact Hs|].
  eapply Rle_trans; [|apply upQ_ge].
  rewrite Q2R_mult, Q2R_minus, Q2R_div, !Q2R_gQ, Q2R_minus.
  - replace (Q2R 1) with 1 by (real_literals; lra). lra.
  - apply Q2R_nonzero. rewrite Q2R_gQ, Q2R_minus.
    apply Rgt_not_eq, dbark_pos. lra.
Qed.

Lemma newton_cert_sound (xl xu : Q) (x : R) (n : nat) :
  102 <= Q2R xl -> Q2R xl <= x <= Q2R xu -> Q2R xu <= 15000 ->
  forall (D : Q) (h : R),
    newton_cert n xl xu D = true -> 49 <= h <= x -> x - h <= Q2R D ->
    h <= barkNewton n (bark x) h <= x /\ x - barkNewton n (bark x) h <= x / 1000.
Proof.
  intros Hxl Hx Hxu. induction n as [|n IH]; intros D h Hc Hh HhD.
  - split; [simpl; lra|]. cbn [newton_cert] in Hc. rewrite orb_false_r in Hc.
    apply Qle_bool_imp_le, Qle_Rle in Hc. rewrite Q2R_div in Hc by (intros H; discriminate H).
    replace (Q2R 1000) with 1000 in Hc by (real_literals; lra). simpl. lra.
  - pose proof (newton_loop_between x (S n) ltac:(lra) h Hh) as Hbetween.
    split; [exact Hbetween|].
    cbn [newton_cert] in Hc. apply orb_true_iff in Hc. destruct Hc as [Hc|Hc].
    + apply Qle_bool_imp_le, Qle_Rle in Hc. rewrite Q2R_div in Hc by (intros H; discriminate H).
      replace (Q2R 1000) with 1000 in Hc by (real_literals; lra). lra.
    + apply andb_true_iff in Hc. destruct Hc as [H49 Hc].
      apply Qle_bool_imp_le, Qle_Rle in H49. rewrite Q2R_minus in H49.
      replace (Q2R 49) with 49 in H49 by (real_literals; lra).
      rewrite barkNewton_S.
      destruct (Rlt_dec (Rabs (bark x - bark h)) (1 / 1000)) as [Hbr|Hbr].
      * apply break_close; [lra | exact Hh | exact Hbr].
      * destruct (newton_bounds x h Hh ltac:(lra)) as [Hb _].
        apply (IH (Dstep xl xu D) (newton x h) Hc ltac:(lra)).
        apply Dstep_sound; assumption || lra.
Qed.

(** From the loop bounds to the round trip. *)
Lemma barkToHz_real (b : R) : barkToHz b = Rmax 1 (barkNewton 10 b (b * 100)).
Proof.
  unfold barkToHz. rewrite max_num_real.
  cbn [real_number mul num]. replace (Q2R 1) with 1 by (real_literals; lra).
  replace (Q2R 100) with 100 by (real_literals; lra). reflexivity.
Qed.

Lemma round_trip_from_loop (x : R) :
  49 <= barkNewton 10 (bark x) (bark x * 100) <= x ->
  x - barkNewton 10 (bark x) (bark x * 100) <= x / 1000 ->
  Rabs (barkToHz (hzToBark x) - x) <= x / 1000.
Proof.
  intros Hr Hd. rewrite hzToBark_bark, barkToHz_real.
  rewrite Rmax_right by lra. rewrite Rabs_left1 by lra. lra.
Qed.

Lemma interval_cert_sound (xl xu : Z) (L : Q) (x : R) :
  (102 <= xl)%Z -> (xl <= xu)%Z -> (xu <= 15000)%Z ->
  Q2R L <= bark (IZR xl) ->
  interval_cert xl xu L = true ->
  IZR xl <= x <= IZR xu ->
  Rabs (barkToHz (hzToBark x) - x) <= x / 1000.
Proof.
  intros Hxl Hlu Hxu HL Hc Hx.
  apply IZR_le in Hxl, Hlu, Hxu.
  unfold interval_cert in Hc. apply andb_true_iff in Hc. destruct Hc as [H49 Hc].
  apply Qle_bool_imp_le, Qle_Rle in H49. rewrite Q2R_mult in H49.
  replace (Q2R 49) with 49 in H49 by (real_literals; lra).
  replace (Q2R 100) with 100 in H49 by (real_literals; lra).
  pose proof (bark_increasing (IZR xl) x ltac:(lra)) as Hinc.
  pose proof (bark_le_line x ltac:(lra)) as Hline.
  destruct (newton_cert_sound (inject_Z xl) (inject_Z xu) x 10) with
    (D := upQ (inject_Z xu - 100 * L)) (h := bark x * 100) as [Hb Hd].
  - rewrite Q2R_inject_Z. lra.
  - rewrite !Q2R_inject_Z. lra.
  - rewrite Q2R_inject_Z. lra.
  - exact Hc.
  - lra.
  - eapply Rle_trans; [|apply upQ_ge].
    rewrite Q2R_minus, Q2R_mult, Q2R_inject_Z.
    replace (Q2R 100) with 100 by (real_literals; lra). lra.
  - apply round_trip_from_loop; lra.
Qed.

Lemma bark_cert_sound (fuel : nat) :
  forall (xl : Z) (L : Q),
    (102 <= xl)%Z -> Q2R L <= bark (IZR xl) ->
    bark_cert fuel xl L = true ->
    forall x, IZR xl <= x <= 15000 ->
    Rabs (barkToHz (hzToBark x) - x) <= x / 1000.
Proof.
  induction fuel as [|fuel IH]; intros xl L Hxl HL Hc x Hx; [discriminate Hc|].
  cbn [bark_cert] in Hc. cbv zeta in Hc.
  apply andb_true_iff in Hc. destruct Hc as [Hi Hrest].
  assert (Hxl15 : (xl <= 15000)%Z) by (apply le_IZR; lra).
  set (xu := Z.min 15000 (xl + xl / 64)) in *.
  assert (Hq : (0 <= xl / 64)%Z) by (apply Z.div_pos; lia).
  assert (Hlu : (xl <= xu)%Z) by (subst xu; lia).
  assert (Hu15 : (xu <= 15000)%Z) by (subst xu; lia).
  destruct (Rle_dec x (IZR xu)) as [Hin|Hout].
  - apply (interval_cert_sound xl xu L x Hxl Hlu Hu15 HL Hi). lra.
  - destruct (15000 <=? xu)%Z eqn:Hend.
    + apply Z.leb_le in Hend. apply IZR_le in Hend. lra.
    + apply (IH xu (dnQ (L + gQ (inject_Z xu) * inject_Z (xu - xl))) ltac:(lia));
        [|exact Hrest|lra].
      eapply Rle_trans; [apply dnQ_le|].
      rewrite Q2R_plus, Q2R_mult, Q2R_gQ, !Q2R_inject_Z, minus_IZR.
      pose proof (bark_diff_lower (IZR xl) (IZR xu)
                    ltac:(split; [apply IZR_le in Hxl; lra | apply IZR_le; exact Hlu])
                    ltac:(apply IZR_le in Hu15; lra)).
      lra.
Qed.

Lemma barkP_102 : 982 / 100000 <= barkP 102.
Proof.
  unfold barkP.
  apply (Rmult_le_reg_r (1 + 76 / 100000 * 102 * (76 / 100000 * 102))); [lra|].
  replace (13 * (76 / 100000) / (1 + 76 / 100000 * 102 * (76 / 100000 * 102)) *
           (1 + 76 / 100000 * 102 * (76 / 100000 * 102))) with (13 * (76 / 100000)) by (field; lra).
  lra.
Qed.

Lemma bark_upper_low (x : R) : 0 <= x <= 102 -> bark x <= 98927 / 10000000 * x.
Proof.
  intros [[Hlt | <-] HB]; [|rewrite bark_0; lra].
  destruct (bark_mvt 0 x Hlt) as [c [Hc Heq]]. rewrite bark_0 in Heq.
  assert (dbark c <= 98927 / 10000000).
  { rewrite dbark_split. pose proof (barkP_le c). pose proof (barkS_le_line c ltac:(lra)).
    assert (7 / (7500 * 7500) * c <= 7 / (7500 * 7500) * 102) by (apply Rmult_le_compat_l; lra).
    lra. }
  nra.
Qed.

Lemma bark_round_trip_low (x : R) :
  50 <= x <= 102 -> Rabs (barkToHz (hzToBark x) - x) <= x / 1000.
Proof.
  intros Hx.
  pose proof barkP_102 as HP.
  pose proof (bark_lower_P 102 x ltac:(lra)) as Hlow.
  pose proof (bark_upper_low x ltac:(lra)) as Hup.
  set (h0 := bark x * 100).
  assert (Hh0 : 49 <= h0 <= x) by (subst h0; split; nra).
  assert (Hgx : 982 / 100000 <= dbark x).
  { pose proof (dbark_decreasing x 102 ltac:(lra) ltac:(lra)).
    pose proof (barkS_nonneg 102 ltac:(lra)). rewrite (dbark_split 102) in *. lra. }
  assert (Hgh : dbark h0 <= 1 / 100) by (apply dbark_le_cent; lra).
  pose proof (dbark_pos h0 ltac:(lra)) as Hgh0.
  pose proof (bark_diff_lower h0 x Hh0 ltac:(lra)) as Hdiff.
  assert (Hgap : 1 / 2 <= x - h0) by (subst h0; nra).
  assert (Hnobreak : ~ Rabs (bark x - bark h0) < 1 / 1000).
  { intros Hbr. assert (bark x - bark h0 < 1 / 1000).
    { eapply Rle_lt_trans; [apply Rle_abs | exact Hbr]. }
    nra. }
  destruct (newton_bounds x h0 Hh0 ltac:(lra)) as [Hb Hstep].
  pose proof (newton_loop_between x 9 ltac:(lra) (newton x h0) ltac:(lra)) as Hloop.
  assert (Hrun : barkNewton 10 (bark x) h0 = barkNewton 9 (bark x) (newton x h0)).
  { rewrite barkNewton_S. destruct (Rlt_dec (Rabs (bark x - bark h0)) (1 / 1000)); [tauto|].
    reflexivity. }
  assert (Hratio : 982 / 1000 <= dbark x / dbark h0).
  { apply (Rmult_le_reg_r (dbark h0)); [exact Hgh0|].
    replace (dbark x / dbark h0 * dbark h0) with (dbark x) by (field; lra). nra. }
  assert (Hclose : x - newton x h0 <= x / 1000).
  { eapply Rle_trans; [exact Hstep|].
    assert (x - h0 <= 18 / 1000 * x) by (subst h0; nra).
    assert (0 <= 1 - dbark x / dbark h0 <= 18 / 1000).
    { split; [|lra].
      assert (dbark x / dbark h0 <= 1); [|lra].
      apply (Rmult_le_reg_r (dbark h0)); [exact Hgh0|].
      replace (dbark x / dbark h0 * dbark h0) with (dbark x) by (field; lra).
      pose proof (dbark_decreasing h0 x Hh0 ltac:(lra)). lra. }
    assert ((x - h0) * (1 - dbark x / dbark h0) <= 18 / 1000 * x * (18 / 1000))
      by (apply Rmult_le_compat; lra).
    lra. }
  apply round_trip_from_loop; fold h0; rewrite Hrun; lra.
Qed.

Lemma bark_102 : Q2R 1 <= bark 102.
Proof.
  pose proof barkP_102. pose proof (bark_lower_P 102 102 ltac:(lra)).
  replace (Q2R 1) with 1 by (real_literals; lra). lra.
Qed.

Lemma bark_cert_holds : bark_cert 400 102 1 = true.
Proof. vm_compute. reflexivity. Qed.

Lemma bark_round_trip (x : R) :
  50 <= x <= 15000 -> Rabs (barkToHz (hzToBark x) - x) <= x / 1000.
Proof.
  intros Hx. destruct (Rle_dec x 102) as [Hlow|Hhigh].
  - apply bark_round_trip_low. lra.
  - apply (bark_cert_sound 400 102 1 ltac:(lia) bark_102 bark_cert_holds). lra.
Qed.

(** Started at or above 49 Hz and not above the frequency [x] whose Bark
    value is inverted, the loop of [barkToHz] never moves down and never
    passes [x], for any number of steps. *)
Theorem bark_newton_stays_left (x h : R) (n : nat) :
  49 <= h <= x -> x <= 15000 ->
  h <= barkNewton n (hzToBark x) h <= x.
Proof.
  intros Hh Hx. rewrite hzToBark_bark. apply newton_loop_between; assumption.
Qed.

Lemma bark_newton_stays_left_witness :
  100 <= barkNewton 10 (hzToBark 1000) 100 <= 1000.
Proof. apply (bark_newton_stays_left 1000 100 10); lra. Defined.

(** C6.  Over the real numbers, for every frequency [x] in [50, 15000] Hz
    the three perceptual-scale conversions round-trip within 0.1% of [x]:
    [melToHz (hzToMel x)] and [erbToHz (hzToErb x)] return [x] exactly, and
    the Newton iteration of [barkToHz (hzToBark x)] ends within [x / 1000]
    of [x]. *)
Theorem C6_round_trip_within_tolerance (x : R) :
  50 <= x <= 15000 ->
  Rabs (melToHz (hzToMel x) - x) <= x / 1000
  /\ Rabs (erbToHz (hzToErb x) - x) <= x / 1000
  /\ Rabs (barkToHz (hzToBark x) - x) <= x / 1000.
Proof.
  intros Hx. repeat split.
  - rewrite melToHz_hzToMel by lra. rewrite Rminus_diag, Rabs_R0. lra.
  - rewrite erbToHz_hzToErb by lra. rewrite Rminus_diag, Rabs_R0. lra.
  - apply bark_round_trip. exact Hx.
Qed.

Lemma C6_round_trip_within_tolerance_witness :
  Rabs (melToHz (hzToMel 1000) - 1000) <= 1000 / 1000
  /\ Rabs (erbToHz (hzToErb 1000) - 1000) <= 1000 / 1000
  /\ Rabs (barkToHz (hzToBark 1000) - 1000) <= 1000 / 1000.
Proof. apply (C6_round_trip_within_tolerance 1000). lra. Defined.

End BarkFacts.


(** ** Colour scales (src/color-scales.ts) *)

Module ColorScales.

Local Open Scope Q_scope.

Inductive ColorScale : Type :=
| viridis | magma | grayscale | hot | inferno.

Definition RGB : Type := (Z * Z * Z)%type.

Definition floor (q : Q) : Z := Qfloor q.

Definition clamp255 (z : Z) : Z := Z.max 0 (Z.min 255 z).

Definition COLOR_SCALES (scale : ColorScale) (t : Q) : RGB :=
  match scale with
  | viridis =>
      let r := clamp255 (floor (255 * (0.267 + 0.329 * t + 2.66 * t * t - 2.35 * t * t * t))) in
      let g := clamp255 (floor (255 * (0.004 + 1.42 * t - 1.54 * t * t + 0.69 * t * t * t))) in
      let b := clamp255 (floor (255 * (0.329 + 1.42 * t - 2.49 * t * t + 1.33 * t * t * t))) in
      (r, g, b)
  | magma =>
      if Qltb t 0.25 then
        let s := t / 0.25 in
        (floor (3 * s), floor (3 * s), floor (80 * s))
      else if Qltb t 0.5 then
        let s := (t - 0.25) / 0.25 in
        (floor (3 + 177 * s), floor (3 - 3 * s), floor (80 + 100 * s))
      else if Qltb t 0.75 then
        let s := (t - 0.5) / 0.25 in
        (floor (180 + 75 * s), floor (0 + 140 * s), floor (180 - 180 * s))
      else
        let s := (t - 0.75) / 0.25 in
        (255%Z, floor (140 + 115 * s), floor (0 + 255 * s))
  | grayscale =>
      let v := floor (255 * t) in
      (v, v, v)
  | hot =>
      if Qltb t 0.33 then (floor (255 * (t / 0.33)), 0%Z, 0%Z)
      else if Qltb t 0.67 then (255%Z, floor (255 * ((t - 0.33) / 0.34)), 0%Z)
      else (255%Z, 255%Z, floor (255 * ((t - 0.67) / 0.33)))
  | inferno =>
      if Qltb t 0.15 then
        let s := t / 0.15 in
        (floor (10 + 50 * s), 0%Z, floor (20 + 60 * s))
      else if Qltb t 0.4 then
        let s := (t - 0.15) / 0.25 in
        (floor (60 + 120 * s), floor (20 * s), floor (80 + 40 * s))
      else if Qltb t 0.65 then
        let s := (t - 0.4) / 0.25 in
        (floor (180 + 60 * s), floor (20 + 60 * s), floor (120 - 100 * s))
      else if Qltb t 0.85 then
        let s := (t - 0.65) / 0.2 in
        (255%Z, floor (80 + 120 * s), floor (20 - 20 * s))
      else
        let s := (t - 0.85) / 0.15 in
        (255%Z, floor (200 + 55 * s), floor (100 * s))
  end.

End ColorScales.

(** ** Rendering (src/renderer.ts) *)

Module Renderer.

Import Spectrogram FrequencyMapping ColorScales.
Local Open Scope Z_scope.

Inductive DownsampleMode : Type :=
| ds_max | ds_average | ds_nearest.

Inductive InterpolationMode : Type :=
| interp_nearest | interp_linear | interp_cubic.

Record RenderOptions : Type := {
  r_spectrogram : SpectrogramData;
  r_colorScale : option ColorScale;
  r_freqScale : option FrequencyScale;
  r_minFreq : option Q;
  r_maxFreq : option Q;
  r_frequencyGain : option Q;
  r_range : option Q;
  r_downsampleMode : option DownsampleMode;
  r_interpolation : option InterpolationMode;
  r_outputWidth : option Z;
  r_outputHeight : option Z
}.

(** [ImageData]: dimensions and RGBA bytes. *)
Record ImageData : Type := {
  width : Z;
  height : Z;
  pixels : list Z
}.

(** [new ImageData (width, height)] *)
Definition new_ImageData (width height : Z) : ImageData :=
  {| width := width; height := height;
     pixels := replicate (Z.to_nat (width * height * 4)) 0 |}.

(** A store into a [Uint8Array] (wraps) and into a [Uint8ClampedArray]
    (clamps); outside the array it is ignored. *)
Definition u8_set (a : list Z) (i v : Z) : list Z :=
  if i <? 0 then a else <[Z.to_nat i := v mod 256]> a.

Definition u8c_set (a : list Z) (i v : Z) : list Z :=
  if i <? 0 then a else <[Z.to_nat i := clamp255 v]> a.

Definition u8_get (a : list Z) (i : Z) : Z :=
  if i <? 0 then 0 else default 0 (a !! Z.to_nat i).

Definition COLOR_LUT_SIZE : Z := 256.

(** [getColorLUT]: 256 RGB triplets of the scale (cached by the code). *)
Definition getColorLUT (colorScale : ColorScale) : list Z :=
  for_range 0 COLOR_LUT_SIZE
    (fun i lut =>
       let value := (inject_Z i / inject_Z (COLOR_LUT_SIZE - 1))%Q in
       let '(r, g, b) := COLOR_SCALES colorScale value in
       u8_set (u8_set (u8_set lut (i * 3) r) (i * 3 + 1) g) (i * 3 + 2) b)
    (replicate (Z.to_nat (COLOR_LUT_SIZE * 3)) 0).

(** Cubic interpolation using Catmull-Rom spline *)
Definition cubicInterpolate (p0 p1 p2 p3 t : Q) : Q :=
  let t2 := (t * t)%Q in
  let t3 := (t2 * t)%Q in
  (0.5 * (2 * p1 + (- p0 + p2) * t
          + (2 * p0 - 5 * p1 + 4 * p2 - p3) * t2
          + (- p0 + 3 * p1 - 3 * p2 + p3) * t3))%Q.

(** [Math.max (0, Math.min (len - 1, idx))] *)
Definition clamp_index (len idx : Z) : Z := Z.max 0 (Z.min (len - 1) idx).

(** Sample spectrum at a fractional bin position using specified
    interpolation *)
Definition sampleSpectrum (spectrum : list Q) (pos : Q)
  (interpolation : InterpolationMode) : Q :=
  let len := Z.of_nat (length spectrum) in
  match interpolation with
  | interp_nearest =>
      let idx := Math_round pos in
      f32_get spectrum (clamp_index len idx)
  | interp_linear =>
      let idx := Qfloor pos in
      let frac := (pos - inject_Z idx)%Q in
      let i0 := clamp_index len idx in
      let i1 := clamp_index len (idx + 1) in
      (f32_get spectrum i0 * (1 - frac) + f32_get spectrum i1 * frac)%Q
  | interp_cubic =>
      let idx := Qfloor pos in
      let frac := (pos - inject_Z idx)%Q in
      let i0 := clamp_index len (idx - 1) in
      let i1 := clamp_index len idx in
      let i2 := clamp_index len (idx + 1) in
      let i3 := clamp_index len (idx + 2) in
      let result :=
        cubicInterpolate (f32_get spectrum i0) (f32_get spectrum i1)
          (f32_get spectrum i2) (f32_get spectrum i3) frac in
      Math_max 0 result
  end.

(** The source-bin range a display bin covers: midpoints to the
    neighbouring mapped positions, clamped to the spectrum. *)
Definition source_range (freqMapping : list Q) (displayBins specLen i : Z)
  : Q * Q :=
  let srcBin := f32_get freqMapping i in
  let '(srcBinStart, srcBinEnd) :=
    if i =? 0 then
      (srcBin,
       if i + 1 <? displayBins
       then ((srcBin + f32_get freqMapping (i + 1)) * 0.5)%Q
       else (srcBin + 0.5)%Q)
    else if i =? displayBins - 1 then
      (((f32_get freqMapping (i - 1) + srcBin) * 0.5)%Q, srcBin)
    else
      (((f32_get freqMapping (i - 1) + srcBin) * 0.5)%Q,
       ((srcBin + f32_get freqMapping (i + 1)) * 0.5)%Q) in
  let srcBinStart := if Qltb srcBinStart 0 then 0%Q else srcBinStart in
  let srcBinEnd :=
    if Qltb (inject_Z (specLen - 1)) srcBinEnd then inject_Z (specLen - 1)
    else srcBinEnd in
  (srcBinStart, srcBinEnd).

(** The value of display bin [i]: the body of the loop of
    [remapSpectrumWithDownsample]. *)
Definition remap_bin (spectrum freqMapping : list Q) (displayBins : Z)
  (downsampleMode : DownsampleMode) (interpolation : InterpolationMode)
  (i : Z) : Q :=
  let specLen := Z.of_nat (length spectrum) in
  let srcBin := f32_get freqMapping i in
  let '(srcBinStart, srcBinEnd) :=
    source_range freqMapping displayBins specLen i in
  let binLow := ToInt32 srcBinStart in
  let binHigh := ToInt32 (srcBinEnd + 1)%Q in
  match downsampleMode with
  | ds_nearest => sampleSpectrum spectrum srcBin interpolation
  | ds_max =>
      if binHigh <=? binLow then sampleSpectrum spectrum srcBin interpolation
      else
        for_range binLow (Z.min (binHigh + 1) specLen)
          (fun j maxVal =>
             let val := f32_get spectrum j in
             if Qltb maxVal val then val else maxVal)
          (sampleSpectrum spectrum srcBin interpolation)
  | ds_average =>
      if binHigh <=? binLow then sampleSpectrum spectrum srcBin interpolation
      else
        let '(sum, count) :=
          for_range binLow (Z.min (binHigh + 1) specLen)
            (fun j '(sum, count) => ((sum + f32_get spectrum j)%Q, count + 1))
            (sampleSpectrum spectrum srcBin interpolation, 1) in
        (sum / inject_Z count)%Q
  end.

(** Remap spectrum with proper downsampling, into the caller's buffer. *)
Definition remapSpectrumWithDownsample (spectrum freqMapping : list Q)
  (displayBins : Z) (downsampleMode : DownsampleMode)
  (interpolation : InterpolationMode) (output : list Q) : list Q :=
  for_range 0 displayBins
    (fun i remapped =>
       f32_set remapped i
         (remap_bin spectrum freqMapping displayBins downsampleMode
            interpolation i))
    output.

Section WithMath.
Context {M : MathLib}.

(** Calculate frequency gain boost for a given frequency *)
Definition calculateFrequencyGain (hz frequencyGain : Q) : Q :=
  if Qeq_bool frequencyGain 0 || Qle_bool hz 1000 then 0%Q
  else
    let decades := Math_log10 (hz / 1000)%Q in
    (frequencyGain * decades)%Q.

(** Calculate frequency at a given display bin position *)
Definition getFrequencyAtBin (bin displayBins : Z) (minFreq maxFreq : Q)
  (freqScale : FrequencyScale) : Q :=
  let t := (inject_Z bin / inject_Z (displayBins - 1))%Q in
  match freqScale with
  | scale_log =>
      let logMin := Math_log10 minFreq in
      let logMax := Math_log10 maxFreq in
      Math_pow 10 (logMin + t * (logMax - logMin))%Q
  | _ => (minFreq + t * (maxFreq - minFreq))%Q
  end.

(** The colour loop of one frame. *)
Definition color_frame (displayBuffer freqGainFactors : list Q)
  (colorLUT : list Z) (displayBins numFrames frame : Z) (pixels : list Z)
  : list Z :=
  let lutMax := COLOR_LUT_SIZE - 1 in
  for_range 0 displayBins
    (fun bin pixels =>
       let value := (f32_get displayBuffer bin + f32_get freqGainFactors bin)%Q in
       let value :=
         if Qltb value 0 then 0%Q else if Qltb 1 value then 1%Q else value in
       let lutIdx := ToInt32 (value * inject_Z lutMax + 0.5)%Q * 3 in
       let r := u8_get colorLUT lutIdx in
       let g := u8_get colorLUT (lutIdx + 1) in
       let b := u8_get colorLUT (lutIdx + 2) in
       let y := displayBins - 1 - bin in
       let pixelIndex := (y * numFrames + frame) * 4 in
       u8c_set
         (u8c_set (u8c_set (u8c_set pixels pixelIndex r) (pixelIndex + 1) g)
            (pixelIndex + 2) b)
         (pixelIndex + 3) 255)
    pixels.

(** Render spectrogram to an ImageData object *)
Definition renderToImageData (options : RenderOptions) : ImageData :=
  let spectrogram := r_spectrogram options in
  let freqScale := default scale_log (r_freqScale options) in
  let minFreq := default 50%Q (r_minFreq options) in
  let maxFreq := default 8000%Q (r_maxFreq options) in
  let frequencyGain := default 0%Q (r_frequencyGain options) in
  let downsampleMode := default ds_max (r_downsampleMode options) in
  let interpolation := default interp_linear (r_interpolation options) in
  let colorScale := default magma (r_colorScale options) in
  let data := Spectrogram.data spectrogram in
  let numFrames := Spectrogram.numFrames spectrogram in
  let numBins := Spectrogram.numBins spectrogram in
  let sampleRate := Spectrogram.sampleRate spectrogram in
  let nyquist := (sampleRate / 2)%Q in
  let displayBins := numBins in
  let effectiveMinFreq := Math_max minFreq 1 in
  let effectiveMaxFreq := Math_min maxFreq nyquist in
  let freqMapping :=
    createFrequencyMapping (N := double_number) numBins sampleRate freqScale
      displayBins (Some effectiveMinFreq) (Some effectiveMaxFreq) in
  let freqGainFactors :=
    for_range 0 displayBins
      (fun bin freqGainFactors =>
         let hz :=
           getFrequencyAtBin bin displayBins effectiveMinFreq effectiveMaxFreq
             freqScale in
         let dbBoost := calculateFrequencyGain hz frequencyGain in
         f32_set freqGainFactors bin (dbBoost / 40)%Q)
      (f32_new displayBins) in
  let imageData := new_ImageData numFrames displayBins in
  let colorLUT := getColorLUT colorScale in
  let '(_, pixels) :=
    for_range 0 numFrames
      (fun frame '(displayBuffer, pixels) =>
         let frameOffset := frame * numBins in
         let frameSpectrum := subarray data frameOffset (frameOffset + numBins) in
         let displayBuffer :=
           remapSpectrumWithDownsample frameSpectrum freqMapping displayBins
             downsampleMode interpolation displayBuffer in
         (displayBuffer,
          color_frame displayBuffer freqGainFactors colorLUT displayBins
            numFrames frame pixels))
      (f32_new displayBins, pixels imageData) in
  {| width := width imageData; height := height imageData; pixels := pixels |}.

End WithMath.
End Renderer.

(** ** Frequency-range analysis (src/spectrogram.ts, [analyzeFrequencyRange]) *)

Module Analysis.

Import Spectrogram.
Local Open Scope Z_scope.

Record FrequencyRange : Type := {
  minFreq : Q;
  maxFreq : Q
}.

(** [for (let i = hi; i > lo; i--) s = body (i, s)] *)
Definition for_down {S : Type} (hi lo : Z) (body : Z -> S -> S) (s : S) : S :=
  fold_left (fun s k => body (hi - Z.of_nat k) s) (seq 0 (Z.to_nat (hi - lo))) s.

(** [[...a].sort ((a, b) => a - b)]: the numbers in ascending order. *)
Fixpoint insert_sorted (x : Q) (l : list Q) : list Q :=
  match l with
  | [] => [x]
  | y :: l' => if Qle_bool x y then x :: l else y :: insert_sorted x l'
  end.

Definition sort_numbers (l : list Q) : list Q := foldr insert_sorted [] l.

(** Average energy per frequency bin across all frames. *)
Definition averageEnergy (spectrogram : SpectrogramData) : list Q :=
  let data := data spectrogram in
  let numFrames := numFrames spectrogram in
  let numBins := numBins spectrogram in
  for_range 0 numBins
    (fun bin avgEnergy =>
       let sum :=
         for_range 0 numFrames
           (fun frame sum => (sum + f32_get data (frame * numBins + bin))%Q)
           0%Q in
       f32_set avgEnergy bin (sum / inject_Z numFrames)%Q)
    (f32_new numBins).

(** The max energy and its location: the first bin that holds it. *)
Definition findPeak (avgEnergy : list Q) (numBins : Z) : Q * Z :=
  for_range 0 numBins
    (fun bin '(maxEnergy, peakBin) =>
       if Qltb maxEnergy (f32_get avgEnergy bin)
       then (f32_get avgEnergy bin, bin)
       else (maxEnergy, peakBin))
    (0%Q, 0).

(** Noise floor plus 5% of the dynamic range above it; the noise floor is
    the median of the upper quarter of the bins. *)
Definition energyThreshold (avgEnergy : list Q) (numBins : Z) (maxEnergy : Q)
  : Q :=
  let upperBins := drop (Z.to_nat (Qfloor (inject_Z numBins * 0.75))) avgEnergy in
  let sortedUpper := sort_numbers upperBins in
  let noiseFloor :=
    f32_get sortedUpper (Z.of_nat (length sortedUpper) / 2) in
  let dynamicRange := (maxEnergy - noiseFloor)%Q in
  (noiseFloor + dynamicRange * 0.05)%Q.

(** Lowest bin above the threshold, from bin 3 up to the peak; the flag
    records the [break]. *)
Definition findMinBin (avgEnergy : list Q) (threshold : Q) (peakBin : Z) : Z :=
  fst (for_range 3 peakBin
         (fun bin '(minBin, found) =>
            if found : bool then (minBin, found)
            else if Qltb threshold (f32_get avgEnergy bin) then (bin, true)
            else (minBin, found))
         (3, false)).

(** Highest bin above the threshold, from the top down to the peak. *)
Definition findMaxBin (avgEnergy : list Q) (threshold : Q)
  (numBins peakBin : Z) : Z :=
  fst (for_down (numBins - 1) peakBin
         (fun bin '(maxBin, found) =>
            if found : bool then (maxBin, found)
            else if Qltb threshold (f32_get avgEnergy bin) then (bin, true)
            else (maxBin, found))
         (numBins - 1, false)).

Definition binToHz (numBins : Z) (nyquist : Q) (bin : Z) : Q :=
  (inject_Z bin / inject_Z (numBins - 1) * nyquist)%Q.

(** Analyze spectrogram to find the frequency range with actual content *)
Definition analyzeFrequencyRange (spectrogram : SpectrogramData)
  : FrequencyRange :=
  let numBins := numBins spectrogram in
  let sampleRate := sampleRate spectrogram in
  let nyquist := (sampleRate / 2)%Q in
  let avgEnergy := averageEnergy spectrogram in
  let '(maxEnergy, peakBin) := findPeak avgEnergy numBins in
  if Qeq_bool maxEnergy 0 then {| minFreq := 20; maxFreq := nyquist |}
  else
    let threshold := energyThreshold avgEnergy numBins maxEnergy in
    let minBin := findMinBin avgEnergy threshold peakBin in
    let maxBin := findMaxBin avgEnergy threshold numBins peakBin in
    let minFreq :=
      (inject_Z (Qfloor (binToHz numBins nyquist minBin / 10)) * 10)%Q in
    let maxFreq :=
      (inject_Z (Qceiling (binToHz numBins nyquist maxBin / 100)) * 100)%Q in
    let minFreq := Math_max 20 minFreq in
    let maxFreq := Math_min nyquist maxFreq in
    let maxFreq := Math_max (minFreq + 500)%Q maxFreq in
    {| minFreq := minFreq; maxFreq := maxFreq |}.

End Analysis.

(** ** The exported [remapSpectrum] (src/frequency-mapping.ts) *)

Module Resample.

Import Renderer.
Local Open Scope Z_scope.

(** Interpolate spectrum using frequency mapping (the exported
    [remapSpectrum]): linear interpolation between the two bins around the
    mapped position. *)
Definition remapSpectrum (spectrum mapping : list Q) (displayBins : Z)
  : list Q :=
  for_range 0 displayBins
    (fun i remapped =>
       let srcBin := f32_get mapping i in
       let binLow := Qfloor srcBin in
       let binHigh := Z.min (binLow + 1) (Z.of_nat (length spectrum) - 1) in
       let frac := (srcBin - inject_Z binLow)%Q in
       f32_set remapped i
         (f32_get spectrum binLow * (1 - frac) + f32_get spectrum binHigh * frac)%Q)
    (f32_new displayBins).

End Resample.

(** ** Zero padding (src/window-functions.ts, [zeroPad]) *)

Module Windowing.

Local Open Scope Z_scope.

(** Zero-pad a frame to a target size *)
Definition zeroPad (frame : list Q) (targetSize : Z) : list Q :=
  if targetSize <=? Z.of_nat (length frame) then frame
  else typed_set (f32_new targetSize) frame.

End Windowing.

(** ** Rendering to a canvas (src/renderer.ts, [renderSpectrogram]) *)

Module CanvasRenderer.

Import Spectrogram FrequencyMapping ColorScales Renderer.
Local Open Scope Z_scope.

(** A canvas element: whether [getContext ("2d")] yields a context, its
    size, and the image last put on it at the origin. *)
Record Canvas : Type := {
  canvas_has2d : bool;
  canvas_width : Z;
  canvas_height : Z;
  canvas_image : option ImageData
}.

Definition no_context : string := "Could not get 2D canvas context".

Section WithMath.
Context {M : MathLib}.

(** Render spectrogram to a canvas element *)
Definition renderSpectrogram (canvas : Canvas) (options : RenderOptions)
  : result Canvas :=
  let spectrogram := r_spectrogram options in
  let freqScale := default scale_log (r_freqScale options) in
  let minFreq := default 50%Q (r_minFreq options) in
  let maxFreq := default 8000%Q (r_maxFreq options) in
  let frequencyGain := default 0%Q (r_frequencyGain options) in
  let downsampleMode := default ds_max (r_downsampleMode options) in
  let interpolation := default interp_linear (r_interpolation options) in
  let colorScale := default magma (r_colorScale options) in
  if negb (canvas_has2d canvas) then Throw no_context
  else
    let data := Spectrogram.data spectrogram in
    let numFrames := Spectrogram.numFrames spectrogram in
    let numBins := Spectrogram.numBins spectrogram in
    let sampleRate := Spectrogram.sampleRate spectrogram in
    let nyquist := (sampleRate / 2)%Q in
    let displayBins := numBins in
    let effectiveMinFreq := Math_max minFreq 1 in
    let effectiveMaxFreq := Math_min maxFreq nyquist in
    let freqMapping :=
      createFrequencyMapping (N := double_number) numBins sampleRate freqScale
        displayBins (Some effectiveMinFreq) (Some effectiveMaxFreq) in
    let freqGainFactors :=
      for_range 0 displayBins
        (fun bin freqGainFactors =>
           let hz :=
             getFrequencyAtBin bin displayBins effectiveMinFreq effectiveMaxFreq
               freqScale in
           let dbBoost := calculateFrequencyGain hz frequencyGain in
           f32_set freqGainFactors bin (dbBoost / 40)%Q)
        (f32_new displayBins) in
    (* canvas.width = numFrames; canvas.height = displayBins *)
    let imageData := new_ImageData numFrames displayBins in
    let colorLUT := getColorLUT colorScale in
    let '(_, pixels) :=
      for_range 0 numFrames
        (fun frame '(displayBuffer, pixels) =>
           let frameOffset := frame * numBins in
           let frameSpectrum :=
             subarray data frameOffset (frameOffset + numBins) in
           let displayBuffer :=
             remapSpectrumWithDownsample frameSpectrum freqMapping displayBins
               downsampleMode interpolation displayBuffer in
           (displayBuffer,
            color_frame displayBuffer freqGainFactors colorLUT displayBins
              numFrames frame pixels))
        (f32_new displayBins, pixels imageData) in
    (* ctx.putImageData (imageData, 0, 0) *)
    Ok {| canvas_has2d := true;
          canvas_width := numFrames;
          canvas_height := displayBins;
          canvas_image :=
            Some {| width := width imageData; height := height imageData;
                    pixels := pixels |} |}.

End WithMath.
End CanvasRenderer.

(** ** Facts about resampling and rendering *)

Module RendererFacts.

Import Spectrogram FrequencyMapping ColorScales Renderer JSFacts Frames.
Local Open Scope Z_scope.

(** The running maximum is at least its start value and at least every
    element it has seen. *)
Lemma running_max_ge (F : Z -> Q) (ks : list nat) (lo : Z) : forall m0,
  let m :=
    fold_left
      (fun m k => if Qltb m (F (lo + Z.of_nat k)) then F (lo + Z.of_nat k) else m)
      ks m0 in
  Qle m0 m /\ forall k, In k ks -> Qle (F (lo + Z.of_nat k)) m.
Proof.
  induction ks as [|k ks IH]; intros m0; simpl.
  - split; [apply Qle_refl | intros k []].
  - set (m1 := if Qltb m0 (F (lo + Z.of_nat k)) then F (lo + Z.of_nat k) else m0).
    destruct (IH m1) as [Hge Hall].
    assert (H0 : (m0 <= m1)%Q).
    { subst m1. destruct (Qltb m0 _) eqn:Hlt; [|apply Qle_refl].
      apply Qltb_lt in Hlt. apply Qlt_le_weak. exact Hlt. }
    assert (Hk : Qle (F (lo + Z.of_nat k)) m1).
    { subst m1. destruct (Qltb m0 _) eqn:Hlt; [apply Qle_refl|].
      apply Qltb_ge in Hlt. exact Hlt. }
    split; [apply Qle_trans with m1; assumption|].
    intros k' [<- | Hin]; [apply Qle_trans with m1; assumption | apply Hall; exact Hin].
Qed.

Lemma max_loop_ge (spectrum : list Q) (lo hi n : Z) (m0 : Q) :
  lo <= n < hi ->
  (f32_get spectrum n
   <= for_range lo hi
        (fun j maxVal =>
           let val := f32_get spectrum j in
           if Qltb maxVal val then val else maxVal) m0)%Q.
Proof.
  intros Hn. unfold for_range.
  destruct (running_max_ge (f32_get spectrum) (seq 0 (Z.to_nat (hi - lo))) lo m0)
    as [_ Hall].
  replace n with (lo + Z.of_nat (Z.to_nat (n - lo))) at 1 by lia.
  apply Hall. apply in_seq. lia.
Qed.

(** The clamped range lies inside the spectrum. *)
Lemma source_range_bounds (freqMapping : list Q) (displayBins specLen i : Z) :
  (0 <= fst (source_range freqMapping displayBins specLen i))%Q /\
  (snd (source_range freqMapping displayBins specLen i)
   <= inject_Z (specLen - 1))%Q.
Proof.
  unfold source_range.
  destruct (if i =? 0 then _ else _) as [srcBinStart srcBinEnd]. simpl. split.
  - destruct (Qltb srcBinStart 0) eqn:H; [apply Qle_refl|].
    apply Qltb_ge in H. exact H.
  - destruct (Qltb _ srcBinEnd) eqn:H; [apply Qle_refl|].
    apply Qltb_ge in H. exact H.
Qed.

(** The "max" value of a display bin is at least the source bin nearest to
    its position, when that bin lies in the range the display bin covers. *)
Lemma remap_bin_max_ge_nearest (spectrum freqMapping : list Q)
  (displayBins : Z) (interpolation : InterpolationMode) (i : Z) :
  let specLen := Z.of_nat (length spectrum) in
  let srcBin := f32_get freqMapping i in
  let nearestBin := clamp_index specLen (Math_round srcBin) in
  let range := source_range freqMapping displayBins specLen i in
  specLen < 2 ^ 31 ->
  (fst range <= inject_Z nearestBin <= snd range)%Q ->
  (sampleSpectrum spectrum srcBin interp_nearest
   <= remap_bin spectrum freqMapping displayBins ds_max interpolation i)%Q.
Proof.
  intros specLen srcBin nearestBin range Hlen [Hlo Hhi].
  destruct (source_range_bounds freqMapping displayBins specLen i)
    as [Hstart Hend].
  fold range in Hstart, Hend.
  unfold remap_bin. fold specLen. fold range.
  destruct range as [srcBinStart srcBinEnd]. simpl in Hlo, Hhi, Hstart, Hend.
  assert (Hn0 : 0 <= nearestBin) by (unfold nearestBin, clamp_index; lia).
  assert (Hn1 : nearestBin <= specLen - 1).
  { rewrite Zle_Qle. apply Qle_trans with srcBinEnd; assumption. }
  assert (Hbig : (inject_Z specLen < inject_Z (2 ^ 31))%Q)
    by (rewrite <- Zlt_Qlt; exact Hlen).
  assert (Hsub : (inject_Z (specLen - 1) == inject_Z specLen - 1)%Q).
  { unfold Zminus. rewrite inject_Z_plus, inject_Z_opp. reflexivity. }
  assert (HbinLow : ToInt32 srcBinStart <= nearestBin).
  { rewrite ToInt32_floor; [|exact Hstart|].
    - rewrite <- (Qfloor_Z nearestBin). apply Qfloor_resp_le. exact Hlo.
    - apply Qle_lt_trans with (inject_Z (specLen - 1)); [|lra].
      apply Qle_trans with srcBinEnd; [|exact Hend].
      apply Qle_trans with (inject_Z nearestBin); assumption. }
  assert (HbinHigh : nearestBin + 1 <= ToInt32 (srcBinEnd + 1)).
  { rewrite ToInt32_floor; [| |lra].
    - replace (nearestBin + 1) with (Qfloor (inject_Z (nearestBin + 1)))
        by apply Qfloor_Z.
      apply Qfloor_resp_le. rewrite inject_Z_plus.
      change (inject_Z 1) with 1%Q. lra.
    - apply Qle_trans with (inject_Z nearestBin + 1)%Q; [|lra].
      rewrite Zle_Qle in Hn0. change (inject_Z 0) with 0%Q in Hn0. lra. }
  destruct (ToInt32 (srcBinEnd + 1) <=? ToInt32 srcBinStart) eqn:Hcollapsed;
    [apply Z.leb_le in Hcollapsed; lia|].
  unfold sampleSpectrum. fold specLen. fold srcBin. fold nearestBin.
  apply max_loop_ge. lia.
Qed.

(** C8. For a display bin whose covered source range, the clamped interval
    between the midpoints to its neighbours' positions, contains the source
    bin nearest to its own position, the value the "max" downsample mode
    stores for it is at least the value plain nearest sampling stores,
    whatever the interpolation mode "max" starts from. *)
Theorem C8_max_mode_ge_nearest (spectrum freqMapping : list Q)
  (displayBins : Z) (interpolation : InterpolationMode)
  (outputMax outputNearest : list Q) (i : Z) :
  let specLen := Z.of_nat (length spectrum) in
  let nearestBin := clamp_index specLen (Math_round (f32_get freqMapping i)) in
  let range := source_range freqMapping displayBins specLen i in
  specLen < 2 ^ 31 ->
  0 <= i < displayBins ->
  i < Z.of_nat (length outputMax) -> i < Z.of_nat (length outputNearest) ->
  (fst range <= inject_Z nearestBin <= snd range)%Q ->
  (f32_get
     (remapSpectrumWithDownsample spectrum freqMapping displayBins
        ds_nearest interp_nearest outputNearest) i
   <= f32_get
        (remapSpectrumWithDownsample spectrum freqMapping displayBins
           ds_max interpolation outputMax) i)%Q.
Proof.
  intros specLen nearestBin range Hlen Hi HoutMax HoutNearest Hrange.
  unfold remapSpectrumWithDownsample.
  rewrite (for_range_fill
             (remap_bin spectrum freqMapping displayBins ds_nearest
                interp_nearest)) by assumption.
  rewrite (for_range_fill
             (remap_bin spectrum freqMapping displayBins ds_max interpolation))
    by assumption.
  apply Qle_trans
    with (sampleSpectrum spectrum (f32_get freqMapping i) interp_nearest).
  - unfold remap_bin. destruct (source_range _ _ _ _). apply Qle_refl.
  - apply remap_bin_max_ge_nearest; assumption.
Qed.

(** C8 on the middle display bin of an identity mapping over five bins:
    the covered range [1.5, 2.5] contains the nearest bin 2. *)
Lemma C8_max_mode_ge_nearest_witness :
  (f32_get
     (remapSpectrumWithDownsample [0; 1; 0.5; 0.25; 0]%Q [0; 1; 2; 3; 4]%Q 5
        ds_nearest interp_nearest (f32_new 5)) 2
   <= f32_get
        (remapSpectrumWithDownsample [0; 1; 0.5; 0.25; 0]%Q [0; 1; 2; 3; 4]%Q 5
           ds_max interp_linear (f32_new 5)) 2)%Q.
Proof.
  apply (C8_max_mode_ge_nearest [0; 1; 0.5; 0.25; 0]%Q [0; 1; 2; 3; 4]%Q 5
           interp_linear (f32_new 5) (f32_new 5) 2);
    vm_compute; try split; congruence.
Defined.

(** *** The rendered image *)

Lemma u8c_set_length a i v : length (u8c_set a i v) = length a.
Proof. unfold u8c_set. destruct (i <? 0); [reflexivity | apply length_insert]. Qed.

Section WithMath.
Context {M : MathLib}.

Lemma color_frame_length displayBuffer freqGainFactors colorLUT displayBins
  numFrames frame pixels :
  length (color_frame displayBuffer freqGainFactors colorLUT displayBins
            numFrames frame pixels) = length pixels.
Proof.
  unfold color_frame.
  apply (for_range_ind (fun p => length p = length pixels)); [reflexivity|].
  intros bin p _ Hp. rewrite !u8c_set_length. exact Hp.
Qed.

(** The image [renderToImageData] returns has one column per frame and one
    row per source bin, four bytes per pixel, whatever the options say. *)
Lemma renderToImageData_dimensions (options : RenderOptions) :
  let image := renderToImageData options in
  let spectrogram := r_spectrogram options in
  width image = numFrames spectrogram /\
  height image = numBins spectrogram /\
  length (pixels image)
  = Z.to_nat (numFrames spectrogram * numBins spectrogram * 4).
Proof.
  unfold renderToImageData.
  match goal with
  | |- context [for_range 0 ?n ?body (?buf, pixels ?img)] =>
      pose proof (for_range_ind
        (fun st : list Q * list Z => length (snd st) = length (pixels img))
        0 n body (buf, pixels img)) as Hloop;
      set (loop := for_range 0 n body (buf, pixels img)) in *
  end.
  destruct loop as [displayBuffer px]. simpl.
  split; [reflexivity|]. split; [reflexivity|].
  simpl in Hloop. rewrite Hloop; [apply length_replicate | reflexivity |].
  intros frame [buf p] _ Hp. simpl in *. rewrite color_frame_length. exact Hp.
Qed.

End WithMath.

(** A spectrogram of three frames and five bins, and a render call that
    asks for an output of 1000 by 500 pixels. *)
Definition stub_spectrogram : SpectrogramData :=
  {| data := [0; 0; 0; 1; 1; 0; 0; 0; 0.5; 1; 0; 0; 0; 1; 0.25]%Q;
     numFrames := 3; numBins := 5; fftSize := 8; windowSize := 8;
     hopSize := 2; sampleRate := 8%Q; duration := 1.5%Q |}.

Definition stub_render (outputWidth outputHeight : option Z) : RenderOptions :=
  {| r_spectrogram := stub_spectrogram;
     r_colorScale := None;
     r_freqScale := Some scale_linear;
     r_minFreq := Some 1%Q;
     r_maxFreq := Some 4%Q;
     r_frequencyGain := None;
     r_range := None;
     r_downsampleMode := None;
     r_interpolation := None;
     r_outputWidth := outputWidth;
     r_outputHeight := outputHeight |}.

(** C9, evaluated: a render call that supplies [outputWidth = 1000] and
    [outputHeight = 500] for a spectrogram of 3 frames and 5 bins returns
    an image of width 3 and height 5 with 60 bytes; the two options are
    never read, and the result is the same without them. *)
Theorem C9_output_dimensions_ignored :
  let image := renderToImageData (M := stub_math)
                 (stub_render (Some 1000) (Some 500)) in
  width image = 3 /\ height image = 5 /\ length (pixels image) = 60%nat /\
  image = renderToImageData (M := stub_math) (stub_render None None).
Proof. vm_compute. repeat split. Qed.


End RendererFacts.

(** ** Further facts about the generator's result *)

Module SpectrogramFacts.

Import Spectrogram JSFacts Frames Matrix.
Local Open Scope Z_scope.

Section WithMath.
Context {M : MathLib}.

Lemma generateSpectrogram_data_length options d :
  generateSpectrogram options = Ok d ->
  length (data d) = Z.to_nat (numFrames d * numBins d).
Proof.
  unfold generateSpectrogram.
  destruct (default alg_standard (opt_algorithm options));
    match goal with
    | |- context [match ?g with Ok _ => _ | Throw _ => _ end] =>
        destruct g as [[m n]|] eqn:Hg; [|discriminate]
    end; intros [= <-]; simpl.
  - apply generateStandardSpectrogram_ok in Hg. apply Hg.
  - apply generateReassignedSpectrogram_ok in Hg. apply Hg.
Qed.

(** On valid options the result of a successful call is a full matrix:
    [data] has exactly [numFrames * numBins] entries, with at least one
    frame and [numBins = fftSize / 2 + 1], and the record carries the size
    of the transform, the sample rate and [samples.length / sampleRate] as
    the duration.  This holds for both algorithms.  (With a hop size of 0,
    which [valid_options] excludes, the code can return [numFrames = NaN]
    and an empty array.) *)
Theorem spectrogram_is_full_matrix (options : SpectrogramOptions)
  (d : SpectrogramData) :
  valid_options options = true ->
  generateSpectrogram options = Ok d ->
  length (data d) = Z.to_nat (numFrames d * numBins d) /\
  0 < numFrames d /\
  numBins d = ctx_size (opt_fftContext options) / 2 + 1 /\
  fftSize d = ctx_size (opt_fftContext options) /\
  sampleRate d = opt_sampleRate options /\
  duration d
  = (inject_Z (Z.of_nat (length (opt_samples options))) / opt_sampleRate options)%Q.
Proof.
  intros _ Hrun. split; [exact (generateSpectrogram_data_length options d Hrun)|].
  destruct (generateSpectrogram_cases options)
    as [[_ Hthrow] | [Hpos (d' & Hok & HnF & _ & _ & HnB)]];
    [rewrite Hrun in Hthrow; discriminate|].
  rewrite Hrun in Hok. injection Hok as <-.
  split; [lia|]. split; [exact HnB|].
  revert Hrun. unfold generateSpectrogram.
  match goal with
  | |- context [match ?g with Ok _ => _ | Throw _ => _ end] =>
      destruct g as [[m n]|]; [|discriminate]
  end.
  intros [= <-]. simpl. repeat split; reflexivity.
Qed.

(** On valid options the call is rejected exactly when the input has fewer
    samples than one window, [floor (fftSize / zeroPadding)]; the hop size
    and [targetWidth] play no part in it. *)
Theorem too_short_iff_less_than_a_window (options : SpectrogramOptions) :
  valid_options options = true ->
  let windowSize :=
    ctx_size (opt_fftContext options) / default 1 (opt_zeroPadding options) in
  generateSpectrogram options = Throw too_short
  <-> Z.of_nat (length (opt_samples options)) < windowSize.
Proof.
  intros Hvalid windowSize.
  destruct (valid_options_spec options Hvalid) as (_ & _ & _ & Hhop).
  set (L := Z.of_nat (length (opt_samples options)) - windowSize).
  assert (Hdiv : (L / used_hopSize options + 1 <= 0 <-> L < 0)).
  { split; intros H.
    - destruct (Z_lt_le_dec L 0) as [Hneg|Hnn]; [exact Hneg|].
      pose proof (Z.div_pos L (used_hopSize options) Hnn ltac:(lia)). lia.
    - assert (L / used_hopSize options < 0) by (apply Z.div_lt_upper_bound; lia).
      lia. }
  pose proof (generateSpectrogram_cases options) as Hcases.
  cbv zeta in Hcases. unfold frame_count in Hcases.
  change (ctx_size (opt_fftContext options) / default 1 (opt_zeroPadding options))
    with windowSize in Hcases.
  fold L in Hcases.
  destruct Hcases as [[Hn Hthrow] | [Hpos (d' & Hok & _)]].
  - split; [intros _ | intros _; exact Hthrow]. subst L. lia.
  - split; [rewrite Hok; discriminate|]. intros Hshort. subst L. lia.
Qed.

(** The cap on the frame count can miss its target, but never by more than
    a factor of two: with [targetWidth >= 1] a successful call returns at
    most [2 * targetWidth] frames. *)
Theorem frames_at_most_twice_target (options : SpectrogramOptions)
  (d : SpectrogramData) (targetWidth : Z) :
  valid_options options = true ->
  opt_targetWidth options = Some targetWidth -> 1 <= targetWidth ->
  generateSpectrogram options = Ok d ->
  numFrames d <= 2 * targetWidth.
Proof.
  intros Hvalid HT Hpos Hrun.
  destruct (valid_options_spec options Hvalid) as (_ & _ & Hreq & _).
  destruct (generateSpectrogram_cases options)
    as [[_ Hthrow] | [_ (d' & Hok & HnF & _)]];
    [rewrite Hrun in Hthrow; discriminate|].
  rewrite Hrun in Hok. injection Hok as <-. rewrite HnF. clear HnF Hrun.
  unfold used_hopSize. rewrite HT.
  set (ws := ctx_size (opt_fftContext options) / default 1 (opt_zeroPadding options)).
  set (n := Z.of_nat (length (opt_samples options))).
  set (hop := requested_hopSize options) in *.
  unfold effective_hopSize.
  replace (negb (targetWidth =? 0) && (0 <? targetWidth)) with true
    by (symmetry; apply andb_true_iff; split;
        [apply negb_true_iff, Z.eqb_neq | apply Z.ltb_lt]; lia).
  destruct (targetWidth <? frame_count n ws hop) eqn:Hcap;
    [apply Z.ltb_lt in Hcap | apply Z.ltb_ge in Hcap; lia].
  unfold frame_count in *. set (L := n - ws) in *.
  assert (HL : hop <= L).
  { destruct (Z_lt_le_dec L hop) as [Hlt|Hge]; [|exact Hge].
    destruct (Z_lt_le_dec L 0) as [Hneg|Hnn].
    - assert (L / hop < 0) by (apply Z.div_lt_upper_bound; lia). lia.
    - rewrite Z.div_small in Hcap by lia. lia. }
  set (m := L / Z.max 1 (targetWidth - 1)).
  destruct (Z_le_gt_dec targetWidth 1) as [Hone|Htwo].
  - assert (targetWidth = 1) by lia. subst targetWidth.
    subst m. change (Z.max 1 (1 - 1)) with 1. rewrite Z.div_1_r.
    rewrite Z.max_r by lia. rewrite Z.div_same by lia. lia.
  - subst m. rewrite (Z.max_r 1 (targetWidth - 1)) by lia.
    set (m := L / (targetWidth - 1)).
    assert (Hm : (targetWidth - 1) * m <= L < (targetWidth - 1) * (m + 1)).
    { subst m. pose proof (Z.mul_div_le L (targetWidth - 1) ltac:(lia)).
      pose proof (Z.mul_succ_div_gt L (targetWidth - 1) ltac:(lia)). lia. }
    assert (Hm1 : 1 <= m).
    { destruct (Z_lt_le_dec m 1) as [Hm0|]; [|assumption].
      assert (m = 0) by (subst m; pose proof (Z.div_pos L (targetWidth - 1)); lia).
      assert (L / hop <= L) by (apply Z.div_le_upper_bound; nia).
      nia. }
    assert (Hge : m <= Z.max hop m) by lia.
    assert (L / Z.max hop m <= 2 * (targetWidth - 1) - 1); [|lia].
    assert (L / Z.max hop m < 2 * (targetWidth - 1)); [|lia].
    apply Z.div_lt_upper_bound; [lia|]. nia.
Qed.

End WithMath.

Lemma spectrogram_is_full_matrix_witness :
  match generateSpectrogram (M := stub_math)
          (stub_options 12 (Some 2) None (Some alg_reassignment)) with
  | Ok d => length (data d) = Z.to_nat (numFrames d * numBins d) /\
            0 < numFrames d /\ numBins d = 8 / 2 + 1 /\ fftSize d = 8 /\
            sampleRate d = 8%Q /\
            duration d = (inject_Z (Z.of_nat (length (ramp 12))) / 8)%Q
  | Throw _ => False
  end.
Proof.
  destruct (generateSpectrogram (M := stub_math)
              (stub_options 12 (Some 2) None (Some alg_reassignment)))
    as [d|e] eqn:Hrun.
  - exact (spectrogram_is_full_matrix
             (stub_options 12 (Some 2) None (Some alg_reassignment)) d eq_refl
             Hrun).
  - vm_compute in Hrun. discriminate Hrun.
Defined.

Lemma too_short_iff_less_than_a_window_witness :
  generateSpectrogram (M := stub_math) (stub_options 7 None None None)
  = Throw too_short
  <-> Z.of_nat (length (ramp 7)) < 8 / 1.
Proof.
  exact (too_short_iff_less_than_a_window (M := stub_math)
           (stub_options 7 None None None) eq_refl).
Defined.

Lemma frames_at_most_twice_target_witness :
  match generateSpectrogram (M := stub_math)
          (stub_options 58 None (Some 10) None) with
  | Ok d => numFrames d <= 2 * 10
  | Throw _ => False
  end.
Proof.
  destruct (generateSpectrogram (M := stub_math)
              (stub_options 58 None (Some 10) None)) as [d|e] eqn:Hrun.
  - apply (frames_at_most_twice_target (M := stub_math)
             (stub_options 58 None (Some 10) None) d 10 eq_refl eq_refl);
      [lia | exact Hrun].
  - vm_compute in Hrun. discriminate Hrun.
Defined.

End SpectrogramFacts.

(** ** Facts about the frequency-range analysis *)

Module AnalysisFacts.

Import Spectrogram JSFacts Analysis.
Local Open Scope Z_scope.

Lemma for_down_ind {S : Type} (P : S -> Prop) (hi lo : Z)
  (body : Z -> S -> S) (s : S) :
  P s ->
  (forall i s, lo < i <= hi -> P s -> P (body i s)) ->
  P (for_down hi lo body s).
Proof.
  intros H0 Hstep. unfold for_down.
  assert (Hall : forall k, In k (seq 0 (Z.to_nat (hi - lo))) ->
                           lo < hi - Z.of_nat k <= hi).
  { intros k Hk. apply in_seq in Hk. lia. }
  revert s H0 Hall. induction (seq 0 (Z.to_nat (hi - lo))) as [|k ks IH];
    intros s H0 Hall; simpl; [exact H0|].
  apply IH.
  - apply Hstep; [apply Hall; left; reflexivity | exact H0].
  - intros k' Hk'. apply Hall. right. exact Hk'.
Qed.

Lemma Math_max_le_l (a b : Q) : (a <= Math_max a b)%Q.
Proof.
  unfold Math_max. destruct (Qltb a b) eqn:H; [|apply Qle_refl].
  apply Qltb_lt in H. apply Qlt_le_weak, H.
Qed.

Lemma Math_max_le_r (a b : Q) : (b <= Math_max a b)%Q.
Proof.
  unfold Math_max. destruct (Qltb a b) eqn:H; [apply Qle_refl|].
  apply Qltb_ge in H. exact H.
Qed.

Lemma Math_max_lub (a b c : Q) : (a <= c)%Q -> (b <= c)%Q -> (Math_max a b <= c)%Q.
Proof. intros Ha Hb. unfold Math_max. destruct (Qltb a b); assumption. Qed.

Lemma Math_min_glb (a b c : Q) : (c <= a)%Q -> (c <= b)%Q -> (c <= Math_min a b)%Q.
Proof. intros Ha Hb. unfold Math_min. destruct (Qltb b a); assumption. Qed.

(** The peak search returns a bin below [numBins], and energy 0 only when
    no bin has positive average energy. *)
Lemma findPeak_spec (avgEnergy : list Q) (numBins : Z) :
  let '(maxEnergy, peakBin) := findPeak avgEnergy numBins in
  (0 <= maxEnergy)%Q /\
  (0 <= peakBin) /\ (peakBin < numBins \/ peakBin = 0) /\
  (forall bin, 0 <= bin < numBins -> (f32_get avgEnergy bin <= maxEnergy)%Q).
Proof.
  unfold findPeak.
  assert (Hgen : forall n, 0 <= n ->
    let '(maxEnergy, peakBin) :=
      for_range 0 n
        (fun bin '(maxEnergy, peakBin) =>
           if Qltb maxEnergy (f32_get avgEnergy bin)
           then (f32_get avgEnergy bin, bin)
           else (maxEnergy, peakBin))
        (0%Q, 0) in
    (0 <= maxEnergy)%Q /\ 0 <= peakBin /\ (peakBin < n \/ peakBin = 0) /\
    (forall bin, 0 <= bin < n -> (f32_get avgEnergy bin <= maxEnergy)%Q)).
  { intros n Hn. pattern n. apply natlike_ind; [| |exact Hn].
    - rewrite for_range_empty by lia.
      refine (conj (Qle_refl 0) (conj _ (conj _ _))); [lia | lia | intros; lia].
    - intros k Hk IH. change (Z.succ k) with (k + 1).
      replace (Z.succ k) with (k + 1) by lia.
      rewrite for_range_succ by lia.
      destruct (for_range 0 k _ _) as [m p].
      destruct IH as (Hm & Hp & Hlt & Hall).
      destruct (Qltb m (f32_get avgEnergy k)) eqn:Hcmp.
      + apply Qltb_lt in Hcmp.
        refine (conj _ (conj _ (conj _ _))); [|lia|lia|].
        * apply Qle_trans with m; [exact Hm | apply Qlt_le_weak, Hcmp].
        * intros bin Hbin. destruct (Z.eq_dec bin k) as [->|Hne];
            [apply Qle_refl|].
          apply Qle_trans with m; [apply Hall; lia | apply Qlt_le_weak, Hcmp].
      + apply Qltb_ge in Hcmp.
        refine (conj Hm (conj _ (conj _ _))); [lia|lia|].
        intros bin Hbin. destruct (Z.eq_dec bin k) as [->|Hne];
          [exact Hcmp | apply Hall; lia]. }
  destruct (Z_le_gt_dec 0 numBins) as [Hn|Hn]; [apply Hgen, Hn|].
  rewrite for_range_empty by lia.
  refine (conj (Qle_refl 0) (conj _ (conj _ _))); [lia | lia | intros; lia].
Qed.

Lemma findMinBin_bounds (avgEnergy : list Q) (threshold : Q) (peakBin : Z) :
  3 <= findMinBin avgEnergy threshold peakBin /\
  (findMinBin avgEnergy threshold peakBin < peakBin
   \/ findMinBin avgEnergy threshold peakBin = 3).
Proof.
  unfold findMinBin.
  apply (for_range_ind
           (fun st : Z * bool => 3 <= fst st /\ (fst st < peakBin \/ fst st = 3))).
  - simpl. lia.
  - intros bin [minBin found] Hbin IH. simpl in *.
    destruct found; [exact IH|].
    destruct (Qltb threshold (f32_get avgEnergy bin)); simpl; lia.
Qed.

Lemma findMaxBin_bounds (avgEnergy : list Q) (threshold : Q)
  (numBins peakBin : Z) :
  findMaxBin avgEnergy threshold numBins peakBin <= numBins - 1 /\
  (peakBin < findMaxBin avgEnergy threshold numBins peakBin
   \/ findMaxBin avgEnergy threshold numBins peakBin = numBins - 1).
Proof.
  unfold findMaxBin.
  apply (for_down_ind
           (fun st : Z * bool =>
              fst st <= numBins - 1 /\ (peakBin < fst st \/ fst st = numBins - 1))).
  - simpl. lia.
  - intros bin [maxBin found] Hbin IH. simpl in *.
    destruct found; [exact IH|].
    destruct (Qltb threshold (f32_get avgEnergy bin)); simpl; lia.
Qed.

Lemma binToHz_mono (numBins : Z) (nyquist : Q) (i j : Z) :
  2 <= numBins -> (0 <= nyquist)%Q -> i <= j ->
  (binToHz numBins nyquist i <= binToHz numBins nyquist j)%Q.
Proof.
  intros Hn Hny Hij. unfold binToHz.
  apply Qmult_le_compat_r; [|exact Hny].
  apply Qmult_le_compat_r.
  - rewrite <- Zle_Qle. exact Hij.
  - apply Qinv_le_0_compat. change 0%Q with (inject_Z 0). rewrite <- Zle_Qle. lia.
Qed.

Lemma binToHz_le_nyquist (numBins : Z) (nyquist : Q) (i : Z) :
  2 <= numBins -> (0 <= nyquist)%Q -> i <= numBins - 1 ->
  (binToHz numBins nyquist i <= nyquist)%Q.
Proof.
  intros Hn Hny Hi.
  eapply Qle_trans; [apply (binToHz_mono numBins nyquist i (numBins - 1)); assumption|].
  unfold binToHz.
  assert (H1 : (inject_Z (numBins - 1) / inject_Z (numBins - 1) == 1)%Q).
  { field. unfold Qeq. simpl. lia. }
  rewrite H1, Qmult_1_l. apply Qle_refl.
Qed.

Lemma floor_step_le (x : Q) (step : Z) :
  0 < step ->
  (inject_Z (Qfloor (x / inject_Z step)) * inject_Z step <= x)%Q.
Proof.
  intros Hs.
  assert (Hpos : (0 < inject_Z step)%Q)
    by (change 0%Q with (inject_Z 0); rewrite <- Zlt_Qlt; exact Hs).
  apply Qle_trans with (x / inject_Z step * inject_Z step)%Q.
  - apply Qmult_le_compat_r; [apply Qfloor_le | apply Qlt_le_weak, Hpos].
  - assert (H : (x / inject_Z step * inject_Z step == x)%Q)
      by (field; intros H; rewrite H in Hpos; discriminate Hpos).
    rewrite H. apply Qle_refl.
Qed.

Lemma ceiling_step_ge (x : Q) (step : Z) :
  0 < step ->
  (x <= inject_Z (Qceiling (x / inject_Z step)) * inject_Z step)%Q.
Proof.
  intros Hs.
  assert (Hpos : (0 < inject_Z step)%Q)
    by (change 0%Q with (inject_Z 0); rewrite <- Zlt_Qlt; exact Hs).
  apply Qle_trans with (x / inject_Z step * inject_Z step)%Q.
  - assert (H : (x / inject_Z step * inject_Z step == x)%Q)
      by (field; intros H; rewrite H in Hpos; discriminate Hpos).
    rewrite H. apply Qle_refl.
  - apply Qmult_le_compat_r; [apply Qle_ceiling | apply Qlt_le_weak, Hpos].
Qed.

Lemma f32_get_all_zero (a : list Q) (i : Z) :
  Forall (fun v => v == 0)%Q a -> (f32_get a i == 0)%Q.
Proof.
  intros Ha. unfold f32_get. destruct (i <? 0); [reflexivity|].
  destruct (a !! Z.to_nat i) as [v|] eqn:Hv; simpl; [|reflexivity].
  rewrite Forall_lookup in Ha. exact (Ha _ _ Hv).
Qed.

Lemma f32_set_all_zero (a : list Q) (i : Z) (v : Q) :
  Forall (fun v => v == 0)%Q a -> (v == 0)%Q ->
  Forall (fun v => v == 0)%Q (f32_set a i v).
Proof.
  intros Ha Hv. unfold f32_set. destruct (i <? 0); [exact Ha|].
  apply Forall_insert; assumption.
Qed.

Lemma averageEnergy_silent (spectrogram : SpectrogramData) :
  Forall (fun v => v == 0)%Q (data spectrogram) ->
  Forall (fun v => v == 0)%Q (averageEnergy spectrogram).
Proof.
  intros Hdata. unfold averageEnergy.
  apply (for_range_ind (Forall (fun v => v == 0)%Q)).
  - unfold f32_new. apply Forall_replicate. reflexivity.
  - intros bin avg _ Havg. apply f32_set_all_zero; [exact Havg|].
    assert (Hsum :
      (for_range 0 (numFrames spectrogram)
         (fun frame sum =>
            (sum + f32_get (data spectrogram)
                     (frame * numBins spectrogram + bin))%Q) 0 == 0)%Q).
    { apply (for_range_ind (fun s : Q => s == 0)%Q); [reflexivity|].
      intros frame s _ Hs. rewrite Hs, (f32_get_all_zero _ _ Hdata). reflexivity. }
    rewrite Hsum. unfold Qdiv. apply Qmult_0_l.
Qed.

(** A spectrogram without energy gets the default range: 20 Hz up to the
    Nyquist frequency. *)
Theorem silent_spectrogram_gets_default_range (spectrogram : SpectrogramData) :
  Forall (fun v => v == 0)%Q (data spectrogram) ->
  analyzeFrequencyRange spectrogram
  = {| minFreq := 20; maxFreq := (sampleRate spectrogram / 2)%Q |}.
Proof.
  intros Hdata. unfold analyzeFrequencyRange.
  pose proof (averageEnergy_silent spectrogram Hdata) as Havg.
  assert (Hpeak : findPeak (averageEnergy spectrogram) (numBins spectrogram)
                  = (0%Q, 0)).
  { unfold findPeak.
    apply (for_range_ind (fun st : Q * Z => st = (0%Q, 0))); [reflexivity|].
    intros bin st _ ->.
    destruct (Qltb 0 (f32_get (averageEnergy spectrogram) bin)) eqn:Hcmp;
      [|reflexivity].
    apply Qltb_lt in Hcmp. rewrite (f32_get_all_zero _ _ Havg) in Hcmp.
    discriminate Hcmp. }
  rewrite Hpeak. reflexivity.
Qed.

(** With at least two bins, the suggested range never starts below 20 Hz,
    its lower end is a multiple of 10 Hz, and unless the spectrogram has no
    energy (where the range is 20 Hz to Nyquist) it is at least 500 Hz
    wide. *)
Theorem suggested_range_bounds (spectrogram : SpectrogramData) :
  2 <= numBins spectrogram ->
  let range := analyzeFrequencyRange spectrogram in
  (20 <= minFreq range)%Q /\
  (exists k : Z, minFreq range == inject_Z (10 * k))%Q /\
  (range = {| minFreq := 20; maxFreq := (sampleRate spectrogram / 2)%Q |}
   \/ (minFreq range + 500 <= maxFreq range)%Q).
Proof.
  intros _. unfold analyzeFrequencyRange.
  destruct (findPeak _ _) as [maxEnergy peakBin].
  destruct (Qeq_bool maxEnergy 0); cbv zeta.
  - simpl. split; [apply Qle_refl|]. split; [exists 2; reflexivity|].
    left. reflexivity.
  - cbn [minFreq maxFreq].
    split; [apply Math_max_le_l|]. split; [|right; apply Math_max_le_l].
    match goal with
    | |- context [Math_max 20 (inject_Z ?f * 10)%Q] =>
        unfold Math_max; destruct (Qltb 20 (inject_Z f * 10)%Q);
          [exists f | exists 2; reflexivity]
    end.
    rewrite inject_Z_mult. change (inject_Z 10) with 10%Q. ring.
Qed.

(** When the strongest bin is not one of the three skipped DC bins and its
    frequency is at least 20 Hz, the suggested range contains that
    frequency. *)
Theorem suggested_range_contains_peak (spectrogram : SpectrogramData) :
  let numBins := numBins spectrogram in
  let nyquist := (sampleRate spectrogram / 2)%Q in
  let peak := findPeak (averageEnergy spectrogram) numBins in
  let peakHz := binToHz numBins nyquist (snd peak) in
  let range := analyzeFrequencyRange spectrogram in
  2 <= numBins -> (0 <= sampleRate spectrogram)%Q ->
  ~ (fst peak == 0)%Q -> 3 <= snd peak -> (20 <= peakHz)%Q ->
  (minFreq range <= peakHz <= maxFreq range)%Q.
Proof.
  intros numBins nyquist peak peakHz range Hn Hrate Hloud Hpeak Hhz.
  assert (Hny : (0 <= nyquist)%Q).
  { subst nyquist. apply Qle_shift_div_l; [reflexivity|].
    rewrite Qmult_0_l. exact Hrate. }
  pose proof (findPeak_spec (averageEnergy spectrogram) numBins) as Hspec.
  subst range. unfold analyzeFrequencyRange.
  fold numBins. fold nyquist. subst peakHz. subst peak.
  destruct (findPeak (averageEnergy spectrogram) numBins)
    as [maxEnergy peakBin].
  simpl in Hloud, Hpeak, Hhz. simpl snd.
  destruct Hspec as (_ & _ & Hlt & _).
  destruct (Qeq_bool maxEnergy 0) eqn:Hzero;
    [apply Qeq_bool_iff in Hzero; contradiction|].
  cbv zeta. cbn [minFreq maxFreq].
  set (threshold := energyThreshold _ _ _).
  pose proof (findMinBin_bounds (averageEnergy spectrogram) threshold peakBin)
    as [Hmin3 Hmin].
  pose proof (findMaxBin_bounds (averageEnergy spectrogram) threshold numBins
                peakBin) as [HmaxTop Hmax].
  set (minBin := findMinBin _ _ _) in *.
  set (maxBin := findMaxBin _ _ _ _) in *.
  split.
  - apply Math_max_lub; [exact Hhz|].
    eapply Qle_trans; [apply (floor_step_le _ 10); lia|].
    apply binToHz_mono; [exact Hn | exact Hny | lia].
  - eapply Qle_trans; [|apply Math_max_le_r].
    apply Math_min_glb.
    + apply binToHz_le_nyquist; [exact Hn | exact Hny | lia].
    + eapply Qle_trans; [|apply (ceiling_step_ge _ 100); lia].
      apply binToHz_mono; [exact Hn | exact Hny | lia].
Qed.

(** Three frames of five bins at 44.1 kHz with the energy in bins 3 and 4,
    and a silent one. *)
Definition tone_spectrogram : SpectrogramData :=
  {| data := [0; 0; 0; 1; 0.5; 0; 0; 0; 0.5; 0.25; 0; 0; 0; 1; 0.25]%Q;
     numFrames := 3; numBins := 5; fftSize := 8; windowSize := 8;
     hopSize := 2; sampleRate := 44100%Q; duration := 1%Q |}.

Definition silent_spectrogram : SpectrogramData :=
  {| data := replicate 15 0%Q;
     numFrames := 3; numBins := 5; fftSize := 8; windowSize := 8;
     hopSize := 2; sampleRate := 44100%Q; duration := 1%Q |}.

Lemma silent_spectrogram_gets_default_range_witness :
  analyzeFrequencyRange silent_spectrogram
  = {| minFreq := 20; maxFreq := (44100 / 2)%Q |}.
Proof.
  apply (silent_spectrogram_gets_default_range silent_spectrogram).
  apply Forall_replicate. reflexivity.
Defined.

Lemma suggested_range_bounds_witness :
  let range := analyzeFrequencyRange tone_spectrogram in
  (20 <= minFreq range)%Q /\
  (exists k : Z, minFreq range == inject_Z (10 * k))%Q /\
  (range = {| minFreq := 20; maxFreq := (44100 / 2)%Q |}
   \/ (minFreq range + 500 <= maxFreq range)%Q).
Proof. apply (suggested_range_bounds tone_spectrogram). simpl. lia. Defined.

Lemma suggested_range_contains_peak_witness :
  let range := analyzeFrequencyRange tone_spectrogram in
  (minFreq range <= binToHz 5 (44100 / 2) 3 <= maxFreq range)%Q.
Proof.
  apply (suggested_range_contains_peak tone_spectrogram).
  - simpl. lia.
  - discriminate.
  - vm_compute. discriminate.
  - vm_compute. discriminate.
  - vm_compute. discriminate.
Defined.

End AnalysisFacts.

(** ** Sampling and remapping a spectrum *)

Module ResampleFacts.

Import Spectrogram FrequencyMapping ColorScales Renderer JSFacts RendererFacts
  Resample.
Local Open Scope Z_scope.

Lemma for_range_ext {S : Type} (lo hi : Z) (f g : Z -> S -> S) (s : S) :
  (forall i s, lo <= i < hi -> f i s = g i s) ->
  for_range lo hi f s = for_range lo hi g s.
Proof.
  intros Hfg. unfold for_range.
  assert (Hall : forall k, In k (seq 0 (Z.to_nat (hi - lo))) ->
                           lo <= lo + Z.of_nat k < hi).
  { intros k Hk. apply in_seq in Hk. lia. }
  revert s Hall. induction (seq 0 (Z.to_nat (hi - lo))) as [|k ks IH];
    intros s Hall; simpl; [reflexivity|].
  rewrite Hfg by (apply Hall; left; reflexivity).
  apply IH. intros k' Hk'. apply Hall. right. exact Hk'.
Qed.

Lemma f32_get_Forall (P : Q -> Prop) (a : list Q) (i : Z) :
  Forall P a -> 0 <= i < Z.of_nat (length a) -> P (f32_get a i).
Proof.
  intros Ha Hi. unfold f32_get.
  destruct (i <? 0) eqn:Hneg; [apply Z.ltb_lt in Hneg; lia|].
  destruct (a !! Z.to_nat i) as [v|] eqn:Hv; simpl.
  - rewrite Forall_lookup in Ha. exact (Ha _ _ Hv).
  - apply lookup_ge_None in Hv. lia.
Qed.

Lemma f32_get_Forall_default (P : Q -> Prop) (a : list Q) (i : Z) :
  Forall P a -> P 0%Q -> P (f32_get a i).
Proof.
  intros Ha H0. unfold f32_get. destruct (i <? 0); [exact H0|].
  destruct (a !! Z.to_nat i) as [v|] eqn:Hv; simpl; [|exact H0].
  rewrite Forall_lookup in Ha. exact (Ha _ _ Hv).
Qed.

Lemma clamp_index_range (len idx : Z) :
  0 < len -> 0 <= clamp_index len idx < len.
Proof. unfold clamp_index. lia. Qed.

Lemma clamp_index_inside (len idx : Z) :
  0 <= idx < len -> clamp_index len idx = idx.
Proof. unfold clamp_index. lia. Qed.

Lemma Math_round_Z (k : Z) : Math_round (inject_Z k) = k.
Proof.
  unfold Math_round.
  assert (Hlo : (inject_Z k <= inject_Z k + 0.5)%Q) by lra.
  assert (Hhi : (inject_Z k + 0.5 < inject_Z (k + 1))%Q).
  { rewrite inject_Z_plus. change (inject_Z 1) with 1%Q. lra. }
  apply Qfloor_resp_le in Hlo. rewrite Qfloor_Z in Hlo.
  assert (Qfloor (inject_Z k + 0.5) < k + 1); [|lia].
  rewrite Zlt_Qlt. eapply Qle_lt_trans; [apply Qfloor_le | exact Hhi].
Qed.

Lemma frac_range (pos : Q) :
  (0 <= pos - inject_Z (Qfloor pos) < 1)%Q.
Proof.
  pose proof (Qfloor_le pos). pose proof (Qlt_floor pos) as Hlt.
  rewrite inject_Z_plus in Hlt. change (inject_Z 1) with 1%Q in Hlt.
  split; lra.
Qed.

Lemma Math_max_0_nonneg (x : Q) : (0 <= Math_max 0 x)%Q.
Proof.
  unfold Math_max. destruct (Qltb 0 x) eqn:H; [|apply Qle_refl].
  apply Qltb_lt in H. apply Qlt_le_weak, H.
Qed.

Lemma Math_max_0_compat (x y : Q) : (x == y)%Q -> (Math_max 0 x == Math_max 0 y)%Q.
Proof.
  intros Hxy. unfold Math_max.
  destruct (Qltb 0 x) eqn:Hx, (Qltb 0 y) eqn:Hy; try exact Hxy; try reflexivity.
  - apply Qltb_lt in Hx. apply Qltb_ge in Hy. rewrite Hxy in Hx.
    exfalso. apply (Qlt_not_le _ _ Hx Hy).
  - apply Qltb_lt in Hy. apply Qltb_ge in Hx. rewrite Hxy in Hx.
    exfalso. apply (Qlt_not_le _ _ Hy Hx).
Qed.

(** Sampled exactly at a bin of the spectrum, nearest and linear
    interpolation return the value of that bin, and cubic interpolation
    returns it clamped at 0. *)
Theorem sampleSpectrum_at_a_bin (spectrum : list Q) (k : Z) :
  0 <= k < Z.of_nat (length spectrum) ->
  sampleSpectrum spectrum (inject_Z k) interp_nearest = f32_get spectrum k /\
  (sampleSpectrum spectrum (inject_Z k) interp_linear == f32_get spectrum k)%Q /\
  (sampleSpectrum spectrum (inject_Z k) interp_cubic
   == Math_max 0 (f32_get spectrum k))%Q.
Proof.
  intros Hk. unfold sampleSpectrum.
  rewrite Math_round_Z, Qfloor_Z, !(clamp_index_inside _ k Hk).
  split; [reflexivity|]. split.
  - ring.
  - apply Math_max_0_compat. unfold cubicInterpolate. ring.
Qed.

Lemma sampleSpectrum_range (spectrum : list Q) (pos lo hi : Q)
  (interpolation : InterpolationMode) :
  spectrum <> [] -> interpolation <> interp_cubic ->
  Forall (fun v => lo <= v <= hi)%Q spectrum ->
  (lo <= sampleSpectrum spectrum pos interpolation <= hi)%Q.
Proof.
  intros Hne Hinterp Hall.
  assert (Hlen : 0 < Z.of_nat (length spectrum))
    by (destruct spectrum; [congruence | simpl; lia]).
  unfold sampleSpectrum. destruct interpolation; [| |congruence].
  - apply (f32_get_Forall (fun v => lo <= v <= hi)%Q); [exact Hall|].
    apply clamp_index_range, Hlen.
  - pose proof (f32_get_Forall (fun v => lo <= v <= hi)%Q spectrum
                  (clamp_index (Z.of_nat (length spectrum)) (Qfloor pos)) Hall
                  (clamp_index_range _ _ Hlen)) as H0.
    pose proof (f32_get_Forall (fun v => lo <= v <= hi)%Q spectrum
                  (clamp_index (Z.of_nat (length spectrum)) (Qfloor pos + 1)) Hall
                  (clamp_index_range _ _ Hlen)) as H1.
    pose proof (frac_range pos) as Hf. simpl in H0, H1.
    set (s0 := f32_get spectrum _) in *. set (s1 := f32_get spectrum _) in *.
    set (f := (pos - inject_Z (Qfloor pos))%Q) in *.
    split; nra.
Qed.

(** With nearest or linear interpolation a sample of a non-empty spectrum
    lies between the bounds of the spectrum's values, at every position,
    also outside the spectrum; with cubic interpolation it is never
    negative. *)
Theorem sampleSpectrum_stays_in_range (spectrum : list Q) (pos lo hi : Q) :
  spectrum <> [] ->
  Forall (fun v => lo <= v <= hi)%Q spectrum ->
  (lo <= sampleSpectrum spectrum pos interp_nearest <= hi)%Q /\
  (lo <= sampleSpectrum spectrum pos interp_linear <= hi)%Q /\
  (0 <= sampleSpectrum spectrum pos interp_cubic)%Q.
Proof.
  intros Hne Hall. split; [|split].
  - apply sampleSpectrum_range; [exact Hne | discriminate | exact Hall].
  - apply sampleSpectrum_range; [exact Hne | discriminate | exact Hall].
  - apply Math_max_0_nonneg.
Qed.

Lemma remap_bin_nearest (spectrum freqMapping : list Q) (displayBins : Z)
  (interpolation : InterpolationMode) (i : Z) :
  remap_bin spectrum freqMapping displayBins ds_nearest interpolation i
  = sampleSpectrum spectrum (f32_get freqMapping i) interpolation.
Proof.
  unfold remap_bin. destruct (source_range _ _ _ _). reflexivity.
Qed.

Lemma remap_bin_max_ge_sample (spectrum freqMapping : list Q) (displayBins : Z)
  (interpolation : InterpolationMode) (i : Z) :
  (sampleSpectrum spectrum (f32_get freqMapping i) interpolation
   <= remap_bin spectrum freqMapping displayBins ds_max interpolation i)%Q.
Proof.
  unfold remap_bin. destruct (source_range _ _ _ _) as [s e].
  destruct (_ <=? _); [apply Qle_refl|].
  unfold for_range.
  match goal with
  | |- (?m0 <= fold_left _ ?ks _)%Q =>
      destruct (running_max_ge (f32_get spectrum) ks (ToInt32 s) m0) as [Hge _]
  end.
  exact Hge.
Qed.

Lemma remap_length (spectrum freqMapping : list Q) (displayBins : Z)
  (downsampleMode : DownsampleMode) (interpolation : InterpolationMode)
  (output : list Q) :
  length (remapSpectrumWithDownsample spectrum freqMapping displayBins
            downsampleMode interpolation output) = length output.
Proof.
  unfold remapSpectrumWithDownsample.
  apply (for_range_ind (fun a => length a = length output)); [reflexivity|].
  intros i a _ Ha. rewrite f32_set_length. exact Ha.
Qed.

Lemma remap_entry (spectrum freqMapping : list Q) (displayBins : Z)
  (downsampleMode : DownsampleMode) (interpolation : InterpolationMode)
  (output : list Q) (i : Z) :
  0 <= i < displayBins -> i < Z.of_nat (length output) ->
  f32_get (remapSpectrumWithDownsample spectrum freqMapping displayBins
             downsampleMode interpolation output) i
  = remap_bin spectrum freqMapping displayBins downsampleMode interpolation i.
Proof.
  intros Hi Hlen. unfold remapSpectrumWithDownsample.
  apply (for_range_fill
           (remap_bin spectrum freqMapping displayBins downsampleMode
              interpolation)); assumption.
Qed.

(** For every display bin, the "max" downsample mode stores at least what
    the "nearest" downsample mode stores with the same interpolation, and
    the latter is the plain sample at the mapped position. *)
Theorem max_mode_never_below_plain_sampling (spectrum freqMapping : list Q)
  (displayBins : Z) (interpolation : InterpolationMode)
  (outputMax outputNearest : list Q) (i : Z) :
  0 <= i < displayBins ->
  i < Z.of_nat (length outputMax) -> i < Z.of_nat (length outputNearest) ->
  f32_get
    (remapSpectrumWithDownsample spectrum freqMapping displayBins
       ds_nearest interpolation outputNearest) i
  = sampleSpectrum spectrum (f32_get freqMapping i) interpolation /\
  (f32_get
     (remapSpectrumWithDownsample spectrum freqMapping displayBins
        ds_nearest interpolation outputNearest) i
   <= f32_get
        (remapSpectrumWithDownsample spectrum freqMapping displayBins
           ds_max interpolation outputMax) i)%Q.
Proof.
  intros Hi HM HN. rewrite !remap_entry by assumption.
  rewrite remap_bin_nearest. split; [reflexivity|].
  apply remap_bin_max_ge_sample.
Qed.

Lemma source_range_start_le (freqMapping : list Q) (displayBins specLen i : Z)
  (B : Q) :
  (0 <= B)%Q -> Forall (fun m => 0 <= m <= B)%Q freqMapping ->
  (fst (source_range freqMapping displayBins specLen i) <= B)%Q.
Proof.
  intros HB Hmap.
  assert (Hget : forall j, (0 <= f32_get freqMapping j <= B)%Q).
  { intros j. apply (f32_get_Forall_default (fun m => 0 <= m <= B)%Q);
      [exact Hmap | split; [apply Qle_refl | exact HB]]. }
  unfold source_range.
  pose proof (Hget i) as Hi. pose proof (Hget (i - 1)) as Hp.
  set (srcBin := f32_get freqMapping i) in *.
  set (prev := f32_get freqMapping (i - 1)) in *.
  assert (Hstart : forall s e : Q, (s <= B)%Q ->
            (fst (let srcBinStart := if Qltb s 0 then 0%Q else s in
                  let srcBinEnd :=
                    if Qltb (inject_Z (specLen - 1)) e
                    then inject_Z (specLen - 1) else e in
                  (srcBinStart, srcBinEnd)) <= B)%Q).
  { intros s e Hs. simpl. destruct (Qltb s 0); assumption. }
  destruct (i =? 0); [apply Hstart; lra|].
  destruct (i =? displayBins - 1); apply Hstart; lra.
Qed.

Lemma remap_bin_range (spectrum freqMapping : list Q) (displayBins : Z)
  (downsampleMode : DownsampleMode) (interpolation : InterpolationMode)
  (i : Z) (lo hi : Q) :
  let specLen := Z.of_nat (length spectrum) in
  spectrum <> [] -> specLen < 2 ^ 31 -> interpolation <> interp_cubic ->
  Forall (fun v => lo <= v <= hi)%Q spectrum ->
  Forall (fun m => 0 <= m <= inject_Z (specLen - 1))%Q freqMapping ->
  (lo <= remap_bin spectrum freqMapping displayBins downsampleMode
           interpolation i <= hi)%Q.
Proof.
  intros specLen Hne Hbig Hinterp Hall Hmap.
  assert (Hlen : 0 < specLen)
    by (subst specLen; destruct spectrum; [congruence | simpl; lia]).
  pose proof (sampleSpectrum_range spectrum (f32_get freqMapping i) lo hi
                interpolation Hne Hinterp Hall) as Hsample.
  assert (HB : (0 <= inject_Z (specLen - 1))%Q)
    by (change 0%Q with (inject_Z 0); rewrite <- Zle_Qle; lia).
  pose proof (source_range_start_le freqMapping displayBins specLen i _ HB Hmap)
    as Hstart.
  destruct (source_range_bounds freqMapping displayBins specLen i) as [Hstart0 _].
  unfold remap_bin. fold specLen.
  destruct (source_range freqMapping displayBins specLen i) as [s e].
  simpl in Hstart, Hstart0.
  assert (HbinLow : 0 <= ToInt32 s).
  { rewrite ToInt32_floor; [| exact Hstart0 |].
    - change 0 with (Qfloor 0). apply Qfloor_resp_le. exact Hstart0.
    - eapply Qle_lt_trans; [exact Hstart|]. rewrite <- Zlt_Qlt. lia. }
  assert (Hread : forall j, ToInt32 s <= j < Z.min (ToInt32 (e + 1) + 1) specLen ->
                            (lo <= f32_get spectrum j <= hi)%Q).
  { intros j Hj. apply (f32_get_Forall (fun v => lo <= v <= hi)%Q);
      [exact Hall | fold specLen; lia]. }
  destruct downsampleMode.
  - destruct (_ <=? _); [exact Hsample|].
    apply (for_range_ind (fun m : Q => lo <= m <= hi)%Q); [exact Hsample|].
    intros j m Hj Hm. cbv zeta. destruct (Qltb m (f32_get spectrum j));
      [apply Hread; exact Hj | exact Hm].
  - destruct (_ <=? _); [exact Hsample|].
    match goal with
    | |- context [for_range ?a ?b ?body ?init] =>
        pose proof (for_range_ind
          (fun st : Q * Z =>
             1 <= snd st /\
             (lo * inject_Z (snd st) <= fst st <= hi * inject_Z (snd st))%Q)
          a b body init) as Hloop;
        destruct (for_range a b body init) as [sum count]
    end.
    simpl in Hloop.
    destruct Hloop as [Hcount Hsum].
    + split; [lia|]. change (inject_Z 1) with 1%Q. lra.
    + intros j [sm c] Hj [Hc Hs]. simpl in *.
      pose proof (Hread j Hj) as Hv. split; [lia|].
      rewrite inject_Z_plus. change (inject_Z 1) with 1%Q. lra.
    + assert (Hpos : (0 < inject_Z count)%Q)
        by (change 0%Q with (inject_Z 0); rewrite <- Zlt_Qlt; lia).
      split.
      * apply Qle_shift_div_l; [exact Hpos | apply Hsum].
      * apply Qle_shift_div_r; [exact Hpos | apply Hsum].
  - exact Hsample.
Qed.

(** Remapping keeps values within the bounds of the spectrum: for a
    non-empty spectrum and a mapping whose entries are bin positions of it,
    every entry of the remapped buffer lies between the bounds of the
    spectrum's values, in each downsample mode, with nearest or linear
    interpolation. *)
Theorem remapped_values_stay_in_range (spectrum freqMapping : list Q)
  (displayBins : Z) (downsampleMode : DownsampleMode)
  (interpolation : InterpolationMode) (output : list Q) (lo hi : Q) :
  let specLen := Z.of_nat (length spectrum) in
  spectrum <> [] -> specLen < 2 ^ 31 -> interpolation <> interp_cubic ->
  Forall (fun v => lo <= v <= hi)%Q spectrum ->
  Forall (fun m => 0 <= m <= inject_Z (specLen - 1))%Q freqMapping ->
  length output = Z.to_nat displayBins ->
  Forall (fun v => lo <= v <= hi)%Q
    (remapSpectrumWithDownsample spectrum freqMapping displayBins
       downsampleMode interpolation output).
Proof.
  intros specLen Hne Hbig Hinterp Hall Hmap Hout.
  apply Forall_lookup. intros k v Hk.
  assert (Hlt : (k < length output)%nat).
  { rewrite <- (remap_length spectrum freqMapping displayBins downsampleMode
                  interpolation output).
    apply lookup_lt_Some in Hk. exact Hk. }
  rewrite <- (f32_get_lookup _ _ _ Hk).
  rewrite remap_entry by lia.
  apply remap_bin_range; assumption.
Qed.

(** On a mapping whose entries are bin positions of a non-empty spectrum,
    the exported [remapSpectrum] computes what
    [remapSpectrumWithDownsample] computes in "nearest" downsample mode with
    linear interpolation into a fresh buffer. *)
Theorem remapSpectrum_is_linear_sampling (spectrum mapping : list Q)
  (displayBins : Z) :
  let specLen := Z.of_nat (length spectrum) in
  spectrum <> [] ->
  Forall (fun m => 0 <= m <= inject_Z (specLen - 1))%Q mapping ->
  (Z.to_nat displayBins <= length mapping)%nat ->
  remapSpectrum spectrum mapping displayBins
  = remapSpectrumWithDownsample spectrum mapping displayBins ds_nearest
      interp_linear (f32_new displayBins).
Proof.
  intros specLen Hne Hmap _.
  assert (Hlen : 0 < specLen)
    by (subst specLen; destruct spectrum; [congruence | simpl; lia]).
  unfold remapSpectrum, remapSpectrumWithDownsample.
  apply for_range_ext. intros i a Hi. cbv zeta.
  rewrite remap_bin_nearest. unfold sampleSpectrum. fold specLen.
  assert (Hsrc : (0 <= f32_get mapping i <= inject_Z (specLen - 1))%Q).
  { apply (f32_get_Forall_default
             (fun m => 0 <= m <= inject_Z (specLen - 1))%Q); [exact Hmap|].
    split; [apply Qle_refl|].
    change 0%Q with (inject_Z 0); rewrite <- Zle_Qle; lia. }
  set (srcBin := f32_get mapping i) in *.
  assert (Hidx : 0 <= Qfloor srcBin <= specLen - 1).
  { split.
    - change 0 with (Qfloor 0). apply Qfloor_resp_le. apply Hsrc.
    - rewrite <- (Qfloor_Z (specLen - 1)). apply Qfloor_resp_le. apply Hsrc. }
  rewrite clamp_index_inside by lia.
  replace (clamp_index specLen (Qfloor srcBin + 1))
    with (Z.min (Qfloor srcBin + 1) (specLen - 1))
    by (unfold clamp_index; lia).
  reflexivity.
Qed.

Lemma sampleSpectrum_at_a_bin_witness :
  sampleSpectrum [0; 1; 0.5]%Q (inject_Z 1) interp_nearest
  = f32_get [0; 1; 0.5]%Q 1 /\
  (sampleSpectrum [0; 1; 0.5]%Q (inject_Z 1) interp_linear
   == f32_get [0; 1; 0.5]%Q 1)%Q /\
  (sampleSpectrum [0; 1; 0.5]%Q (inject_Z 1) interp_cubic
   == Math_max 0 (f32_get [0; 1; 0.5]%Q 1))%Q.
Proof. apply (sampleSpectrum_at_a_bin [0; 1; 0.5]%Q 1). simpl. lia. Defined.

Lemma sampleSpectrum_stays_in_range_witness :
  (0 <= sampleSpectrum [0; 1; 0.5]%Q 7.25 interp_nearest <= 1)%Q /\
  (0 <= sampleSpectrum [0; 1; 0.5]%Q 7.25 interp_linear <= 1)%Q /\
  (0 <= sampleSpectrum [0; 1; 0.5]%Q 7.25 interp_cubic)%Q.
Proof.
  apply (sampleSpectrum_stays_in_range [0; 1; 0.5]%Q 7.25 0 1); [discriminate|].
  repeat constructor; discriminate.
Defined.

Lemma max_mode_never_below_plain_sampling_witness :
  f32_get
    (remapSpectrumWithDownsample [0; 1; 0.5; 0.25; 0]%Q [0; 2; 4]%Q 3
       ds_nearest interp_cubic (f32_new 3)) 1
  = sampleSpectrum [0; 1; 0.5; 0.25; 0]%Q (f32_get [0; 2; 4]%Q 1) interp_cubic /\
  (f32_get
     (remapSpectrumWithDownsample [0; 1; 0.5; 0.25; 0]%Q [0; 2; 4]%Q 3
        ds_nearest interp_cubic (f32_new 3)) 1
   <= f32_get
        (remapSpectrumWithDownsample [0; 1; 0.5; 0.25; 0]%Q [0; 2; 4]%Q 3
           ds_max interp_cubic (f32_new 3)) 1)%Q.
Proof.
  apply (max_mode_never_below_plain_sampling [0; 1; 0.5; 0.25; 0]%Q [0; 2; 4]%Q
           3 interp_cubic (f32_new 3) (f32_new 3) 1); simpl; lia.
Defined.

Lemma remapped_values_stay_in_range_witness :
  Forall (fun v => 0 <= v <= 1)%Q
    (remapSpectrumWithDownsample [0; 1; 0.5; 0.25; 0]%Q [0; 2; 4]%Q 3
       ds_average interp_linear (f32_new 3)).
Proof.
  apply (remapped_values_stay_in_range [0; 1; 0.5; 0.25; 0]%Q [0; 2; 4]%Q 3
           ds_average interp_linear (f32_new 3) 0 1).
  - discriminate.
  - simpl. lia.
  - discriminate.
  - repeat constructor; discriminate.
  - repeat constructor; discriminate.
  - reflexivity.
Defined.

Lemma remapSpectrum_is_linear_sampling_witness :
  remapSpectrum [0; 1; 0.5; 0.25; 0]%Q [0; 1.5; 4]%Q 3
  = remapSpectrumWithDownsample [0; 1; 0.5; 0.25; 0]%Q [0; 1.5; 4]%Q 3
      ds_nearest interp_linear (f32_new 3).
Proof.
  apply (remapSpectrum_is_linear_sampling [0; 1; 0.5; 0.25; 0]%Q [0; 1.5; 4]%Q 3).
  - discriminate.
  - repeat constructor; discriminate.
  - simpl. lia.
Defined.

End ResampleFacts.

(** ** Colour scales and the colour lookup table *)

Module ColorFacts.

Import ColorScales Renderer JSFacts.
Local Open Scope Z_scope.

(** Division by a literal, as a product. *)
Ltac const_div :=
  unfold Qdiv in *;
  repeat match goal with
         | |- context [Qinv (?a # ?b)] =>
             let v := eval vm_compute in (Qinv (a # b)) in
             change (Qinv (a # b)) with v
         | H : context [Qinv (?a # ?b)] |- _ =>
             let v := eval vm_compute in (Qinv (a # b)) in
             change (Qinv (a # b)) with v in H
         end.

Lemma floor_byte (q : Q) : (0 <= q)%Q -> (q < 256)%Q -> 0 <= floor q <= 255.
Proof.
  intros H0 H1. unfold floor. split.
  - change 0 with (Qfloor 0). apply Qfloor_resp_le. exact H0.
  - assert (Qfloor q < 256); [|lia].
    rewrite Zlt_Qlt. eapply Qle_lt_trans; [apply Qfloor_le | exact H1].
Qed.

Lemma clamp255_byte (z : Z) : 0 <= clamp255 z <= 255.
Proof. unfold clamp255. lia. Qed.

Ltac branch t c :=
  let H := fresh "Hcmp" in
  destruct (Qltb t c) eqn:H; [apply Qltb_lt in H | apply Qltb_ge in H].

Ltac channel :=
  first [ apply clamp255_byte
        | lia
        | apply floor_byte; const_div; lra ].

Lemma color_scale_bytes (scale : ColorScale) (t : Q) :
  (0 <= t <= 1)%Q ->
  let '(r, g, b) := COLOR_SCALES scale t in
  0 <= r <= 255 /\ 0 <= g <= 255 /\ 0 <= b <= 255.
Proof.
  intros [H0 H1]. destruct scale; unfold COLOR_SCALES; cbv zeta.
  - repeat split; apply clamp255_byte.
  - branch t 0.25%Q; [|branch t 0.5%Q; [|branch t 0.75%Q]];
      (split; [|split]); channel.
  - (split; [|split]); channel.
  - branch t 0.33%Q; [|branch t 0.67%Q]; (split; [|split]); channel.
  - branch t 0.15%Q; [|branch t 0.4%Q; [|branch t 0.65%Q; [|branch t 0.85%Q]]];
      (split; [|split]); channel.
Qed.

(** Every colour scale yields bytes on [0, 1]: for an intensity [t] between
    0 and 1 each of the three channels is an integer from 0 to 255. *)
Theorem color_channels_are_bytes (scale : ColorScale) (t : Q) :
  (0 <= t <= 1)%Q ->
  let '(r, g, b) := COLOR_SCALES scale t in
  0 <= r <= 255 /\ 0 <= g <= 255 /\ 0 <= b <= 255.
Proof. apply color_scale_bytes. Qed.

Lemma u8_set_length a i v : length (u8_set a i v) = length a.
Proof. unfold u8_set. destruct (i <? 0); [reflexivity | apply length_insert]. Qed.

Lemma u8_get_set_eq a i v :
  0 <= i < Z.of_nat (length a) -> u8_get (u8_set a i v) i = v mod 256.
Proof.
  intros Hi. unfold u8_get, u8_set.
  destruct (i <? 0) eqn:Hneg; [apply Z.ltb_lt in Hneg; lia|].
  rewrite list_lookup_insert_eq by lia. reflexivity.
Qed.

Lemma u8_get_set_ne a i j v :
  i <> j -> u8_get (u8_set a i v) j = u8_get a j.
Proof.
  intros Hne. unfold u8_get, u8_set.
  destruct (j <? 0) eqn:Hj; [reflexivity|].
  destruct (i <? 0) eqn:Hi; [reflexivity|].
  apply Z.ltb_ge in Hi, Hj.
  rewrite list_lookup_insert_ne by lia. reflexivity.
Qed.

(** The loop that fills a table with triples. *)
Lemma triple_fill (F : Z -> Z * Z * Z) (n : Z) : 0 <= n ->
  forall init : list Z, n * 3 <= Z.of_nat (length init) ->
  let lut :=
    for_range 0 n
      (fun i lut =>
         let '(r, g, b) := F i in
         u8_set (u8_set (u8_set lut (i * 3) r) (i * 3 + 1) g) (i * 3 + 2) b)
      init in
  length lut = length init /\
  forall i, 0 <= i < n ->
    u8_get lut (i * 3) = fst (fst (F i)) mod 256 /\
    u8_get lut (i * 3 + 1) = snd (fst (F i)) mod 256 /\
    u8_get lut (i * 3 + 2) = snd (F i) mod 256.
Proof.
  intros Hn. pattern n. apply natlike_ind; [| |exact Hn].
  - intros init _. rewrite for_range_empty by lia. split; [reflexivity|].
    intros i Hi. lia.
  - intros k Hk IH init Hlen. replace (Z.succ k) with (k + 1) by lia.
    rewrite for_range_succ by lia.
    destruct (IH init ltac:(lia)) as [Hl Hall].
    set (prev := for_range 0 k _ init) in *.
    destruct (F k) as [[r g] b] eqn:HF.
    split; [rewrite !u8_set_length; exact Hl|].
    intros i Hi. destruct (Z.eq_dec i k) as [->|Hne].
    + rewrite HF. simpl.
      rewrite (u8_get_set_ne _ (k * 3 + 2) (k * 3)) by lia.
      rewrite (u8_get_set_ne _ (k * 3 + 1) (k * 3)) by lia.
      rewrite u8_get_set_eq by lia.
      rewrite (u8_get_set_ne _ (k * 3 + 2) (k * 3 + 1)) by lia.
      rewrite u8_get_set_eq by (rewrite u8_set_length; lia).
      rewrite u8_get_set_eq by (rewrite !u8_set_length; lia).
      repeat split; reflexivity.
    + rewrite !u8_get_set_ne by lia. apply Hall. lia.
Qed.

Lemma lut_position (i : Z) :
  0 <= i <= 255 -> (0 <= inject_Z i / inject_Z (COLOR_LUT_SIZE - 1) <= 1)%Q.
Proof.
  intros Hi. change (inject_Z (COLOR_LUT_SIZE - 1)) with 255%Q.
  assert (H0 : (0 <= inject_Z i)%Q)
    by (change 0%Q with (inject_Z 0); rewrite <- Zle_Qle; lia).
  assert (H1 : (inject_Z i <= 255)%Q)
    by (change 255%Q with (inject_Z 255); rewrite <- Zle_Qle; lia).
  const_div. split; lra.
Qed.

Lemma getColorLUT_entries (colorScale : ColorScale) :
  length (getColorLUT colorScale) = 768%nat /\
  forall i, 0 <= i <= 255 ->
    let '(r, g, b) :=
      COLOR_SCALES colorScale (inject_Z i / inject_Z (COLOR_LUT_SIZE - 1)) in
    u8_get (getColorLUT colorScale) (i * 3) = r /\
    u8_get (getColorLUT colorScale) (i * 3 + 1) = g /\
    u8_get (getColorLUT colorScale) (i * 3 + 2) = b.
Proof.
  pose proof (triple_fill
    (fun i => COLOR_SCALES colorScale (inject_Z i / inject_Z (COLOR_LUT_SIZE - 1)))
    COLOR_LUT_SIZE ltac:(unfold COLOR_LUT_SIZE; lia)
    (replicate (Z.to_nat (COLOR_LUT_SIZE * 3)) 0)
    ltac:(rewrite length_replicate; unfold COLOR_LUT_SIZE; lia)) as [Hlen Hall].
  fold (getColorLUT colorScale) in Hlen, Hall.
  split; [rewrite Hlen; apply length_replicate|].
  intros i Hi. specialize (Hall i ltac:(unfold COLOR_LUT_SIZE; lia)).
  pose proof (color_scale_bytes colorScale _ (lut_position i Hi)) as Hb.
  cbv beta in Hall.
  destruct (COLOR_SCALES colorScale _) as [[r g] b]. simpl in Hall.
  destruct Hall as (Hr & Hg & Hbb). destruct Hb as (Br & Bg & Bb).
  rewrite Hr, Hg, Hbb, !Z.mod_small by lia. repeat split; reflexivity.
Qed.

(** The lookup table of a colour scale has 256 triples, and triple [i]
    holds the three channels of the scale at [i / 255] unchanged: no channel
    is wrapped by the byte array. *)
Theorem color_lut_holds_the_scale (colorScale : ColorScale) (i : Z) :
  0 <= i <= 255 ->
  length (getColorLUT colorScale) = 768%nat /\
  (u8_get (getColorLUT colorScale) (i * 3),
   u8_get (getColorLUT colorScale) (i * 3 + 1),
   u8_get (getColorLUT colorScale) (i * 3 + 2))
  = COLOR_SCALES colorScale (inject_Z i / 255).
Proof.
  intros Hi. destruct (getColorLUT_entries colorScale) as [Hlen Hall].
  split; [exact Hlen|]. specialize (Hall i Hi).
  change (inject_Z (COLOR_LUT_SIZE - 1)) with 255%Q in Hall.
  destruct (COLOR_SCALES colorScale (inject_Z i / 255)) as [[r g] b].
  destruct Hall as (-> & -> & ->). reflexivity.
Qed.

Lemma color_channels_are_bytes_witness :
  let '(r, g, b) := COLOR_SCALES inferno 0.5 in
  0 <= r <= 255 /\ 0 <= g <= 255 /\ 0 <= b <= 255.
Proof.
  apply (color_channels_are_bytes inferno 0.5). split; discriminate.
Defined.

Lemma color_lut_holds_the_scale_witness :
  length (getColorLUT magma) = 768%nat /\
  (u8_get (getColorLUT magma) (128 * 3),
   u8_get (getColorLUT magma) (128 * 3 + 1),
   u8_get (getColorLUT magma) (128 * 3 + 2))
  = COLOR_SCALES magma (inject_Z 128 / 255).
Proof. apply (color_lut_holds_the_scale magma 128). lia. Defined.

End ColorFacts.

(** ** The pixels of the rendered image *)

Module PixelFacts.

Import Spectrogram FrequencyMapping ColorScales Renderer JSFacts RendererFacts
  ResampleFacts ColorFacts.
Local Open Scope Z_scope.

(** The four bytes of the pixel that starts at byte [p]. *)
Definition rgba (pixels : list Z) (p : Z) : Z * Z * Z * Z :=
  (u8_get pixels p, u8_get pixels (p + 1), u8_get pixels (p + 2),
   u8_get pixels (p + 3)).

(** The entry of the lookup table a display value selects. *)
Definition lut_index (value : Q) : Z :=
  ToInt32 (clamp01 value * inject_Z (COLOR_LUT_SIZE - 1) + 0.5)%Q.

Lemma lut_index_range (value : Q) : 0 <= lut_index value <= 255.
Proof.
  unfold lut_index. pose proof (Matrix.clamp01_bounds value) as [H0 H1].
  change (inject_Z (COLOR_LUT_SIZE - 1)) with 255%Q.
  set (v := clamp01 value) in *.
  rewrite ToInt32_floor; [| lra |].
  - split.
    + change 0 with (Qfloor 0). apply Qfloor_resp_le. lra.
    + assert (Qfloor (v * 255 + 0.5) < 256); [|lia].
      rewrite Zlt_Qlt. eapply Qle_lt_trans; [apply Qfloor_le|].
      change (inject_Z 256) with 256%Q. lra.
  - change (inject_Z (2 ^ 31)) with 2147483648%Q. lra.
Qed.

Lemma u8c_get_set_eq a i v :
  0 <= i < Z.of_nat (length a) -> u8_get (u8c_set a i v) i = clamp255 v.
Proof.
  intros Hi. unfold u8_get, u8c_set.
  destruct (i <? 0) eqn:Hneg; [apply Z.ltb_lt in Hneg; lia|].
  rewrite list_lookup_insert_eq by lia. reflexivity.
Qed.

Lemma u8c_get_set_ne a i j v :
  i <> j -> u8_get (u8c_set a i v) j = u8_get a j.
Proof.
  intros Hne. unfold u8_get, u8c_set.
  destruct (j <? 0) eqn:Hj; [reflexivity|].
  destruct (i <? 0) eqn:Hi; [reflexivity|].
  apply Z.ltb_ge in Hi, Hj.
  rewrite list_lookup_insert_ne by lia. reflexivity.
Qed.

Lemma getColorLUT_bytes (colorScale : ColorScale) :
  Forall (fun v => 0 <= v <= 255) (getColorLUT colorScale).
Proof.
  unfold getColorLUT.
  apply (for_range_ind (Forall (fun v => 0 <= v <= 255))).
  - apply Forall_replicate. lia.
  - intros i lut _ Hlut. cbv zeta. destruct (COLOR_SCALES _ _) as [[r g] b].
    assert (Hset : forall a j v, Forall (fun v => 0 <= v <= 255) a ->
                                 Forall (fun v => 0 <= v <= 255) (u8_set a j v)).
    { intros a j v Ha. unfold u8_set. destruct (j <? 0); [exact Ha|].
      apply Forall_insert; [exact Ha|].
      pose proof (Z.mod_pos_bound v 256 ltac:(lia)). lia. }
    repeat apply Hset. exact Hlut.
Qed.

Lemma u8_get_byte (a : list Z) (i : Z) :
  Forall (fun v => 0 <= v <= 255) a -> 0 <= u8_get a i <= 255.
Proof.
  intros Ha. unfold u8_get. destruct (i <? 0); [lia|].
  destruct (a !! Z.to_nat i) as [v|] eqn:Hv; simpl; [|lia].
  rewrite Forall_lookup in Ha. exact (Ha _ _ Hv).
Qed.

Lemma clamp255_id (v : Z) : 0 <= v <= 255 -> clamp255 v = v.
Proof. unfold clamp255. lia. Qed.

(** One pixel store. *)
Lemma store_pixel_same (px : list Z) (p r g b : Z) :
  0 <= p -> p + 3 < Z.of_nat (length px) ->
  rgba (u8c_set (u8c_set (u8c_set (u8c_set px p r) (p + 1) g) (p + 2) b)
          (p + 3) 255) p
  = (clamp255 r, clamp255 g, clamp255 b, 255).
Proof.
  intros H0 H3. unfold rgba.
  rewrite (u8c_get_set_ne _ (p + 3) p) by lia.
  rewrite (u8c_get_set_ne _ (p + 2) p) by lia.
  rewrite (u8c_get_set_ne _ (p + 1) p) by lia.
  rewrite u8c_get_set_eq by lia.
  rewrite (u8c_get_set_ne _ (p + 3) (p + 1)) by lia.
  rewrite (u8c_get_set_ne _ (p + 2) (p + 1)) by lia.
  rewrite u8c_get_set_eq by (rewrite u8c_set_length; lia).
  rewrite (u8c_get_set_ne _ (p + 3) (p + 2)) by lia.
  rewrite u8c_get_set_eq by (rewrite !u8c_set_length; lia).
  rewrite u8c_get_set_eq by (rewrite !u8c_set_length; lia).
  reflexivity.
Qed.

Lemma store_pixel_other (px : list Z) (p r g b s : Z) :
  p <> s * 4 -> p = p / 4 * 4 ->
  rgba (u8c_set (u8c_set (u8c_set (u8c_set px p r) (p + 1) g) (p + 2) b)
          (p + 3) 255) (s * 4)
  = rgba px (s * 4).
Proof.
  intros Hne Hal. unfold rgba.
  rewrite !u8c_get_set_ne by lia. reflexivity.
Qed.

(** The byte offset of the pixel of a frame and a display bin: high
    frequencies at the top. *)
Definition pixel_offset (displayBins numFrames frame bin : Z) : Z :=
  ((displayBins - 1 - bin) * numFrames + frame) * 4.

Lemma pixel_offset_inside displayBins numFrames frame bin :
  0 <= frame < numFrames -> 0 <= bin < displayBins ->
  0 <= pixel_offset displayBins numFrames frame bin /\
  pixel_offset displayBins numFrames frame bin + 3 < numFrames * displayBins * 4.
Proof. unfold pixel_offset. intros Hf Hb. split; nia. Qed.

Lemma pixel_offset_inj displayBins numFrames frame bin frame' bin' :
  0 <= frame < numFrames -> 0 <= frame' < numFrames ->
  pixel_offset displayBins numFrames frame bin
  = pixel_offset displayBins numFrames frame' bin' ->
  frame = frame' /\ bin = bin'.
Proof.
  unfold pixel_offset. intros Hf Hf' Heq.
  assert (H : (displayBins - 1 - bin) * numFrames + frame
              = (displayBins - 1 - bin') * numFrames + frame') by lia.
  assert (Hm : ((displayBins - 1 - bin) * numFrames + frame) mod numFrames
               = ((displayBins - 1 - bin') * numFrames + frame') mod numFrames)
    by (rewrite H; reflexivity).
  rewrite !(Z.add_comm (_ * numFrames)), !Z.mod_add, !Z.mod_small in Hm by lia.
  subst frame'. split; [reflexivity|]. nia.
Qed.

(** The colour loop of one frame writes the pixel of every display bin of
    that frame and leaves the pixels of the other frames alone. *)
Lemma color_frame_spec (displayBuffer freqGainFactors : list Q)
  (colorLUT : list Z) (displayBins numFrames frame : Z) (pixels : list Z) :
  0 <= frame < numFrames -> 0 <= displayBins ->
  Z.of_nat (length pixels) = numFrames * displayBins * 4 ->
  Forall (fun v => 0 <= v <= 255) colorLUT ->
  let pixels' :=
    color_frame displayBuffer freqGainFactors colorLUT displayBins numFrames
      frame pixels in
  (forall bin, 0 <= bin < displayBins ->
     let k := lut_index (f32_get displayBuffer bin + f32_get freqGainFactors bin) in
     rgba pixels' (pixel_offset displayBins numFrames frame bin)
     = (u8_get colorLUT (k * 3), u8_get colorLUT (k * 3 + 1),
        u8_get colorLUT (k * 3 + 2), 255)) /\
  (forall frame' bin', 0 <= frame' < numFrames -> frame' <> frame ->
     rgba pixels' (pixel_offset displayBins numFrames frame' bin')
     = rgba pixels (pixel_offset displayBins numFrames frame' bin')).
Proof.
  intros Hframe HnB Hlen Hlut pixels'. subst pixels'. unfold color_frame.
  set (body := fun (bin : Z) (pixels : list Z) => _).
  assert (Hgen : forall n, 0 <= n -> n <= displayBins ->
    let px := for_range 0 n body pixels in
    length px = length pixels /\
    (forall bin, 0 <= bin < n ->
       let k := lut_index (f32_get displayBuffer bin + f32_get freqGainFactors bin) in
       rgba px (pixel_offset displayBins numFrames frame bin)
       = (u8_get colorLUT (k * 3), u8_get colorLUT (k * 3 + 1),
          u8_get colorLUT (k * 3 + 2), 255)) /\
    (forall frame' bin', 0 <= frame' < numFrames -> frame' <> frame ->
       rgba px (pixel_offset displayBins numFrames frame' bin')
       = rgba pixels (pixel_offset displayBins numFrames frame' bin'))).
  { intros n Hn. pattern n. apply natlike_ind; [| |exact Hn].
    - intros _. rewrite for_range_empty by lia.
      split; [reflexivity|]. split; [intros bin Hbin; lia | reflexivity].
    - intros m Hm IH Hle. replace (Z.succ m) with (m + 1) by lia.
      rewrite for_range_succ by lia.
      destruct (IH ltac:(lia)) as (Hl & Hdone & Hother).
      set (prev := for_range 0 m body pixels) in *.
      destruct (pixel_offset_inside displayBins numFrames frame m Hframe
                  ltac:(lia)) as [Hp0 Hp3].
      assert (Hcur : forall p', p' <> pixel_offset displayBins numFrames frame m ->
                 p' = p' / 4 * 4 ->
                 rgba (body m prev) p' = rgba prev p').
      { intros p' Hne Hal. subst body. cbv beta zeta.
        fold (pixel_offset displayBins numFrames frame m).
        rewrite Hal.
        apply store_pixel_other; [rewrite <- Hal; congruence|].
        unfold pixel_offset. rewrite Z.div_mul by lia. reflexivity. }
      assert (Haligned : forall f b,
                 pixel_offset displayBins numFrames f b
                 = pixel_offset displayBins numFrames f b / 4 * 4).
      { intros f b. unfold pixel_offset. rewrite Z.div_mul by lia. reflexivity. }
      split; [|split].
      + subst body. cbv beta zeta. rewrite !u8c_set_length. exact Hl.
      + intros bin Hbin. destruct (Z.eq_dec bin m) as [->|Hne].
        * subst body. cbv beta zeta.
          fold (pixel_offset displayBins numFrames frame m).
          change (COLOR_LUT_SIZE - 1) with (COLOR_LUT_SIZE - 1).
          rewrite store_pixel_same by (rewrite ?Hl; lia).
          fold (clamp01 (f32_get displayBuffer m + f32_get freqGainFactors m)).
          fold (lut_index (f32_get displayBuffer m + f32_get freqGainFactors m)).
          rewrite !clamp255_id by (apply u8_get_byte; exact Hlut).
          reflexivity.
        * rewrite Hcur; [apply Hdone; lia | | apply Haligned].
          intros Heq. apply pixel_offset_inj in Heq; [lia | lia | lia].
      + intros frame' bin' Hf' Hne.
        rewrite Hcur; [apply Hother; assumption | | apply Haligned].
        intros Heq. apply pixel_offset_inj in Heq; [lia | lia | lia]. }
  destruct (Hgen displayBins HnB ltac:(lia)) as (_ & Hdone & Hother).
  split; assumption.
Qed.

(** The frame loop of the renderer: after it, the pixel of every frame and
    display bin shows the remapped value of that bin in that frame. *)
Lemma frame_loop_spec (data freqMapping freqGainFactors : list Q)
  (colorLUT : list Z) (numBins numFrames : Z)
  (downsampleMode : DownsampleMode) (interpolation : InterpolationMode)
  (pixels0 : list Z) :
  0 <= numBins -> 0 <= numFrames ->
  Z.of_nat (length pixels0) = numFrames * numBins * 4 ->
  Forall (fun v => 0 <= v <= 255) colorLUT ->
  let loop :=
    for_range 0 numFrames
      (fun frame '(displayBuffer, pixels) =>
         let frameOffset := frame * numBins in
         let frameSpectrum := subarray data frameOffset (frameOffset + numBins) in
         let displayBuffer :=
           remapSpectrumWithDownsample frameSpectrum freqMapping numBins
             downsampleMode interpolation displayBuffer in
         (displayBuffer,
          color_frame displayBuffer freqGainFactors colorLUT numBins
            numFrames frame pixels))
      (f32_new numBins, pixels0) in
  forall frame bin, 0 <= frame < numFrames -> 0 <= bin < numBins ->
    let level :=
      remap_bin (subarray data (frame * numBins) (frame * numBins + numBins))
        freqMapping numBins downsampleMode interpolation bin in
    let k := lut_index (level + f32_get freqGainFactors bin) in
    rgba (snd loop) (pixel_offset numBins numFrames frame bin)
    = (u8_get colorLUT (k * 3), u8_get colorLUT (k * 3 + 1),
       u8_get colorLUT (k * 3 + 2), 255).
Proof.
  intros HnB HnF Hlen Hlut. cbv zeta.
  set (body := fun (frame : Z) (st : list Q * list Z) => _).
  assert (Hgen : forall n, 0 <= n -> n <= numFrames ->
    let st := for_range 0 n body (f32_new numBins, pixels0) in
    length (fst st) = Z.to_nat numBins /\
    length (snd st) = length pixels0 /\
    forall frame bin, 0 <= frame < n -> 0 <= bin < numBins ->
      rgba (snd st) (pixel_offset numBins numFrames frame bin)
      = (u8_get colorLUT
           (lut_index
              (remap_bin
                 (subarray data (frame * numBins) (frame * numBins + numBins))
                 freqMapping numBins downsampleMode interpolation bin
               + f32_get freqGainFactors bin) * 3),
         u8_get colorLUT
           (lut_index
              (remap_bin
                 (subarray data (frame * numBins) (frame * numBins + numBins))
                 freqMapping numBins downsampleMode interpolation bin
               + f32_get freqGainFactors bin) * 3 + 1),
         u8_get colorLUT
           (lut_index
              (remap_bin
                 (subarray data (frame * numBins) (frame * numBins + numBins))
                 freqMapping numBins downsampleMode interpolation bin
               + f32_get freqGainFactors bin) * 3 + 2),
         255)).
  { intros n Hn. pattern n. apply natlike_ind; [| |exact Hn].
    - intros _. rewrite for_range_empty by lia. simpl.
      split; [apply f32_new_length|]. split; [reflexivity|].
      intros frame bin Hf. lia.
    - intros m Hm IH Hle. replace (Z.succ m) with (m + 1) by lia.
      rewrite for_range_succ by lia.
      destruct (IH ltac:(lia)) as (Hbuf & Hpx & Hdone).
      destruct (for_range 0 m body (f32_new numBins, pixels0)) as [buf px].
      simpl in Hbuf, Hpx, Hdone. subst body. cbv beta iota zeta.
      set (buf' := remapSpectrumWithDownsample _ _ _ _ _ buf).
      assert (Hbuf' : length buf' = Z.to_nat numBins)
        by (subst buf'; rewrite remap_length; exact Hbuf).
      destruct (color_frame_spec buf' freqGainFactors colorLUT numBins numFrames
                  m px ltac:(lia) HnB ltac:(rewrite Hpx; exact Hlen) Hlut)
        as [Hcur Hother].
      simpl. split; [exact Hbuf'|]. split.
      { rewrite color_frame_length. exact Hpx. }
      intros frame bin Hf Hb. destruct (Z.eq_dec frame m) as [->|Hne].
      + rewrite (Hcur bin Hb). cbv zeta. subst buf'.
        rewrite remap_entry by lia. reflexivity.
      + rewrite Hother by lia. apply Hdone; lia. }
  intros frame bin Hf Hb.
  destruct (Hgen numFrames HnF ltac:(lia)) as (_ & _ & Hdone).
  apply Hdone; assumption.
Qed.

Section WithMath.
Context {M : MathLib}.

(** The pixel of a frame and a display bin, read off the options. *)
Lemma renderToImageData_pixel (options : RenderOptions) (frame bin : Z) :
  let spectrogram := r_spectrogram options in
  let numFrames := numFrames spectrogram in
  let numBins := numBins spectrogram in
  let freqScale := default scale_log (r_freqScale options) in
  let effectiveMinFreq := Math_max (default 50%Q (r_minFreq options)) 1 in
  let effectiveMaxFreq :=
    Math_min (default 8000%Q (r_maxFreq options)) (sampleRate spectrogram / 2)%Q in
  let freqMapping :=
    createFrequencyMapping (N := double_number) numBins (sampleRate spectrogram)
      freqScale numBins (Some effectiveMinFreq) (Some effectiveMaxFreq) in
  let frameSpectrum :=
    subarray (data spectrogram) (frame * numBins) (frame * numBins + numBins) in
  let level :=
    remap_bin frameSpectrum freqMapping numBins
      (default ds_max (r_downsampleMode options))
      (default interp_linear (r_interpolation options)) bin in
  let dbBoost :=
    calculateFrequencyGain
      (getFrequencyAtBin bin numBins effectiveMinFreq effectiveMaxFreq freqScale)
      (default 0%Q (r_frequencyGain options)) in
  let k := lut_index (level + dbBoost / 40) in
  let colorLUT := getColorLUT (default magma (r_colorScale options)) in
  0 <= frame < numFrames -> 0 <= bin < numBins ->
  rgba (pixels (renderToImageData options))
    (pixel_offset numBins numFrames frame bin)
  = (u8_get colorLUT (k * 3), u8_get colorLUT (k * 3 + 1),
     u8_get colorLUT (k * 3 + 2), 255).
Proof.
  intros spectrogram numFrames numBins freqScale effectiveMinFreq
    effectiveMaxFreq freqMapping frameSpectrum level dbBoost k colorLUT Hf Hb.
  unfold renderToImageData.
  fold spectrogram. fold numFrames. fold numBins. fold freqScale.
  fold effectiveMinFreq. fold effectiveMaxFreq. fold freqMapping. fold colorLUT.
  set (freqGainFactors := for_range 0 numBins _ (f32_new numBins)).
  assert (Hgain : f32_get freqGainFactors bin = (dbBoost / 40)%Q).
  { subst freqGainFactors.
    apply (for_range_fill
             (fun bin =>
                (calculateFrequencyGain
                   (getFrequencyAtBin bin numBins effectiveMinFreq
                      effectiveMaxFreq freqScale)
                   (default 0%Q (r_frequencyGain options)) / 40)%Q));
      [exact Hb | rewrite f32_new_length; lia]. }
  pose proof (frame_loop_spec (data spectrogram) freqMapping freqGainFactors
                colorLUT numBins numFrames
                (default ds_max (r_downsampleMode options))
                (default interp_linear (r_interpolation options))
                (pixels (new_ImageData numFrames numBins))
                ltac:(lia) ltac:(lia)
                ltac:(unfold new_ImageData; simpl; rewrite length_replicate; nia)
                (getColorLUT_bytes _) frame bin Hf Hb) as Hloop.
  cbv zeta in Hloop. rewrite Hgain in Hloop.
  fold frameSpectrum in Hloop. fold level in Hloop. fold k in Hloop.
  destruct (for_range 0 numFrames _ _) as [buf px]. simpl in *. exact Hloop.
Qed.

End WithMath.

Section WithMath.
Context {M : MathLib}.

Lemma renderToImageData_size (options : RenderOptions) :
  width (renderToImageData options) = numFrames (r_spectrogram options) /\
  height (renderToImageData options) = numBins (r_spectrogram options).
Proof.
  unfold renderToImageData.
  destruct (for_range 0 _ _ _) as [buf px]. split; reflexivity.
Qed.

(** The pixel in column [x] and row [y] of the rendered image shows display
    bin [numBins - 1 - y] of frame [x] (low frequencies at the bottom): its
    colour is the lookup-table entry selected by the remapped value of that
    bin in that frame plus the frequency gain, clamped to [0, 1], and it is
    opaque.  The display buffer reused between frames carries nothing over. *)
Theorem pixel_shows_display_bin_of_frame (options : RenderOptions) (x y : Z) :
  let image := renderToImageData options in
  let spectrogram := r_spectrogram options in
  let numBins := numBins spectrogram in
  let bin := numBins - 1 - y in
  let freqScale := default scale_log (r_freqScale options) in
  let effectiveMinFreq := Math_max (default 50%Q (r_minFreq options)) 1 in
  let effectiveMaxFreq :=
    Math_min (default 8000%Q (r_maxFreq options)) (sampleRate spectrogram / 2)%Q in
  let freqMapping :=
    createFrequencyMapping (N := double_number) numBins (sampleRate spectrogram)
      freqScale numBins (Some effectiveMinFreq) (Some effectiveMaxFreq) in
  let frameSpectrum :=
    subarray (data spectrogram) (x * numBins) (x * numBins + numBins) in
  let level :=
    remap_bin frameSpectrum freqMapping numBins
      (default ds_max (r_downsampleMode options))
      (default interp_linear (r_interpolation options)) bin in
  let dbBoost :=
    calculateFrequencyGain
      (getFrequencyAtBin bin numBins effectiveMinFreq effectiveMaxFreq freqScale)
      (default 0%Q (r_frequencyGain options)) in
  let k := ToInt32 (clamp01 (level + dbBoost / 40) * 255 + 0.5)%Q in
  let colorLUT := getColorLUT (default magma (r_colorScale options)) in
  0 <= x < width image -> 0 <= y < height image ->
  0 <= k <= 255 /\
  rgba (pixels image) ((y * width image + x) * 4)
  = (u8_get colorLUT (k * 3), u8_get colorLUT (k * 3 + 1),
     u8_get colorLUT (k * 3 + 2), 255).
Proof.
  cbv zeta. destruct (renderToImageData_size options) as [Hw Hh].
  rewrite Hw, Hh. intros Hx Hy.
  pose proof (renderToImageData_pixel options x
                (numBins (r_spectrogram options) - 1 - y) Hx ltac:(lia))
    as Hpixel.
  cbv zeta in Hpixel. unfold pixel_offset in Hpixel.
  replace (numBins (r_spectrogram options) - 1
           - (numBins (r_spectrogram options) - 1 - y)) with y in Hpixel by lia.
  match type of Hpixel with
  | context [lut_index ?v] =>
      pose proof (lut_index_range v) as Hk
  end.
  unfold lut_index in Hpixel, Hk.
  change (inject_Z (COLOR_LUT_SIZE - 1)) with 255%Q in Hpixel, Hk.
  split; [exact Hk | exact Hpixel].
Qed.

End WithMath.

Lemma pixel_shows_display_bin_of_frame_witness :
  let image := renderToImageData (M := Frames.stub_math) (stub_render None None) in
  exists k, 0 <= k <= 255 /\
    rgba (pixels image) ((2 * width image + 1) * 4)
    = (u8_get (getColorLUT magma) (k * 3), u8_get (getColorLUT magma) (k * 3 + 1),
       u8_get (getColorLUT magma) (k * 3 + 2), 255).
Proof.
  eexists.
  apply (pixel_shows_display_bin_of_frame (M := Frames.stub_math)
           (stub_render None None) 1 2);
    rewrite ?(proj1 (renderToImageData_size (M := Frames.stub_math) _)),
            ?(proj2 (renderToImageData_size (M := Frames.stub_math) _));
    simpl; lia.
Defined.

End PixelFacts.

(** ** The ends and the range of the frequency mapping *)

Module MappingFacts.

Import FrequencyMapping FrequencyFacts.
Local Open Scope R_scope.
#[local] Existing Instance real_number.

Lemma mappedHz_first (scale : FrequencyScale) (displayBins : Z) (lo hi : R) :
  scale <> scale_bark -> 0 < lo ->
  mappedHz scale displayBins lo hi 0 = lo.
Proof.
  intros Hscale Hlo. unfold mappedHz. destruct scale; try contradiction;
    cbn [real_number add sub mul div num log10 pow];
    rewrite !Q2R_inject_Z; replace (Q2R 1) with 1 by (real_literals; reflexivity);
    replace (0 / (IZR displayBins - 1)) with 0 by (unfold Rdiv; ring).
  - ring.
  - replace (Q2R 10) with 10 by (real_literals; reflexivity).
    replace (ln lo / ln 10 + 0 * (ln hi / ln 10 - ln lo / ln 10))
      with (ln lo / ln 10) by ring.
    apply pow10_log10. exact Hlo.
  - replace (hzToMel lo + 0 * (hzToMel hi - hzToMel lo)) with (hzToMel lo) by ring.
    apply melToHz_hzToMel. lra.
  - replace (hzToErb lo + 0 * (hzToErb hi - hzToErb lo)) with (hzToErb lo) by ring.
    apply erbToHz_hzToErb. lra.
Qed.

Lemma mappedHz_last (scale : FrequencyScale) (displayBins : Z) (lo hi : R) :
  scale <> scale_bark -> (2 <= displayBins)%Z -> 0 < hi ->
  mappedHz scale displayBins lo hi (displayBins - 1) = hi.
Proof.
  intros Hscale HD Hhi. apply IZR_le in HD.
  unfold mappedHz. destruct scale; try contradiction;
    cbn [real_number add sub mul div num log10 pow];
    rewrite !Q2R_inject_Z; replace (Q2R 1) with 1 by (real_literals; reflexivity);
    rewrite minus_IZR;
    replace ((IZR displayBins - 1) / (IZR displayBins - 1)) with 1
      by (field; lra).
  - ring.
  - replace (Q2R 10) with 10 by (real_literals; reflexivity).
    replace (ln lo / ln 10 + 1 * (ln hi / ln 10 - ln lo / ln 10))
      with (ln hi / ln 10) by ring.
    apply pow10_log10. exact Hhi.
  - replace (hzToMel lo + 1 * (hzToMel hi - hzToMel lo)) with (hzToMel hi) by ring.
    apply melToHz_hzToMel. lra.
  - replace (hzToErb lo + 1 * (hzToErb hi - hzToErb lo)) with (hzToErb hi) by ring.
    apply erbToHz_hzToErb. lra.
Qed.

Lemma effectiveMaxFreq_le_nyquist (sampleRate : R) (maxFreq : option R) :
  effectiveMaxFreq sampleRate maxFreq <= sampleRate / 2.
Proof.
  unfold effectiveMaxFreq. rewrite min_num_real.
  cbn [real_number div num]. replace (Q2R 2) with 2 by (real_literals; reflexivity).
  apply Rmin_r.
Qed.

(** For the linear, log, mel and erb scales, with the clamped limits in
    order: the first entry of the mapping is the bin position of the lower
    limit, the last entry is the bin position of the upper limit, and every
    entry is a position inside the spectrum, between 0 and [numBins - 1]. *)
Theorem mapping_spans_the_clamped_limits
  (numBins : Z) (sampleRate : R) (scale : FrequencyScale) (displayBins : Z)
  (minFreq maxFreq : option R) :
  scale <> scale_bark ->
  (2 <= displayBins)%Z -> (1 <= numBins)%Z -> 0 < sampleRate ->
  effectiveMinFreq minFreq <= effectiveMaxFreq sampleRate maxFreq ->
  let mapping :=
    createFrequencyMapping numBins sampleRate scale displayBins minFreq maxFreq in
  let nyquist := sampleRate / 2 in
  mapping !! 0%nat
  = Some (effectiveMinFreq minFreq / nyquist * (IZR numBins - 1)) /\
  mapping !! Z.to_nat (displayBins - 1)
  = Some (effectiveMaxFreq sampleRate maxFreq / nyquist * (IZR numBins - 1)) /\
  Forall (fun position => 0 <= position <= IZR numBins - 1) mapping.
Proof.
  intros Hscale HD HB Hrate Hrange mapping nyquist. subst mapping.
  pose proof (effectiveMinFreq_ge_1 minFreq) as Hlo.
  pose proof (effectiveMaxFreq_le_nyquist sampleRate maxFreq) as Hhi.
  set (lo := effectiveMinFreq minFreq) in *.
  set (hi := effectiveMaxFreq sampleRate maxFreq) in *.
  assert (Hentry : forall k : nat, (k < Z.to_nat displayBins)%nat ->
            createFrequencyMapping numBins sampleRate scale displayBins minFreq
              maxFreq !! k
            = Some (mappedHz scale displayBins lo hi (Z.of_nat k) / nyquist
                    * (IZR numBins - 1))).
  { intros k Hk. unfold createFrequencyMapping.
    rewrite list_lookup_fmap, lookup_seq_lt by exact Hk. simpl.
    rewrite Q2R_inject_Z. real_literals. reflexivity. }
  split; [|split].
  - rewrite Hentry by lia. change (Z.of_nat 0) with 0%Z.
    rewrite mappedHz_first by (assumption || lra). reflexivity.
  - rewrite Hentry by lia. rewrite Z2Nat.id by lia.
    rewrite mappedHz_last by (assumption || lra). reflexivity.
  - apply Forall_lookup. intros k x Hk.
    assert (Hlt : (k < Z.to_nat displayBins)%nat).
    { apply lookup_lt_Some in Hk. unfold createFrequencyMapping in Hk.
      rewrite length_map, length_seq in Hk. exact Hk. }
    rewrite Hentry in Hk by exact Hlt. injection Hk as <-.
    pose proof (mappedHz_mono scale displayBins lo hi 0 (Z.of_nat k) Hscale HD
                  ltac:(lra) Hrange ltac:(lia)) as Hge.
    pose proof (mappedHz_mono scale displayBins lo hi (Z.of_nat k)
                  (displayBins - 1) Hscale HD ltac:(lra) Hrange ltac:(lia)) as Hle.
    rewrite mappedHz_first in Hge by (assumption || lra).
    rewrite mappedHz_last in Hle by (assumption || lra).
    set (hz := mappedHz scale displayBins lo hi (Z.of_nat k)) in *.
    apply IZR_le in HB.
    assert (Hq : 0 <= hz / nyquist <= 1).
    { subst nyquist. split.
      - apply Rmult_le_pos; [lra | left; apply Rinv_0_lt_compat; lra].
      - apply (Rmult_le_reg_r (sampleRate / 2)); [lra|].
        replace (hz / (sampleRate / 2) * (sampleRate / 2)) with hz by (field; lra).
        lra. }
    split; nra.
Qed.

Lemma mapping_spans_the_clamped_limits_witness :
  let mapping := createFrequencyMapping 5 44100 scale_mel 3 None None in
  let nyquist := 44100 / 2 in
  mapping !! 0%nat = Some (effectiveMinFreq None / nyquist * (IZR 5 - 1)) /\
  mapping !! Z.to_nat (3 - 1)
  = Some (effectiveMaxFreq 44100 None / nyquist * (IZR 5 - 1)) /\
  Forall (fun position => 0 <= position <= IZR 5 - 1) mapping.
Proof.
  apply (mapping_spans_the_clamped_limits 5 44100 scale_mel 3 None None);
    try discriminate; try lia; try lra.
  unfold effectiveMinFreq, effectiveMaxFreq.
  rewrite max_num_real, min_num_real. simpl. real_literals.
  unfold Rmax, Rmin.
  destruct (Rle_dec 20 1), (Rle_dec (44100 / 2) (44100 / 2)); lra.
Defined.

End MappingFacts.

(** ** Windowing and zero padding *)

Module WindowingFacts.

Import Spectrogram JSFacts Windowing.
Local Open Scope Z_scope.

(** A loop that stores [F i] at every index of a buffer of that length
    leaves exactly the values of [F]. *)
Lemma fill_loop (F : Z -> Q) (a : list Q) :
  for_range 0 (Z.of_nat (length a)) (fun i a => f32_set a i (F i)) a
  = map (fun k => F (Z.of_nat k)) (seq 0 (length a)).
Proof.
  apply list_eq. intros k.
  assert (Hlen : length (for_range 0 (Z.of_nat (length a))
                           (fun i a => f32_set a i (F i)) a) = length a).
  { apply (for_range_ind (fun b => length b = length a)); [reflexivity|].
    intros i b _ Hb. rewrite f32_set_length. exact Hb. }
  destruct (Nat.lt_ge_cases k (length a)) as [Hlt|Hge].
  - rewrite list_lookup_fmap, lookup_seq_lt by exact Hlt. simpl.
    destruct (lookup_lt_is_Some_2 _ k ltac:(rewrite Hlen; exact Hlt)) as [v Hv].
    rewrite Hv. f_equal. rewrite <- (f32_get_lookup _ _ _ Hv).
    apply for_range_fill; lia.
  - rewrite (lookup_ge_None_2 _ k) by (rewrite Hlen; exact Hge).
    rewrite (lookup_ge_None_2 _ k); [reflexivity|].
    rewrite length_map, length_seq. exact Hge.
Qed.

Lemma fill_loop_fresh (F : Z -> Q) (a b : list Q) :
  length a = length b ->
  for_range 0 (Z.of_nat (length a)) (fun i a => f32_set a i (F i)) b
  = map (fun k => F (Z.of_nat k)) (seq 0 (length a)).
Proof. intros H. rewrite H. apply fill_loop. Qed.

Lemma zeroPad_spec (frame : list Q) (targetSize : Z) :
  zeroPad frame targetSize
  = frame ++ replicate (Z.to_nat targetSize - length frame) 0%Q.
Proof.
  unfold zeroPad. destruct (targetSize <=? Z.of_nat (length frame)) eqn:Hle.
  - apply Z.leb_le in Hle.
    replace (Z.to_nat targetSize - length frame)%nat with 0%nat by lia.
    simpl. rewrite app_nil_r. reflexivity.
  - apply Z.leb_gt in Hle. unfold typed_set, f32_new.
    rewrite length_replicate, take_ge by lia.
    rewrite drop_replicate. reflexivity.
Qed.

(** [zeroPad] returns the frame followed by as many zeros as are missing to
    the target size, so its length is the larger of the two sizes; a frame
    that is already long enough comes back unchanged. *)
Theorem zeroPad_appends_zeros (frame : list Q) (targetSize : Z) :
  zeroPad frame targetSize
  = frame ++ replicate (Z.to_nat targetSize - length frame) 0%Q /\
  Z.of_nat (length (zeroPad frame targetSize))
  = Z.max (Z.of_nat (length frame)) targetSize /\
  (targetSize <= Z.of_nat (length frame) -> zeroPad frame targetSize = frame).
Proof.
  rewrite zeroPad_spec. split; [reflexivity|]. split.
  - rewrite length_app, length_replicate. lia.
  - intros Hle.
    replace (Z.to_nat targetSize - length frame)%nat with 0%nat by lia.
    apply app_nil_r.
Qed.

(** The in-place zero padding of the generator rewrites the whole reused
    buffer: for a windowed frame of [windowSize] samples and a buffer that
    is no shorter, the transform input is the frame followed by zeros, which
    is what [zeroPad] returns for the buffer's length. *)
Theorem generator_padding_is_zeroPad (paddedBuffer windowed : list Q)
  (windowSize : Z) :
  Z.of_nat (length windowed) = windowSize ->
  (length windowed <= length paddedBuffer)%nat ->
  snd (zero_pad (Some paddedBuffer) windowed windowSize)
  = zeroPad windowed (Z.of_nat (length paddedBuffer)).
Proof.
  intros Hws Hfit. rewrite zeroPad_spec. unfold zero_pad. simpl.
  unfold typed_fill. rewrite typed_set_length.
  assert (Hk : Z.to_nat (rel_index (Z.of_nat (length paddedBuffer)) windowSize)
               = length windowed).
  { unfold rel_index.
    replace (windowSize <? 0) with false by (symmetry; apply Z.ltb_ge; lia).
    lia. }
  rewrite Hk. unfold typed_set.
  rewrite (take_ge windowed) by lia.
  rewrite take_app_length, Nat2Z.id. reflexivity.
Qed.

Lemma generator_padding_is_zeroPad_witness :
  snd (zero_pad (Some [7; 7; 7; 7; 7]%Q) [1; 2; 3]%Q 3)
  = zeroPad [1; 2; 3]%Q (Z.of_nat (length [7; 7; 7; 7; 7]%Q)).
Proof.
  apply (generator_padding_is_zeroPad [7; 7; 7; 7; 7]%Q [1; 2; 3]%Q 3);
    simpl; lia.
Defined.

End WindowingFacts.

(** ** The frequency scales over the real numbers: order and inverses *)

Module ScaleFacts.

Import FrequencyMapping FrequencyFacts BarkFacts.
Local Open Scope R_scope.
#[local] Existing Instance real_number.

Lemma hzToMel_real (x : R) : hzToMel x = 2595 * (ln (1 + x / 700) / ln 10).
Proof. unfold hzToMel. simpl. real_literals. reflexivity. Qed.

Lemma hzToErb_real (x : R) :
  hzToErb x = 214 / 10 * (ln (1 + 437 / 100000 * x) / ln 10).
Proof. unfold hzToErb. simpl. real_literals. reflexivity. Qed.

(** The three perceptual scales preserve the order of frequencies: from
    0 Hz up, a higher frequency never gets a lower Mel, ERB or Bark value,
    and 0 Hz is 0 on each scale. *)
Theorem frequency_scales_are_increasing (x y : R) :
  0 <= x <= y ->
  hzToMel x <= hzToMel y /\ hzToErb x <= hzToErb y /\ hzToBark x <= hzToBark y /\
  hzToMel 0 = 0 /\ hzToErb 0 = 0 /\ hzToBark 0 = 0.
Proof.
  intros Hxy. rewrite !hzToMel_real, !hzToErb_real, !hzToBark_bark.
  repeat split.
  - apply Rmult_le_compat_l; [lra|]. apply log10_mono; lra.
  - apply Rmult_le_compat_l; [lra|]. apply log10_mono; lra.
  - apply bark_increasing. exact Hxy.
  - replace (1 + 0 / 700) with 1 by lra. rewrite ln_1. unfold Rdiv. ring.
  - replace (1 + 437 / 100000 * 0) with 1 by lra. rewrite ln_1. unfold Rdiv. ring.
  - apply bark_0.
Qed.

Lemma log10_pow10 (y : R) : ln (Rpow 10 y) / ln 10 = y.
Proof.
  rewrite Rpow_pos by lra. unfold Rpower. rewrite ln_exp.
  field. apply Rgt_not_eq, ln_10_pos.
Qed.

(** Mel and ERB values convert to Hz and back without change, for every
    value: together with the Hz round trip, the two pairs of conversions are
    mutually inverse over the real numbers. *)
Theorem mel_and_erb_values_round_trip (v : R) :
  hzToMel (melToHz v) = v /\ hzToErb (erbToHz v) = v.
Proof.
  rewrite hzToMel_real, hzToErb_real. unfold melToHz, erbToHz.
  cbn [real_number add sub mul div num log10 pow]. real_literals. split.
  - replace (1 + 700 * (Rpow 10 (v / 2595) - 1) / 700) with (Rpow 10 (v / 2595))
      by (field).
    rewrite log10_pow10. field.
  - replace (1 + 437 / 100000 * ((Rpow 10 (v / (214 * / 10)) - 1) / (437 * / 100000)))
      with (Rpow 10 (v / (214 * / 10))) by (field).
    rewrite log10_pow10. field.
Qed.

(** The expression the Newton step of [barkToHz] divides by is the
    derivative of [hzToBark], at every frequency. *)
Theorem bark_derivative_is_exact (x : R) :
  derivable_pt_lim (fun hz => hzToBark hz) x (barkDerivative x).
Proof.
  apply (dlim_ext bark (fun hz => hzToBark hz) x (dbark x) (barkDerivative x)).
  - intros t. symmetry. apply hzToBark_bark.
  - symmetry. apply barkDerivative_dbark.
  - apply derivable_pt_lim_bark.
Qed.

Lemma frequency_scales_are_increasing_witness :
  hzToMel 440 <= hzToMel 880 /\ hzToErb 440 <= hzToErb 880 /\
  hzToBark 440 <= hzToBark 880 /\
  hzToMel 0 = 0 /\ hzToErb 0 = 0 /\ hzToBark 0 = 0.
Proof. apply (frequency_scales_are_increasing 440 880). lra. Defined.

End ScaleFacts.

(** ** The transform interface and the display value *)

Module TransformFacts.

Import Spectrogram JSFacts Frames Matrix.
Local Open Scope Z_scope.

(** The loop that loads a complex input buffer: sample, zero, sample,
    zero, ... *)
Lemma interleave_fill (data : list Q) (n : Z) : 0 <= n ->
  forall init : list Q, n * 2 <= Z.of_nat (length init) ->
  let buffer :=
    for_range 0 n
      (fun i inputBuffer =>
         f32_set (f32_set inputBuffer (i * 2) (f32_get data i)) (i * 2 + 1) 0)
      init in
  length buffer = length init /\
  forall i, 0 <= i < n ->
    f32_get buffer (i * 2) = f32_get data i /\
    f32_get buffer (i * 2 + 1) = 0%Q.
Proof.
  intros Hn. pattern n. apply natlike_ind; [| |exact Hn].
  - intros init _. rewrite for_range_empty by lia. split; [reflexivity|].
    intros i Hi. lia.
  - intros k Hk IH init Hlen. replace (Z.succ k) with (k + 1) by lia.
    rewrite for_range_succ by lia.
    destruct (IH init ltac:(lia)) as [Hl Hall].
    set (prev := for_range 0 k _ init) in *.
    split; [rewrite !f32_set_length; exact Hl|].
    intros i Hi. destruct (Z.eq_dec i k) as [->|Hne].
    + rewrite (f32_get_set_ne _ (k * 2 + 1) (k * 2)) by lia.
      rewrite f32_get_set_eq by lia.
      rewrite f32_get_set_eq by (rewrite f32_set_length; lia).
      split; reflexivity.
    + rewrite !f32_get_set_ne by lia. apply Hall. lia.
Qed.

Section WithMath.
Context {M : MathLib}.

(** What [runFFT] asks of the transform and what it returns.  The transform
    is run once on the loaded input buffer; the result is a fresh array with
    the first [fftSize + 2] numbers of its output ([fftSize / 2 + 1] complex
    bins).  A real transform sees the frame at the front of its input
    buffer; a complex one sees the samples interleaved with zero imaginary
    parts. *)
Theorem runFFT_loads_runs_and_copies (fftContext : FFTContext)
  (frame : list Q) (fftSize : Z) :
  0 <= fftSize -> Z.even fftSize = true ->
  let '(result, after) := runFFT fftContext frame fftSize in
  let numBins := fftSize / 2 + 1 in
  ctx_outputBuffer after = ctx_transform fftContext (ctx_inputBuffer after) /\
  length result = Z.to_nat (numBins * 2) /\
  (forall i, 0 <= i < numBins * 2 ->
     f32_get result i = f32_get (ctx_outputBuffer after) i) /\
  (ctx_isReal fftContext = true ->
   (length frame <= length (ctx_inputBuffer fftContext))%nat ->
   ctx_inputBuffer after
   = frame ++ drop (length frame) (ctx_inputBuffer fftContext)) /\
  (ctx_isReal fftContext = false ->
   fftSize * 2 <= Z.of_nat (length (ctx_inputBuffer fftContext)) ->
   forall i, 0 <= i < fftSize ->
     f32_get (ctx_inputBuffer after) (i * 2) = f32_get frame i /\
     f32_get (ctx_inputBuffer after) (i * 2 + 1) = 0%Q).
Proof.
  intros Hsize _. unfold runFFT. cbv zeta.
  assert (Hbins : 0 <= (fftSize / 2 + 1) * 2)
    by (pose proof (Z.div_pos fftSize 2 Hsize ltac:(lia)); lia).
  split; [reflexivity|]. split; [|split; [|split]].
  - match goal with
    | |- length (for_range 0 ?n ?body ?init) = _ =>
        rewrite (for_range_ind (fun a => length a = length init) 0 n body init)
    end.
    + apply f32_new_length.
    + reflexivity.
    + intros i a _ Ha. rewrite f32_set_length. exact Ha.
  - intros i Hi.
    match goal with
    | |- f32_get (for_range 0 ?n _ _) i = f32_get ?out i =>
        apply (for_range_fill (fun i => f32_get out i) n)
    end; [exact Hi | rewrite f32_new_length; lia].
  - intros Hreal Hfit. simpl. rewrite Hreal. unfold typed_set.
    rewrite take_ge by lia. reflexivity.
  - intros Hcomplex Hfit i Hi. simpl. rewrite Hcomplex.
    destruct (interleave_fill frame fftSize Hsize (ctx_inputBuffer fftContext) Hfit)
      as [_ Hall].
    apply Hall. exact Hi.
Qed.

Lemma clamp01_mono (a b : Q) : (a <= b)%Q -> (clamp01 a <= clamp01 b)%Q.
Proof.
  intros Hab. unfold clamp01.
  destruct (Qltb a 0) eqn:Ha0, (Qltb b 0) eqn:Hb0;
    try apply Qltb_lt in Ha0; try apply Qltb_ge in Ha0;
    try apply Qltb_lt in Hb0; try apply Qltb_ge in Hb0;
    destruct (Qltb 1 a) eqn:Ha1, (Qltb 1 b) eqn:Hb1;
    try apply Qltb_lt in Ha1; try apply Qltb_ge in Ha1;
    try apply Qltb_lt in Hb1; try apply Qltb_ge in Hb1; lra.
Qed.

(** With a logarithm that preserves order (as [Math.log] does), a positive
    normalisation factor and a positive range, the display value never
    decreases when the magnitude grows; it always lies in [0, 1]. *)
Theorem display_value_grows_with_magnitude
  (normFactor gainOffset range mag1 mag2 : Q) :
  (forall a b, a <= b -> Math_log a <= Math_log b)%Q ->
  (0 < normFactor)%Q -> (0 < range)%Q -> (mag1 <= mag2)%Q ->
  (0 <= normalizeMagnitude normFactor gainOffset range mag1
   <= normalizeMagnitude normFactor gainOffset range mag2)%Q /\
  (normalizeMagnitude normFactor gainOffset range mag2 <= 1)%Q.
Proof.
  intros Hlog Hnorm Hrange Hmag.
  pose proof (normalizeMagnitude_bounds normFactor gainOffset range mag1) as [H0 _].
  pose proof (normalizeMagnitude_bounds normFactor gainOffset range mag2) as [_ H1].
  split; [split; [exact H0|] | exact H1].
  unfold normalizeMagnitude. apply clamp01_mono.
  assert (Hinv : (0 < / normFactor)%Q) by (apply Qinv_lt_0_compat; exact Hnorm).
  assert (Hrinv : (0 < / range)%Q) by (apply Qinv_lt_0_compat; exact Hrange).
  assert (Harg : (mag1 / normFactor + (1 # 10000000000)
                  <= mag2 / normFactor + (1 # 10000000000))%Q).
  { unfold Qdiv. apply Qplus_le_compat; [|apply Qle_refl].
    apply Qmult_le_compat_r; [exact Hmag | apply Qlt_le_weak, Hinv]. }
  apply Hlog in Harg.
  unfold Qdiv at 1 3. apply Qmult_le_compat_r; [|apply Qlt_le_weak, Hrinv].
  apply Qplus_le_compat; [|apply Qle_refl].
  unfold magnitudeToDb. apply Qmult_le_l; [|exact Harg].
  unfold DB_SCALE_FACTOR. reflexivity.
Qed.

End WithMath.

Lemma runFFT_loads_runs_and_copies_witness :
  let '(result, after) := runFFT stub_fft (ramp 8) 8 in
  let numBins := 8 / 2 + 1 in
  ctx_outputBuffer after = ctx_transform stub_fft (ctx_inputBuffer after) /\
  length result = Z.to_nat (numBins * 2) /\
  (forall i, 0 <= i < numBins * 2 ->
     f32_get result i = f32_get (ctx_outputBuffer after) i) /\
  (ctx_isReal stub_fft = true ->
   (length (ramp 8) <= length (ctx_inputBuffer stub_fft))%nat ->
   ctx_inputBuffer after
   = ramp 8 ++ drop (length (ramp 8)) (ctx_inputBuffer stub_fft)) /\
  (ctx_isReal stub_fft = false ->
   8 * 2 <= Z.of_nat (length (ctx_inputBuffer stub_fft)) ->
   forall i, 0 <= i < 8 ->
     f32_get (ctx_inputBuffer after) (i * 2) = f32_get (ramp 8) i /\
     f32_get (ctx_inputBuffer after) (i * 2 + 1) = 0%Q).
Proof.
  apply (runFFT_loads_runs_and_copies stub_fft (ramp 8) 8); [lia | reflexivity].
Defined.

Lemma display_value_grows_with_magnitude_witness :
  (0 <= normalizeMagnitude (M := stub_math) 2 (-80) 80 1
   <= normalizeMagnitude (M := stub_math) 2 (-80) 80 3)%Q /\
  (normalizeMagnitude (M := stub_math) 2 (-80) 80 3 <= 1)%Q.
Proof.
  apply (display_value_grows_with_magnitude (M := stub_math) 2 (-80) 80 1 3).
  - intros a b Hab. simpl. lra.
  - reflexivity.
  - reflexivity.
  - discriminate.
Defined.

End TransformFacts.

(** ** Facts about rendering to a canvas *)

Module CanvasFacts.

Import Spectrogram Renderer CanvasRenderer.
Local Open Scope Z_scope.

Section WithMath.
Context {M : MathLib}.

(** Rendering to a canvas fails exactly when the canvas has no 2D context;
    otherwise the canvas is resized to [numFrames] by [numBins] and receives
    the very image [renderToImageData] returns for the same options. *)
Theorem canvas_receives_the_rendered_image (canvas : Canvas)
  (options : RenderOptions) :
  (canvas_has2d canvas = false ->
   renderSpectrogram canvas options = Throw no_context) /\
  (canvas_has2d canvas = true ->
   exists drawn,
     renderSpectrogram canvas options = Ok drawn /\
     canvas_width drawn = numFrames (r_spectrogram options) /\
     canvas_height drawn = numBins (r_spectrogram options) /\
     canvas_image drawn = Some (renderToImageData options)).
Proof.
  split; intros Hctx; unfold renderSpectrogram; rewrite Hctx; simpl negb;
    cbv iota; [reflexivity|].
  unfold renderToImageData.
  destruct (for_range 0 _ _ _) as [buf px].
  eexists. split; [reflexivity|]. simpl. repeat split; reflexivity.
Qed.

End WithMath.

End CanvasFacts.

(** ** The standard generator, cell by cell *)

Module StandardFacts.

Import Spectrogram JSFacts Frames Matrix Windowing WindowingFacts.
Local Open Scope Z_scope.

(** A loop that stores [F b] at index [off + b]. *)
Lemma offset_fill (F : Z -> Q) (off lo : Z) (a : list Q) (n : Z) :
  0 <= n -> 0 <= off + lo -> off + lo + n <= Z.of_nat (length a) ->
  let a' := for_range lo (lo + n) (fun b a => f32_set a (off + b) (F b)) a in
  length a' = length a /\
  (forall b, lo <= b < lo + n -> f32_get a' (off + b) = F b) /\
  (forall idx, idx < off + lo \/ off + lo + n <= idx ->
               f32_get a' idx = f32_get a idx).
Proof.
  intros Hn. pattern n. apply natlike_ind; [| |exact Hn].
  - intros _ _. replace (lo + 0) with lo by lia.
    rewrite for_range_empty by lia. cbv zeta.
    split; [reflexivity|]. split; [intros b Hb; lia | reflexivity].
  - intros k Hk IH H0 Hlen. replace (lo + Z.succ k) with (lo + k + 1) by lia.
    rewrite for_range_succ by lia.
    destruct (IH H0 ltac:(lia)) as (Hl & Hin & Hout).
    set (prev := for_range lo (lo + k) _ a) in *. cbv zeta.
    split; [rewrite f32_set_length; exact Hl|]. split.
    + intros b Hb. destruct (Z.eq_dec b (lo + k)) as [->|Hne].
      * apply f32_get_set_eq. lia.
      * rewrite f32_get_set_ne by lia. apply Hin. lia.
    + intros idx Hidx. rewrite f32_get_set_ne by lia. apply Hout. lia.
Qed.

Section WithMath.
Context {M : MathLib}.

(** The normalisation loops of one frame write the cells of that frame and
    no other cell. *)
Lemma standard_normalize_cells (numBins : Z) (normFactor gainOffset range : Q)
  (magnitudeBuffer : list Q) (frame : Z) (spectrogram : list Q) :
  3 <= numBins -> 0 <= frame ->
  (frame + 1) * numBins <= Z.of_nat (length spectrogram) ->
  let spectrogram' :=
    standard_normalize numBins normFactor gainOffset range magnitudeBuffer
      frame spectrogram in
  length spectrogram' = length spectrogram /\
  (forall bin, 3 <= bin < numBins ->
     f32_get spectrogram' (frame * numBins + bin)
     = normalizeMagnitude normFactor gainOffset range
         (f32_get magnitudeBuffer bin)) /\
  (forall idx, idx < frame * numBins \/ (frame + 1) * numBins <= idx ->
     f32_get spectrogram' idx = f32_get spectrogram idx).
Proof.
  intros HnB Hframe Hlen. unfold standard_normalize. cbv zeta.
  destruct (offset_fill (fun _ => 0%Q) (frame * numBins) 0 spectrogram 3
              ltac:(lia) ltac:(nia) ltac:(nia)) as (Hl1 & _ & Hout1).
  replace (0 + 3) with 3 in * by lia.
  set (dc := for_range 0 3 _ spectrogram) in *.
  destruct (offset_fill
              (fun bin => normalizeMagnitude normFactor gainOffset range
                            (f32_get magnitudeBuffer bin))
              (frame * numBins) 3 dc (numBins - 3)
              ltac:(lia) ltac:(nia) ltac:(rewrite Hl1; nia))
    as (Hl2 & Hin2 & Hout2).
  replace (3 + (numBins - 3)) with numBins in * by lia.
  split; [rewrite Hl2; exact Hl1|]. split.
  - intros bin Hbin. apply Hin2. exact Hbin.
  - intros idx Hidx. rewrite Hout2 by nia. apply Hout1. nia.
Qed.

Lemma computeMagnitude_entries (complexOutput : list Q) (numBins : Z)
  (magnitudes : list Q) :
  length magnitudes = Z.to_nat numBins ->
  let magnitudes' := computeMagnitudeInPlace complexOutput numBins magnitudes in
  length magnitudes' = length magnitudes /\
  forall i, 0 <= i < numBins ->
    f32_get magnitudes' i
    = Math_sqrt (f32_get complexOutput (i * 2) * f32_get complexOutput (i * 2)
                 + f32_get complexOutput (i * 2 + 1)
                   * f32_get complexOutput (i * 2 + 1))%Q.
Proof.
  intros Hlen. unfold computeMagnitudeInPlace. cbv zeta. split.
  - apply (for_range_ind (fun a => length a = length magnitudes)); [reflexivity|].
    intros i a _ Ha. rewrite f32_set_length. exact Ha.
  - intros i Hi.
    apply (for_range_fill
             (fun i => Math_sqrt
                (f32_get complexOutput (i * 2) * f32_get complexOutput (i * 2)
                 + f32_get complexOutput (i * 2 + 1)
                   * f32_get complexOutput (i * 2 + 1))%Q)); lia.
Qed.

(** [runFFT] on a real transform whose input buffer the frame fills. *)
Lemma runFFT_real (fftContext : FFTContext) (input : list Q) (fftSize : Z) :
  0 <= fftSize -> ctx_isReal fftContext = true ->
  length (ctx_inputBuffer fftContext) = length input ->
  let '(result, after) := runFFT fftContext input fftSize in
  ctx_isReal after = true /\
  ctx_inputBuffer after = input /\
  ctx_transform after = ctx_transform fftContext /\
  forall i, 0 <= i < (fftSize / 2 + 1) * 2 ->
    f32_get result i = f32_get (ctx_transform fftContext input) i.
Proof.
  intros Hsize Hreal Hlen. unfold runFFT. cbv zeta. rewrite Hreal.
  rewrite typed_set_same_length by (symmetry; exact Hlen). simpl.
  split; [exact Hreal|]. split; [reflexivity|]. split; [reflexivity|].
  intros i Hi.
  apply (for_range_fill (fun i => f32_get (ctx_transform fftContext input) i));
    [exact Hi | rewrite f32_new_length; lia].
Qed.

(** The spectrum the transform returns for a frame: the frame is cut out at
    [frame * hopSize], multiplied by the window coefficients and padded with
    zeros to the size of the transform. *)
Definition frame_spectrum (samples : list Q) (fftContext : FFTContext)
  (windowType : WindowType) (zeroPadding hopSize frame : Z) : list Q :=
  let fftSize := ctx_size fftContext in
  let windowSize := fftSize / zeroPadding in
  let windowCoeffs := getWindowCoefficients windowType windowSize standard in
  let frameData :=
    subarray samples (frame * hopSize) (frame * hopSize + windowSize) in
  let windowed :=
    map (fun k => (f32_get frameData (Z.of_nat k)
                   * f32_get windowCoeffs (Z.of_nat k))%Q)
      (seq 0 (Z.to_nat windowSize)) in
  ctx_transform fftContext (zeroPad windowed fftSize).

(** The display value of a bin of a spectrum of complex numbers. *)
Definition bin_value (normFactor gainOffset range : Q) (spectrum : list Q)
  (bin : Z) : Q :=
  let re := f32_get spectrum (bin * 2) in
  let im := f32_get spectrum (bin * 2 + 1) in
  normalizeMagnitude normFactor gainOffset range (Math_sqrt (re * re + im * im)).

(** What the frame loop keeps about its reused buffers. *)
Definition buffers_ok (transform : list Q -> list Q)
  (fftSize windowSize numBins : Z) (cells : nat) (st : StandardLoop) : Prop :=
  length (std_windowedBuffer st) = Z.to_nat windowSize /\
  (std_paddedBuffer st = None /\ windowSize = fftSize
   \/ exists p, std_paddedBuffer st = Some p /\ length p = Z.to_nat fftSize) /\
  length (std_magnitudeBuffer st) = Z.to_nat numBins /\
  ctx_isReal (std_fftContext st) = true /\
  length (ctx_inputBuffer (std_fftContext st)) = Z.to_nat fftSize /\
  ctx_transform (std_fftContext st) = transform /\
  length (std_spectrogram st) = cells.

Lemma zero_pad_input (padded : option (list Q)) (windowed : list Q)
  (fftSize windowSize : Z) :
  0 <= windowSize <= fftSize -> length windowed = Z.to_nat windowSize ->
  (padded = None /\ windowSize = fftSize
   \/ exists p, padded = Some p /\ length p = Z.to_nat fftSize) ->
  snd (zero_pad padded windowed windowSize) = zeroPad windowed fftSize /\
  (fst (zero_pad padded windowed windowSize) = None /\ windowSize = fftSize
   \/ exists p, fst (zero_pad padded windowed windowSize) = Some p /\
                length p = Z.to_nat fftSize).
Proof.
  intros Hws Hlen [[-> Heq] | [p [-> Hp]]]; simpl.
  - split; [|left; split; [reflexivity | exact Heq]].
    rewrite zeroPad_spec.
    replace (Z.to_nat fftSize - length windowed)%nat with 0%nat by lia.
    symmetry. apply app_nil_r.
  - assert (Hfill :
      typed_fill (typed_set p windowed) 0 windowSize = zeroPad windowed fftSize).
    { rewrite zeroPad_spec. unfold typed_fill. rewrite typed_set_length.
      assert (Hk : Z.to_nat (rel_index (Z.of_nat (length p)) windowSize)
                   = length windowed).
      { unfold rel_index.
        replace (windowSize <? 0) with false by (symmetry; apply Z.ltb_ge; lia).
        lia. }
      rewrite Hk. unfold typed_set.
      rewrite (take_ge windowed) by lia.
      rewrite take_app_length. f_equal. f_equal. lia. }
    split; [exact Hfill|]. right. eexists. split; [reflexivity|].
    rewrite Hfill, zeroPad_spec, length_app, length_replicate. lia.
Qed.

(** One pass of the frame loop: the buffers stay in shape, the cells of the
    frame hold the display values of the frame's spectrum, and no other cell
    changes. *)
Lemma standard_frame_cells (samples windowCoeffs : list Q)
  (fftContext : FFTContext) (windowType : WindowType)
  (zeroPadding numBins hopSize : Z) (normFactor gainOffset range : Q)
  (cells : nat) (frame : Z) (st : StandardLoop) :
  let fftSize := ctx_size fftContext in
  let windowSize := fftSize / zeroPadding in
  windowCoeffs = getWindowCoefficients windowType windowSize standard ->
  numBins = fftSize / 2 + 1 -> 3 <= numBins ->
  0 <= windowSize <= fftSize -> 0 <= frame ->
  0 <= frame * hopSize ->
  frame * hopSize + windowSize <= Z.of_nat (length samples) ->
  (frame + 1) * numBins <= Z.of_nat cells ->
  buffers_ok (ctx_transform fftContext) fftSize windowSize numBins cells st ->
  let st' :=
    standard_frame samples windowCoeffs fftSize windowSize numBins hopSize
      normFactor gainOffset range frame st in
  buffers_ok (ctx_transform fftContext) fftSize windowSize numBins cells st' /\
  (forall bin, 3 <= bin < numBins ->
     f32_get (std_spectrogram st') (frame * numBins + bin)
     = bin_value normFactor gainOffset range
         (frame_spectrum samples fftContext windowType zeroPadding hopSize frame)
         bin) /\
  (forall idx, idx < frame * numBins \/ (frame + 1) * numBins <= idx ->
     f32_get (std_spectrogram st') idx = f32_get (std_spectrogram st) idx).
Proof.
  intros fftSize windowSize Hcoeffs HnB Hbins Hws Hframe Hoff Hfit Hcells
    (Hwb & Hpad & Hmag & Hreal & Hin & Htr & Hsp).
  unfold standard_frame. cbv zeta.
  destruct (subarray_inside samples (frame * hopSize)
              (frame * hopSize + windowSize) ltac:(lia) Hfit) as [HfdLen _].
  replace (frame * hopSize + windowSize - frame * hopSize) with windowSize
    in HfdLen by lia.
  set (frameData := subarray samples _ _) in *.
  assert (Hwin :
    applyWindowCoefficients frameData windowCoeffs (std_windowedBuffer st)
    = map (fun k => (f32_get frameData (Z.of_nat k)
                     * f32_get windowCoeffs (Z.of_nat k))%Q)
        (seq 0 (Z.to_nat windowSize))).
  { unfold applyWindowCoefficients.
    rewrite (fill_loop_fresh
               (fun i => (f32_get frameData i * f32_get windowCoeffs i)%Q)
               frameData (std_windowedBuffer st)) by lia.
    rewrite HfdLen. reflexivity. }
  rewrite Hwin. set (windowed := map _ (seq 0 (Z.to_nat windowSize))).
  assert (HwLen : length windowed = Z.to_nat windowSize)
    by (subst windowed; rewrite length_map, length_seq; reflexivity).
  destruct (zero_pad_input (std_paddedBuffer st) windowed fftSize windowSize
              Hws HwLen Hpad) as [Hinput Hpad'].
  destruct (zero_pad (std_paddedBuffer st) windowed windowSize)
    as [paddedBuffer fftInput].
  simpl in Hinput, Hpad'. subst fftInput.
  assert (HinLen : length (zeroPad windowed fftSize) = Z.to_nat fftSize).
  { rewrite zeroPad_spec, length_app, length_replicate. lia. }
  pose proof (runFFT_real (std_fftContext st) (zeroPad windowed fftSize) fftSize
                ltac:(lia) Hreal ltac:(lia)) as Hrun.
  destruct (runFFT (std_fftContext st) (zeroPad windowed fftSize) fftSize)
    as [fftOutput after].
  destruct Hrun as (Hreal' & Hin' & Htr' & Hout).
  destruct (computeMagnitude_entries fftOutput numBins (std_magnitudeBuffer st)
              Hmag) as [HmagLen Hmags].
  destruct (standard_normalize_cells numBins normFactor gainOffset range
              (computeMagnitudeInPlace fftOutput numBins (std_magnitudeBuffer st))
              frame (std_spectrogram st) Hbins Hframe ltac:(lia))
    as (HspLen & Hcur & Hother).
  simpl. split; [|split].
  - unfold buffers_ok. simpl.
    repeat split; try assumption; try lia.
    + rewrite Hin'. exact HinLen.
    + rewrite Htr'. exact Htr.
  - intros bin Hbin. rewrite (Hcur bin Hbin), (Hmags bin ltac:(lia)).
    unfold bin_value, frame_spectrum. fold fftSize. fold windowSize.
    rewrite <- Hcoeffs. fold frameData. fold windowed. cbv zeta.
    rewrite !Hout by lia. rewrite Htr. reflexivity.
  - exact Hother.
Qed.

(** The frame loop up to [n] frames: every cell of the frames done so far
    holds the display value of its own frame's spectrum. *)
Lemma standard_loop_cells (samples : list Q) (fftContext : FFTContext)
  (windowType : WindowType) (zeroPadding numBins hopSize : Z)
  (normFactor gainOffset range : Q) (cells : nat) (st : StandardLoop) (n : Z) :
  let fftSize := ctx_size fftContext in
  let windowSize := fftSize / zeroPadding in
  let windowCoeffs := getWindowCoefficients windowType windowSize standard in
  numBins = fftSize / 2 + 1 -> 3 <= numBins ->
  0 <= windowSize <= fftSize -> 0 <= hopSize -> 0 <= n ->
  (n - 1) * hopSize + windowSize <= Z.of_nat (length samples) ->
  n * numBins <= Z.of_nat cells ->
  buffers_ok (ctx_transform fftContext) fftSize windowSize numBins cells st ->
  let st' :=
    for_range 0 n
      (standard_frame samples windowCoeffs fftSize windowSize numBins hopSize
         normFactor gainOffset range) st in
  buffers_ok (ctx_transform fftContext) fftSize windowSize numBins cells st' /\
  forall frame bin, 0 <= frame < n -> 3 <= bin < numBins ->
    f32_get (std_spectrogram st') (frame * numBins + bin)
    = bin_value normFactor gainOffset range
        (frame_spectrum samples fftContext windowType zeroPadding hopSize frame)
        bin.
Proof.
  intros fftSize windowSize windowCoeffs HnB Hbins Hws Hhop Hn.
  pattern n. apply natlike_ind; [| |exact Hn]; clear n Hn.
  - intros _ _ Hok. rewrite for_range_empty by lia. split; [exact Hok|].
    intros frame bin Hframe. lia.
  - intros n Hn IH Hfit Hcells Hok.
    change (Z.succ n) with (n + 1) in *.
    rewrite for_range_succ by lia.
    replace ((n + 1 - 1) * hopSize) with (n * hopSize) in Hfit by ring.
    assert (Hoff : 0 <= n * hopSize) by (apply Z.mul_nonneg_nonneg; lia).
    assert (Hfit' : (n - 1) * hopSize + windowSize
                    <= Z.of_nat (length samples)).
    { replace ((n - 1) * hopSize) with (n * hopSize - hopSize) by ring. lia. }
    assert (Hcells' : n * numBins <= Z.of_nat cells).
    { replace ((n + 1) * numBins) with (n * numBins + numBins) in Hcells by ring.
      lia. }
    destruct (IH Hfit' Hcells' Hok) as [Hok' Hdone].
    destruct (standard_frame_cells samples windowCoeffs fftContext windowType
                zeroPadding numBins hopSize normFactor gainOffset range cells n
                _ eq_refl HnB Hbins Hws Hn Hoff Hfit Hcells Hok')
      as (Hok'' & Hcur & Hother).
    split; [exact Hok''|].
    intros frame bin Hframe Hbin.
    destruct (Z.eq_dec frame n) as [->|Hne]; [apply Hcur; exact Hbin|].
    rewrite Hother; [apply Hdone; lia|].
    left. assert (frame + 1 <= n) by lia.
    assert ((frame + 1) * numBins <= n * numBins)
      by (apply Z.mul_le_mono_nonneg_r; lia).
    replace ((frame + 1) * numBins) with (frame * numBins + numBins) in * by ring.
    lia.
Qed.

(** In a spectrogram of the standard algorithm, run on a real transform,
    the cell of frame [frame] and bin [bin >= 3] is the display value of the
    magnitude of bin [bin] of that frame's spectrum: the transform of the
    frame's samples, cut out at [frame * hopSize], multiplied by the window
    and padded with zeros.  The buffers the loop reuses carry nothing over
    from one frame to the next. *)
Theorem standard_cell_is_its_frame_spectrum (options : SpectrogramOptions)
  (d : SpectrogramData) (frame bin : Z) :
  let fftContext := opt_fftContext options in
  let fftSize := ctx_size fftContext in
  let zeroPadding := default 1 (opt_zeroPadding options) in
  let windowType := default hann (opt_windowType options) in
  let gain := default 0%Q (opt_gain options) in
  let range := default 80%Q (opt_range options) in
  let normFactor := (inject_Z fftSize * WINDOW_COHERENT_GAIN windowType / 2)%Q in
  valid_options options = true ->
  default alg_standard (opt_algorithm options) = alg_standard ->
  ctx_isReal fftContext = true ->
  length (ctx_inputBuffer fftContext) = Z.to_nat fftSize ->
  (forall input, length input = Z.to_nat fftSize ->
     fftSize + 2 <= Z.of_nat (length (ctx_transform fftContext input))) ->
  generateSpectrogram options = Ok d ->
  0 <= frame < numFrames d -> 3 <= bin < numBins d ->
  f32_get (data d) (frame * numBins d + bin)
  = bin_value normFactor (gain - range)%Q range
      (frame_spectrum (opt_samples options) fftContext windowType zeroPadding
         (hopSize d) frame)
      bin.
Proof.
  intros fftContext fftSize zeroPadding windowType gain range normFactor
    Hvalid Halg Hreal Hin _ Hrun Hframe Hbin.
  destruct (valid_options_spec options Hvalid) as (Hsize & Hzp & _ & Hhop).
  fold fftContext in Hsize. fold fftSize in Hsize. fold zeroPadding in Hzp.
  revert Hrun. unfold generateSpectrogram. rewrite Halg.
  fold fftContext. fold fftSize. fold zeroPadding. fold windowType.
  fold gain. fold range. fold (requested_hopSize options).
  change (effective_hopSize _ _ _ _) with (used_hopSize options).
  unfold generateStandardSpectrogram. fold fftSize.
  set (windowSize := fftSize / zeroPadding).
  set (nF := frame_count _ windowSize (used_hopSize options)).
  destruct (nF <=? 0) eqn:HnF; [discriminate|]. apply Z.leb_gt in HnF.
  intros Hrun. injection Hrun as <-. simpl in *.
  assert (Hws : 0 <= windowSize <= fftSize).
  { subst windowSize. split; [apply Z.div_pos; lia|].
    apply Z.div_le_upper_bound; nia. }
  assert (Hfit : (nF - 1) * used_hopSize options + windowSize
                 <= Z.of_nat (length (opt_samples options))).
  { subst nF. unfold frame_count.
    set (L := Z.of_nat (length (opt_samples options)) - windowSize).
    assert (0 <= L).
    { destruct (Z_lt_le_dec L 0) as [Hneg|]; [|assumption].
      assert (L / used_hopSize options < 0)
        by (apply Z.div_lt_upper_bound; lia).
      unfold frame_count in HnF. fold L in HnF. lia. }
    pose proof (Z.mul_div_le L (used_hopSize options) ltac:(lia)).
    replace (L / used_hopSize options + 1 - 1) with (L / used_hopSize options)
      by lia.
    subst L. lia. }
  apply (standard_loop_cells (opt_samples options) fftContext windowType
           zeroPadding (fftSize / 2 + 1) (used_hopSize options) normFactor
           (gain - range)%Q range (Z.to_nat (nF * (fftSize / 2 + 1))) _ nF
           eq_refl ltac:(lia) Hws ltac:(lia) ltac:(lia) Hfit ltac:(nia)).
  - unfold buffers_ok. simpl. rewrite !f32_new_length.
    repeat split; try assumption; try reflexivity.
    destruct (1 <? zeroPadding) eqn:Hpad.
    + right. eexists. split; [reflexivity | apply f32_new_length].
    + left. split; [reflexivity|]. apply Z.ltb_ge in Hpad.
      subst windowSize. replace zeroPadding with 1 by lia. apply Z.div_1_r.
  - exact Hframe.
  - exact Hbin.
Qed.

End WithMath.

Lemma standard_cell_is_its_frame_spectrum_witness :
  match generateSpectrogram (M := stub_math) (stub_options 12 (Some 2) None None)
  with
  | Ok d =>
      f32_get (data d) (1 * numBins d + 3)
      = bin_value (M := stub_math) (inject_Z 8 * WINDOW_COHERENT_GAIN hann / 2)%Q
          (0 - 80)%Q 80%Q
          (frame_spectrum (M := stub_math) (ramp 12) stub_fft hann 1 (hopSize d) 1)
          3
  | Throw _ => False
  end.
Proof.
  destruct (generateSpectrogram (M := stub_math)
              (stub_options 12 (Some 2) None None)) as [d|e] eqn:Hrun.
  - apply (standard_cell_is_its_frame_spectrum (M := stub_math)
             (stub_options 12 (Some 2) None None) d 1 3 eq_refl eq_refl eq_refl
             eq_refl).
    + intros input Hlen. simpl. rewrite length_app. simpl in *. lia.
    + exact Hrun.
    + vm_compute in Hrun. injection Hrun as <-. simpl. lia.
    + vm_compute in Hrun. injection Hrun as <-. simpl. lia.
  - vm_compute in Hrun. discriminate Hrun.
Defined.

End StandardFacts.
